(** * Event store on bbolt: a shallow embedding and its properties

    The development follows the two revisions of the bbolt event store
    (package [bbolt], functions [itob], [MustOpenBBolt], [createBucket],
    [Save], [Get], [GlobalGet], [aggregateKey] / [bucketName],
    [validateEvents]) and the snapshot wrapper (package [eventsourcing],
    [Snapshot.Get]).

    Go values are modelled as follows.
    - [int] and [uint64] are 64 bits wide: a value is a [Z], conversions and
      arithmetic write their wrap-around out ([int], [uint64], [int_add]).
    - [[]byte] is a list of [Z] in [0, 256).
    - [string] is [String.string] (a Go string is a byte sequence).
    - the bbolt engine is a finite map from bucket names to buckets; a bucket
      is its sequence counter and its entries in ascending key order. *)

From Stdlib Require Import ZArith List String Ascii Lia Bool DecimalString Sorted.
From stdpp Require Import base option list gmap strings fin_maps.

Local Open Scope Z_scope.

(** ** Machine integers and byte strings *)

Module Go.

Definition bytes : Type := list Z.

(** [uint64(v)] for a 64-bit [v]. *)
Definition uint64 (v : Z) : Z := v mod 2 ^ 64.

(** [int(v)]: the 64-bit two's complement reading of [v]. *)
Definition int (v : Z) : Z := (v + 2 ^ 63) mod 2 ^ 64 - 2 ^ 63.

(** [a + b] on [int]. *)
Definition int_add (a b : Z) : Z := int (a + b).

(** [byte(v)]. *)
Definition byte (v : Z) : Z := v mod 256.

(** [binary.BigEndian.PutUint64(b, v)] on a fresh 8-byte slice. *)
Definition PutUint64 (v : Z) : bytes :=
  [ byte (v ≫ 56); byte (v ≫ 48); byte (v ≫ 40); byte (v ≫ 32);
    byte (v ≫ 24); byte (v ≫ 16); byte (v ≫ 8); byte v ].

(** [bytes.Compare]: the order bbolt keeps its keys in. *)
Fixpoint bytes_compare (a b : bytes) : comparison :=
  match a, b with
  | [], [] => Eq
  | [], _ :: _ => Lt
  | _ :: _, [] => Gt
  | x :: a', y :: b' =>
      match x ?= y with
      | Eq => bytes_compare a' b'
      | c => c
      end
  end.

Definition bytes_lt (a b : bytes) : Prop := bytes_compare a b = Lt.

(** [[]byte(s)] for a string [s]. *)
Fixpoint bytes_of_string (s : string) : bytes :=
  match s with
  | EmptyString => []
  | String c s' => Z.of_N (N_of_ascii c) :: bytes_of_string s'
  end.

(** [strconv.FormatUint(v, 10)]. *)
Definition FormatUint (v : Z) : string := NilZero.string_of_uint (N.to_uint (Z.to_N v)).

End Go.

Import Go.

(** ** Key encoding *)

(** [itob] returns an 8-byte big endian representation of [v]. *)
Definition itob (v : Z) : bytes := PutUint64 (uint64 v).

(** ** Events, errors and results *)

(** Modelled from the spec: the [Event] struct of package [eventsourcing] is
    not among the sources; section 3 of the specification lists its
    attributes (aggregate type, aggregate root id, version, reason, payload
    and metadata).  [AggregateRootID] is a string type and [Version] an
    [int]; payload and metadata are opaque to the store. *)
Record Event : Type := mkEvent {
  AggregateRootID : string;
  Version : Z;
  Reason : string;
  AggregateType : string;
  Data : string;
  MetaData : list (string * string)
}.

(** A Go [error] value: [errors.New] and [fmt.Errorf].  The format string and
    the operand are kept apart, the rendering of [%v] and [%#v] is not
    interpreted. *)
Inductive error : Type :=
  | errorString (text : string)
  | errorfErr (format : string) (err : error)
  | errorfName (format : string) (name : string)
  | errorfNameErr (format : string) (name : string) (err : error)
  | errorfEvent (format : string) (event : Event)
  | errorfBytes (format : string) (obj : bytes).

(** What a call does: it returns a value, returns a non-nil [error], or
    panics. *)
Inductive outcome (A : Type) : Type :=
  | Ret (a : A)
  | Fail (e : error)
  | Panic.

Arguments Ret {A} a.
Arguments Fail {A} e.
Arguments Panic {A}.

#[global] Instance outcome_ret : MRet outcome := fun A a => Ret a.

#[global] Instance outcome_bind : MBind outcome := fun A B k m =>
  match m with
  | Ret a => k a
  | Fail e => Fail e
  | Panic => Panic
  end.

(** [if err != nil { return f(err) }] *)
Definition or_return {A : Type} (m : outcome A) (f : error -> error) : outcome A :=
  match m with
  | Ret a => Ret a
  | Fail e => Fail (f e)
  | Panic => Panic
  end.

(** ** Keyspace naming *)

Definition globalEventOrderBucketName : string := "global_event_order".

(** [aggregateKey] generates the key events are stored against from
    [aggregateType] and [aggregateID]. *)
Definition aggregateKey (aggregateType aggregateID : string) : string :=
  (aggregateType ++ "_" ++ aggregateID)%string.

(** The same function under its earlier name. *)
Definition bucketName (aggregateType aggregateID : string) : string :=
  (aggregateType ++ "_" ++ aggregateID)%string.

(** [s] holds the byte [c]. *)
Fixpoint contains (c : ascii) (s : string) : bool :=
  match s with
  | EmptyString => false
  | String c' s' => if Ascii.eqb c c' then true else contains c s'
  end.

(** ** The concurrency validator *)

(** The loop of [validateEvents]; [currentVersion] is the loop-carried
    variable. *)
Fixpoint validateEvents_range (aggregateID aggregateType : string)
    (currentVersion : Z) (events : list Event) : bool * option error :=
  match events with
  | [] => (true, None)
  | event :: rest =>
      if decide (AggregateRootID event ≠ aggregateID) then
        (false, Some (errorString "events holds events for more than one aggregate"))
      else if decide (AggregateType event ≠ aggregateType) then
        (false, Some (errorString "events holds events for more than one aggregate type"))
      else if decide (int_add currentVersion 1 ≠ Version event) then
        (false, Some (errorString "concurrency error"))
      else if decide (Reason event = "") then
        (false, Some (errorString "event holds no reason"))
      else
        validateEvents_range aggregateID aggregateType (Version event) rest
  end.

(** [validateEvents]: [events[0]] panics on an empty slice. *)
Definition validateEvents (aggregateID : string) (currentVersion : Z)
    (events : list Event) : outcome (bool * option error) :=
  match events with
  | [] => Panic
  | first :: _ =>
      let aggregateType := AggregateType first in
      Ret (validateEvents_range aggregateID aggregateType currentVersion events)
  end.

Module eventstore.

(** Modelled from the spec: package [eventstore] is not among the sources.
    Section 4.2 gives the four checks of [ValidateEvents] and their order;
    the error values are named after the checks. *)
Definition ErrEventMultipleAggregates : error :=
  errorString "events holds events for more than one aggregate".
Definition ErrEventMultipleAggregateTypes : error :=
  errorString "events holds events for more than one aggregate type".
Definition ErrConcurrency : error := errorString "concurrency error".
Definition ErrReasonMissing : error := errorString "event holds no reason".

Fixpoint ValidateEvents_range (aggregateID aggregateType : string)
    (currentVersion : Z) (events : list Event) : outcome unit :=
  match events with
  | [] => Ret tt
  | event :: rest =>
      if decide (AggregateRootID event ≠ aggregateID) then
        Fail ErrEventMultipleAggregates
      else if decide (AggregateType event ≠ aggregateType) then
        Fail ErrEventMultipleAggregateTypes
      else if decide (Version event ≠ int_add currentVersion 1) then
        Fail ErrConcurrency
      else if decide (Reason event = "") then
        Fail ErrReasonMissing
      else
        ValidateEvents_range aggregateID aggregateType (Version event) rest
  end.

(** Modelled from the spec: [ValidateEvents(aggregateID, currentVersion,
    events)] of section 4.2; the batch type is the first event's. *)
Definition ValidateEvents (aggregateID : string) (currentVersion : Z)
    (events : list Event) : outcome unit :=
  match events with
  | [] => Panic
  | first :: _ =>
      ValidateEvents_range aggregateID (AggregateType first) currentVersion events
  end.

End eventstore.

(** *** The validator's contract, in the words of the specification *)

(** One event fails one of the four checks against [currentVersion]. *)
Definition violates (aggregateId aggregateType : string) (currentVersion : Z)
    (event : Event) : Prop :=
  AggregateRootID event ≠ aggregateId
  ∨ AggregateType event ≠ aggregateType
  ∨ Version event ≠ int_add currentVersion 1
  ∨ Reason event = "".

#[global] Instance violates_dec aggregateId aggregateType currentVersion event :
  Decision (violates aggregateId aggregateType currentVersion event).
Proof. unfold violates. apply _. Defined.

(** Every event of [accepted] passes, [currentVersion] advancing to each
    accepted event's version. *)
Fixpoint accepts (aggregateId aggregateType : string) (currentVersion : Z)
    (accepted : list Event) : Prop :=
  match accepted with
  | [] => True
  | event :: rest =>
      ¬ violates aggregateId aggregateType currentVersion event
      ∧ accepts aggregateId aggregateType (Version event) rest
  end.

(** [currentVersion] after the events of [accepted]. *)
Definition advanced (currentVersion : Z) (accepted : list Event) : Z :=
  List.last (map Version accepted) currentVersion.

(** Some event of the batch, reached in order, fails a check. *)
Definition rejects (aggregateId aggregateType : string) (currentVersion : Z)
    (events : list Event) : Prop :=
  ∃ accepted event rest,
    events = accepted ++ event :: rest
    ∧ accepts aggregateId aggregateType currentVersion accepted
    ∧ violates aggregateId aggregateType (advanced currentVersion accepted) event.

(** The aggregate type a batch establishes: its first event's. *)
Definition batch_type (events : list Event) : string :=
  match events with
  | [] => ""
  | first :: _ => AggregateType first
  end.

(** ** The keyspace engine

    The engine (bbolt) is an external collaborator.  Its buckets are kept
    here as they behave: a bucket is its entries in ascending [bytes.Compare]
    order of their keys and its [uint64] sequence counter; the root of a
    transaction maps bucket names to buckets.  A [*Bucket] is the name it was
    opened under ([None] is the nil pointer), so two handles on one bucket
    share its state.  The database handle is open: [Begin] and [Commit]
    succeed, and a transaction that is not committed leaves the database as
    it was. *)

Module Bolt.

Record Bucket : Type := mkBucket {
  entries : list (bytes * bytes);
  sequence : Z
}.

Record Tx : Type := mkTx {
  writable : bool;
  root : gmap string Bucket
}.

Abbreviation DB := (gmap string Bucket).

(** A cursor is the entries from its position on. *)
Abbreviation Cursor := (list (bytes * bytes)).

Definition ErrTxNotWritable : error := errorString "tx not writable".
Definition ErrBucketNameRequired : error := errorString "bucket name required".
Definition ErrKeyRequired : error := errorString "key required".
Definition ErrKeyTooLarge : error := errorString "key too large".
Definition ErrValueTooLarge : error := errorString "value too large".

Definition MaxKeySize : Z := 32768.
Definition MaxValueSize : Z := Z.shiftl 1 31 - 2.

(** Insertion of a pair at its place in the key order; an equal key is
    overwritten. *)
Fixpoint put (key value : bytes) (l : list (bytes * bytes)) : list (bytes * bytes) :=
  match l with
  | [] => [(key, value)]
  | (k, v) :: rest =>
      match bytes_compare key k with
      | Lt => (key, value) :: (k, v) :: rest
      | Eq => (key, value) :: rest
      | Gt => (k, v) :: put key value rest
      end
  end.

(** [db.Begin(writable)] *)
Definition Begin (w : bool) (db : DB) : Tx := mkTx w db.

(** [tx.Commit()] *)
Definition Commit (tx : Tx) : DB := root tx.

(** [tx.Bucket(name)] *)
Definition Tx_Bucket (name : string) (tx : Tx) : option string :=
  match root tx !! name with
  | Some _ => Some name
  | None => None
  end.

(** [tx.CreateBucketIfNotExists(name)]; the bucket it returns is not used
    by the callers. *)
Definition CreateBucketIfNotExists (name : string) (tx : Tx) : outcome Tx :=
  if negb (writable tx) then Fail ErrTxNotWritable
  else if decide (name = "") then Fail ErrBucketNameRequired
  else match root tx !! name with
       | Some _ => Ret tx
       | None => Ret (mkTx (writable tx) (<[name := mkBucket [] 0]> (root tx)))
       end.

(** [b.Cursor()]: a nil bucket is dereferenced. *)
Definition Bucket_Cursor (b : option string) (tx : Tx) : outcome Cursor :=
  match b with
  | None => Panic
  | Some name =>
      match root tx !! name with
      | Some bk => Ret (entries bk)
      | None => Panic
      end
  end.

(** [c.Last()] *)
Definition Last (c : Cursor) : option (bytes * bytes) := last c.

(** [c.Seek(seek)], followed by [c.Next()] to the end: the entries from the
    first key not below [seek]. *)
Fixpoint Seek (seek : bytes) (c : Cursor) : Cursor :=
  match c with
  | [] => []
  | (k, v) :: rest =>
      match bytes_compare k seek with
      | Lt => Seek seek rest
      | _ => (k, v) :: rest
      end
  end.

(** [b.NextSequence()] *)
Definition NextSequence (b : option string) (tx : Tx) : outcome (Z * Tx) :=
  match b with
  | None => Panic
  | Some name =>
      match root tx !! name with
      | None => Panic
      | Some bk =>
          if negb (writable tx) then Fail ErrTxNotWritable
          else
            let s := uint64 (sequence bk + 1) in
            Ret (s, mkTx (writable tx)
                         (<[name := mkBucket (entries bk) s]> (root tx)))
      end
  end.

(** [b.Put(key, value)] *)
Definition Put (b : option string) (key value : bytes) (tx : Tx) : outcome Tx :=
  match b with
  | None => Panic
  | Some name =>
      match root tx !! name with
      | None => Panic
      | Some bk =>
          if negb (writable tx) then Fail ErrTxNotWritable
          else if decide (key = []) then Fail ErrKeyRequired
          else if MaxKeySize <? Z.of_nat (length key) then Fail ErrKeyTooLarge
          else if MaxValueSize <? Z.of_nat (length value) then Fail ErrValueTooLarge
          else Ret (mkTx (writable tx)
                         (<[name := mkBucket (put key value (entries bk))
                                             (sequence bk)]> (root tx)))
      end
  end.

End Bolt.

Import Bolt.

(** [eventstore.EventSerializer] *)
Class EventSerializer : Type := {
  SerializeEvent : Event → outcome bytes;
  DeserializeEvent : bytes → outcome Event
}.

(** ** The event store *)

Module Store.

(** [MustOpenBBolt] on a new file: the global order bucket, nothing else. *)
Definition MustOpenBBolt : DB :=
  match CreateBucketIfNotExists globalEventOrderBucketName (Begin true ∅) with
  | Ret tx => Commit tx
  | _ => ∅
  end.

(** What the engine answers to [db.Begin] and to [tx.Commit]: nil, or an
    error (the database is closed, the pages cannot be written). *)
Record Engine : Type := mkEngine {
  Begin_err : option error;
  Commit_err : option error
}.

Section WithSerializer.

Context {serializer : EventSerializer}.

(** [createBucket] *)
Definition createBucket (bucketName : string) (tx : Tx) : outcome Tx :=
  or_return (CreateBucketIfNotExists bucketName tx)
    (fun err => errorfNameErr "could not create bucket for %s: %s" bucketName err).

(** The body of the loop of [Save]. *)
Definition Save_event (evBucket globalBucket : option string) (bucketName : string)
    (event : Event) (tx : Tx) : outcome Tx :=
  '(sequence, tx) ← or_return (NextSequence evBucket tx)
      (fun _ => errorfName "could not get sequence for %#v" bucketName);
  value ← or_return (SerializeEvent event)
      (fun err => errorfErr "could not serialize event, %v" err);
  tx ← or_return (Put evBucket (itob (int sequence)) value tx)
      (fun _ => errorfEvent "could not save event %#v in bucket" event);
  '(globalSequence, tx) ← or_return (NextSequence globalBucket tx)
      (fun _ => errorString "could not get next sequence for global bucket");
  tx ← or_return (Put globalBucket (itob (int globalSequence)) value tx)
      (fun _ => errorfName "could not save global sequence pointer for %#v" bucketName);
  Ret tx.

Fixpoint Save_range (evBucket globalBucket : option string) (bucketName : string)
    (events : list Event) (tx : Tx) : outcome Tx :=
  match events with
  | [] => Ret tx
  | event :: rest =>
      tx ← Save_event evBucket globalBucket bucketName event tx;
      Save_range evBucket globalBucket bucketName rest tx
  end.

(** The version read of [Save]: [currentVersion] after [cursor.Last()]. *)
Definition Save_currentVersion (cursor : Cursor) : outcome Z :=
  match Last cursor with
  | Some (k, obj) =>
      event ← or_return (DeserializeEvent obj)
          (fun err => errorfErr "could not serialize event, %v" err);
      Ret (Version event)
  | None => Ret 0
  end.

(** [Save] between [Begin] and [Commit]. *)
Definition Save_tx (events : list Event) (first : Event) (tx : Tx) : outcome Tx :=
  let aggregateType := AggregateType first in
  let aggregateID := AggregateRootID first in
  let bucketName := aggregateKey aggregateType aggregateID in
  let evBucket := Tx_Bucket bucketName tx in
  '(evBucket, tx) ←
    match evBucket with
    | None =>
        tx ← or_return (createBucket bucketName tx)
            (fun _ => errorString "could not create aggregate events bucket");
        Ret (Tx_Bucket bucketName tx, tx)
    | Some _ => Ret (evBucket, tx)
    end;
  cursor ← Bucket_Cursor evBucket tx;
  currentVersion ← Save_currentVersion cursor;
  _ ← eventstore.ValidateEvents aggregateID currentVersion events;
  let globalBucket := Tx_Bucket globalEventOrderBucketName tx in
  _ ← match globalBucket with
      | None => Fail (errorString "global bucket not found")
      | Some _ => Ret tt
      end;
  Save_range evBucket globalBucket bucketName events tx.

(** [Save] an aggregate (its events): the database afterwards and what the
    call did.  The deferred [tx.Rollback()] leaves the database untouched on
    every path that does not commit. *)
Definition Save (db : DB) (events : list Event) : DB * outcome unit :=
  match events with
  | [] => (db, Ret tt)
  | first :: _ =>
      let tx := Begin true db in
      match Save_tx events first tx with
      | Ret tx => (Commit tx, Ret tt)
      | Fail err => (db, Fail err)
      | Panic => (db, Panic)
      end
  end.

(** [Save] with both answers of the engine made explicit: an error of
    [db.Begin] is returned before anything is read; an error of [tx.Commit]
    is returned after the batch has been written to the transaction, which
    is rolled back.  [Save] above is [Save] under an engine that answers nil
    both times. *)
Definition Save_under (engine : Engine) (db : DB) (events : list Event)
    : DB * outcome unit :=
  match events with
  | [] => (db, Ret tt)
  | first :: _ =>
      match Begin_err engine with
      | Some err => (db, Fail err)
      | None =>
          let tx := Begin true db in
          match Save_tx events first tx with
          | Ret tx =>
              match Commit_err engine with
              | Some err => (db, Fail err)
              | None => (Commit tx, Ret tt)
              end
          | Fail err => (db, Fail err)
          | Panic => (db, Panic)
          end
      end
  end.

(** The loop of [Get]. *)
Fixpoint Get_range (c : Cursor) (events : list Event) : outcome (list Event) :=
  match c with
  | [] => Ret events
  | (k, obj) :: rest =>
      event ← or_return (DeserializeEvent obj)
          (fun err => errorfErr "Could not deserialize event, %v" err);
      Get_range rest (events ++ [event])
  end.

(** [Get] aggregate events. *)
Definition Get (db : DB) (id aggregateType : string) (afterVersion : Z)
    : outcome (list Event) :=
  let bucketName := aggregateKey aggregateType id in
  let tx := Begin false db in
  let evBucket := Tx_Bucket bucketName tx in
  cursor ← Bucket_Cursor evBucket tx;
  let events := [] in
  let firstEvent := int_add (int afterVersion) 1 in
  Get_range (Seek (itob firstEvent) cursor) events.

(** The loop of [GlobalGet]; [None] is the nil slice. *)
Fixpoint GlobalGet_range (count : Z) (c : Cursor) (events : list Event)
    (counter : Z) : outcome (option (list Event)) :=
  match c with
  | [] => Ret (Some events)
  | (k, obj) :: rest =>
      match DeserializeEvent obj with
      | Fail _ => Ret None
      | Panic => Panic
      | Ret event =>
          let events := events ++ [event] in
          let counter := int_add counter 1 in
          if counter >=? count then Ret (Some events)
          else GlobalGet_range count rest events counter
      end
  end.

(** [GlobalGet] returns events from the global order. *)
Definition GlobalGet (db : DB) (start count : Z) : outcome (option (list Event)) :=
  let tx := Begin false db in
  let evBucket := Tx_Bucket globalEventOrderBucketName tx in
  cursor ← Bucket_Cursor evBucket tx;
  let events := [] in
  let counter := 0 in
  GlobalGet_range count (Seek (itob start) cursor) events counter.

End WithSerializer.

End Store.

(** ** The earlier revision of the store: JSON values, pointers in the
    global order *)

(** [encoding/json] on events, and the compression helpers of package
    [eventstore].  [json_Unmarshal data event] is
    [json.Unmarshal(data, &event)]: the event as the call leaves it. *)
Class JSONCodec : Type := {
  json_Marshal : Event → outcome bytes;
  json_Unmarshal : bytes → Event → outcome Event;
  MustCompress : bytes → outcome bytes;
  MustDecompress : bytes → outcome bytes
}.

Module StoreJSON.

(** [MustOpenBBolt] on a new file. *)
Definition MustOpenBBolt : DB :=
  match CreateBucketIfNotExists globalEventOrderBucketName (Begin true ∅) with
  | Ret tx => Commit tx
  | _ => ∅
  end.

Section WithCodec.

Context {codec : JSONCodec}.

(** [createBucket] *)
Definition createBucket (bucketName : string) (tx : Tx) : outcome Tx :=
  or_return (CreateBucketIfNotExists bucketName tx)
    (fun err => errorfNameErr "could not create bucket for %s: %s" bucketName err).

(** The body of the loop of [Save]. *)
Definition Save_event (evBucket globalBucket : option string) (bucketName : string)
    (event : Event) (tx : Tx) : outcome Tx :=
  obj ← or_return (json_Marshal event)
      (fun _ => errorfBytes "could not marshal delta object for %#v" []);
  '(sequence, tx) ← or_return (NextSequence evBucket tx)
      (fun _ => errorfName "could not get sequence for %#v" bucketName);
  compressed ← MustCompress obj;
  tx ← or_return (Put evBucket (itob (int sequence)) compressed tx)
      (fun _ => errorfEvent "could not save event %#v in bucket" event);
  '(globalSequence, tx) ← or_return (NextSequence globalBucket tx)
      (fun _ => errorString "could not get next sequence for global bucket");
  let globalSequenceValue := (bucketName ++ ":" ++ FormatUint sequence)%string in
  tx ← or_return (Put globalBucket (itob (int globalSequence))
                      (bytes_of_string globalSequenceValue) tx)
      (fun _ => errorfName "could not save global sequence pointer for %#v" bucketName);
  Ret tx.

Fixpoint Save_range (evBucket globalBucket : option string) (bucketName : string)
    (events : list Event) (tx : Tx) : outcome Tx :=
  match events with
  | [] => Ret tx
  | event :: rest =>
      tx ← Save_event evBucket globalBucket bucketName event tx;
      Save_range evBucket globalBucket bucketName rest tx
  end.

(** The version read of [Save]: [currentVersion] after [cursor.Last()]. *)
Definition Save_currentVersion (cursor : Cursor) : outcome Z :=
  match Last cursor with
  | Some (k, obj) =>
      jsonObj ← MustDecompress obj;
      event ← json_Unmarshal jsonObj (mkEvent "" 0 "" "" "" []);
      Ret (Version event)
  | None => Ret 0
  end.

(** [Save] between [Begin] and [Commit]: [Some tx] is the transaction to
    commit, [None] a return of a nil [err] before the commit. *)
Definition Save_tx (events : list Event) (first : Event) (tx : Tx)
    : outcome (option Tx) :=
  let aggregateType := AggregateType first in
  let aggregateID := AggregateRootID first in
  let bucketName := bucketName aggregateType aggregateID in
  let evBucket := Tx_Bucket bucketName tx in
  '(evBucket, tx) ←
    match evBucket with
    | None =>
        tx ← or_return (createBucket bucketName tx)
            (fun _ => errorString "EXIT SAVE");
        Ret (Tx_Bucket bucketName tx, tx)
    | Some _ => Ret (evBucket, tx)
    end;
  cursor ← Bucket_Cursor evBucket tx;
  currentVersion ← Save_currentVersion cursor;
  '(ok, err) ← validateEvents aggregateID currentVersion events;
  if negb ok then
    match err with
    | Some err => Fail err
    | None => Ret None
    end
  else
    let globalBucket := Tx_Bucket globalEventOrderBucketName tx in
    _ ← match globalBucket with
        | None => Fail (errorString "global bucket not found")
        | Some _ => Ret tt
        end;
    tx ← Save_range evBucket globalBucket bucketName events tx;
    Ret (Some tx).

(** [Save] an aggregate (its events). *)
Definition Save (db : DB) (events : list Event) : DB * outcome unit :=
  match events with
  | [] => (db, Ret tt)
  | first :: _ =>
      let tx := Begin true db in
      match Save_tx events first tx with
      | Ret (Some tx) => (Commit tx, Ret tt)
      | Ret None => (db, Ret tt)
      | Fail err => (db, Fail err)
      | Panic => (db, Panic)
      end
  end.

(** The loop of [Get].  [event] is declared before the loop: every
    [json.Unmarshal] writes into the variable the previous one left.  The
    appended events are values here: a map that the appended copies would
    share with that variable is not represented, and nothing is stated of
    this loop. *)
Fixpoint Get_range (c : Cursor) (event : Event) (events : list Event)
    : outcome (list Event) :=
  match c with
  | [] => Ret events
  | (k, obj) :: rest =>
      jsonObj ← MustDecompress obj;
      event ← or_return (json_Unmarshal jsonObj event)
          (fun _ => errorfBytes "could not unmarshal json object for %#v" obj);
      Get_range rest event (events ++ [event])
  end.

(** [Get] aggregate events: what the call writes to standard output
    ([fmt.Println]) and what it does. *)
Definition Get (db : DB) (id aggregateType : string) : string * outcome (list Event) :=
  let stdout := String "G" (String "E" (String "T" (String "010" EmptyString))) in
  let bucketName := bucketName aggregateType id in
  let tx := Begin false db in
  let evBucket := Tx_Bucket bucketName tx in
  (stdout,
   cursor ← Bucket_Cursor evBucket tx;
   let events := [] in
   let event := mkEvent "" 0 "" "" "" [] in
   Get_range cursor event events).

End WithCodec.

End StoreJSON.

(** ** Snapshots *)

Module Snapshot.

Section WithStore.

(** [S] is the state behind the store, [V] the values held in an
    [interface{}]. *)
Context {S V : Type}.

(** The [snapshotStore] interface. *)
Class snapshotStore : Type := {
  store_Save : string → V → S → S * option error;
  store_Get : string → S → S * (V * option error)
}.

Record Snapshot : Type := mkSnapshot { store : snapshotStore }.

Definition NewSnapshot (store : snapshotStore) : Snapshot := mkSnapshot store.

Definition Save (s : Snapshot) (id : string) (a : V) (st : S) : S * option error :=
  @store_Save (store s) id a st.

(** The variables of [Get]: the parameter [a] and [err]. *)
Record Get_frame : Type := mkFrame { a : V; err : option error }.

(** [a, err := s.store.Get(id)] in the frame of [Get]: [a] is the callee's
    copy of the argument. *)
Definition Get_assign (s : Snapshot) (id : string) (a0 : V) (st : S) : S * Get_frame :=
  let '(st', (v, e)) := @store_Get (store s) id st in
  (st', mkFrame v e).

(** [Get]: [return err]; the frame is dropped. *)
Definition Get (s : Snapshot) (id : string) (a0 : V) (st : S) : S * option error :=
  let '(st', frame) := Get_assign s id a0 st in
  (st', err frame).

End WithStore.

End Snapshot.

(** ** A serializer to run the store with

    Version as eight big-endian bytes, then the four strings, each closed by
    a zero byte; metadata is not stored. *)

Module LineCodec.

Fixpoint string_of_bytes (b : bytes) : string :=
  match b with
  | [] => EmptyString
  | x :: b' => String (ascii_of_N (Z.to_N x)) (string_of_bytes b')
  end.

(** The bytes up to the first zero byte, and the bytes after it. *)
Fixpoint field (b : bytes) : option (bytes * bytes) :=
  match b with
  | [] => None
  | x :: b' =>
      if x =? 0 then Some ([], b')
      else match field b' with
           | Some (f, r) => Some (x :: f, r)
           | None => None
           end
  end.

Definition Uint64 (b : bytes) : Z := fold_left (fun acc x => acc * 256 + x) b 0.

Definition encode (e : Event) : bytes :=
  itob (Version e)
  ++ bytes_of_string (AggregateRootID e) ++ [0]
  ++ bytes_of_string (AggregateType e) ++ [0]
  ++ bytes_of_string (Reason e) ++ [0]
  ++ bytes_of_string (Data e) ++ [0].

Definition decode (b : bytes) : outcome Event :=
  let malformed := Fail (errorString "malformed event") in
  if (length b <? 8)%nat then malformed
  else
    match field (drop 8 b) with
    | Some (id, r) =>
        match field r with
        | Some (ty, r) =>
            match field r with
            | Some (reason, r) =>
                match field r with
                | Some (data, []) =>
                    Ret (mkEvent (string_of_bytes id) (int (Uint64 (take 8 b)))
                                 (string_of_bytes reason) (string_of_bytes ty)
                                 (string_of_bytes data) [])
                | _ => malformed
                end
            | None => malformed
            end
        | None => malformed
        end
    | None => malformed
    end.

#[export] Instance serializer : EventSerializer := {
  SerializeEvent e := Ret (encode e);
  DeserializeEvent := decode
}.

(** The same bytes behind the JSON interface, uncompressed. *)
#[export] Instance json : JSONCodec := {
  json_Marshal e := Ret (encode e);
  json_Unmarshal b _ := decode b;
  MustCompress b := Ret b;
  MustDecompress b := Ret b
}.

End LineCodec.

(** ** Shapes of a store *)

(** The sequence numbers [first .. first + n - 1]. *)
Definition sequence_run (first : Z) (n : nat) : list Z :=
  map (fun i => first + Z.of_nat i) (seq 0 n).

(** The bucket holds the keys of the sequence numbers it has issued, no
    other, and its counter is a [uint64]. *)
Definition bucket_sequenced (b : Bucket) : Prop :=
  0 <= sequence b < 2 ^ 64
  ∧ Forall (fun kv => ∃ s, 1 <= s <= sequence b ∧ kv.1 = PutUint64 s) (entries b).

(** The bucket holds exactly the keys of the sequence numbers
    [1 .. sequence b], in this order: none is missing and there is no
    other. *)
Definition bucket_dense (b : Bucket) : Prop :=
  0 <= sequence b < 2 ^ 64
  ∧ map fst (entries b)
    = map (fun s => itob (int s)) (sequence_run 1 (Z.to_nat (sequence b))).

(** Every bucket of the store is dense. *)
Definition store_dense (db : DB) : Prop :=
  ∀ name b, db !! name = Some b → bucket_dense b.

(** The counter of the bucket called [name], zero while it does not exist. *)
Definition sequence_of (db : DB) (name : string) : Z :=
  match db !! name with
  | Some b => sequence b
  | None => 0
  end.

(** The entries of the bucket called [name]. *)
Definition entries_of (db : DB) (name : string) : list (bytes * bytes) :=
  match db !! name with
  | Some b => entries b
  | None => []
  end.

(** The keys of a bucket are in strictly ascending order and eight bytes
    long. *)
Definition key_lt (x y : bytes * bytes) : Prop := bytes_lt x.1 y.1.

Definition bucket_ordered (b : Bucket) : Prop :=
  StronglySorted key_lt (entries b)
  ∧ Forall (fun kv => ∃ s, 0 <= s < 2 ^ 64 ∧ kv.1 = PutUint64 s) (entries b).

(** The global log is there and every bucket is ordered. *)
Definition store_ordered (db : DB) : Prop :=
  is_Some (db !! globalEventOrderBucketName)
  ∧ ∀ name b, db !! name = Some b → bucket_ordered b.

(** The root of a write transaction once the bucket [name] has been opened
    or created. *)
Definition opened_root (db : DB) (name : string) : DB :=
  match db !! name with
  | Some _ => db
  | None => <[name := mkBucket [] 0]> db
  end.

(** What [NextSequence] followed by [Put] under the new sequence number does
    to a bucket. *)
Definition issue (b : Bucket) (value : bytes) : Bucket :=
  let s := uint64 (sequence b + 1) in
  mkBucket (put (itob (int s)) value (entries b)) s.

Definition issue_all (b : Bucket) (values : list bytes) : Bucket :=
  fold_left issue values b.

(** The value the earlier revision writes to the global log for the event
    it stored under [sequence] in [bucketName]: [bucketName:sequence]. *)
Definition globalSequenceValue (bucketName : string) (sequence : Z) : bytes :=
  bytes_of_string (bucketName ++ ":" ++ FormatUint sequence).

(** The pointers of [n] events written to a bucket whose counter is [q]. *)
Fixpoint pointers (bucketName : string) (q : Z) (n : nat) : list bytes :=
  match n with
  | O => []
  | S n =>
      let s := uint64 (q + 1) in
      globalSequenceValue bucketName s :: pointers bucketName s n
  end.

(** The two buckets a batch is written to, when they are two. *)
Record written (tx tx' : Tx) (name : string) (values globals : list bytes) : Prop := {
  written_aggregate : ∀ b, root tx !! name = Some b →
      root tx' !! name = Some (issue_all b values);
  written_global : ∀ b, root tx !! globalEventOrderBucketName = Some b →
      root tx' !! globalEventOrderBucketName = Some (issue_all b globals);
  written_others : ∀ other, other ≠ name → other ≠ globalEventOrderBucketName →
      root tx' !! other = root tx !! other;
  written_length : length globals = length values
}.

(** Every bucket of the store is sequenced. *)
Definition store_sequenced (db : DB) : Prop :=
  ∀ name b, db !! name = Some b → bucket_sequenced b.

(** What a committed batch of [n] events leaves behind: both counters are
    [n] further, and the global log has grown at its end by [n] entries
    under the next [n] sequence numbers. *)
Definition batch_appended (db db' : DB) (name : string) (n : nat) : Prop :=
  sequence_of db' name = sequence_of db name + Z.of_nat n
  ∧ sequence_of db' globalEventOrderBucketName
    = sequence_of db globalEventOrderBucketName + Z.of_nat n
  ∧ ∃ globals,
      length globals = n
      ∧ entries_of db' globalEventOrderBucketName
        = entries_of db globalEventOrderBucketName
          ++ zip (map (fun s => itob (int s))
                      (sequence_run
                         (sequence_of db globalEventOrderBucketName + 1) n))
                 globals.

(** The events in a slice; the nil slice has none. *)
Definition events_of (r : option (list Event)) : list Event := default [] r.

(** What [GlobalGet] hands back, against the global bucket [g]: the events
    returned are the decoded values of a run of consecutive entries that
    follows the entries below the key of [start], and each of them sits
    under a sequence number not below [start]. *)
Definition page_of `{EventSerializer} (g : Bucket) (start : Z) (events : list Event) : Prop :=
  ∃ skipped page rest,
    entries g = skipped ++ page ++ rest
    ∧ Forall (fun kv => bytes_lt kv.1 (itob start)) skipped
    ∧ Forall2 (fun e kv => DeserializeEvent kv.2 = Ret e) events page
    ∧ Forall (fun kv => ∃ s, 0 <= s < 2 ^ 64 ∧ kv.1 = itob (int s) ∧ start <= s) page.

(** The stores reached from a new file by calls of [Save]. *)
Inductive reachable `{EventSerializer} : DB → Prop :=
  | reachable_open : reachable Store.MustOpenBBolt
  | reachable_Save db events :
      reachable db → reachable (Store.Save db events).1.

(** * Properties *)

(** *** Arithmetic of the encoding *)

Section Encoding.

Lemma uint64_small v : 0 <= v < 2 ^ 64 -> uint64 v = v.
Proof. intros H. unfold uint64. apply Z.mod_small. exact H. Qed.

Lemma int_small v : - 2 ^ 63 <= v < 2 ^ 63 -> int v = v.
Proof. intros H. unfold int. rewrite Z.mod_small; lia. Qed.

Lemma uint64_int v : uint64 (int v) = uint64 v.
Proof.
  unfold uint64, int.
  rewrite Zminus_mod, Zmod_mod, <- Zminus_mod.
  f_equal. lia.
Qed.

Lemma uint64_range v : 0 <= uint64 v < 2 ^ 64.
Proof. unfold uint64. apply Z.mod_pos_bound. lia. Qed.

(** The key written for a sequence number [s] of type [uint64]. *)
Lemma itob_int s : itob (int s) = PutUint64 (uint64 s).
Proof. unfold itob. now rewrite uint64_int. Qed.

(** The eight digits of a 64-bit value in base 256. *)
Lemma digits_256 v :
  0 <= v < 2 ^ 64 ->
  v = byte (v ≫ 56) * 2 ^ 56 + byte (v ≫ 48) * 2 ^ 48
    + byte (v ≫ 40) * 2 ^ 40 + byte (v ≫ 32) * 2 ^ 32
    + byte (v ≫ 24) * 2 ^ 24 + byte (v ≫ 16) * 2 ^ 16
    + byte (v ≫ 8) * 2 ^ 8 + byte v.
Proof.
  intros Hv. unfold byte.
  rewrite !Z.shiftr_div_pow2 by lia.
  pose proof (Z.div_mod v 256 ltac:(lia)) as E0.
  pose proof (Z.div_mod (v / 2 ^ 8) 256 ltac:(lia)) as E1.
  pose proof (Z.div_mod (v / 2 ^ 16) 256 ltac:(lia)) as E2.
  pose proof (Z.div_mod (v / 2 ^ 24) 256 ltac:(lia)) as E3.
  pose proof (Z.div_mod (v / 2 ^ 32) 256 ltac:(lia)) as E4.
  pose proof (Z.div_mod (v / 2 ^ 40) 256 ltac:(lia)) as E5.
  pose proof (Z.div_mod (v / 2 ^ 48) 256 ltac:(lia)) as E6.
  pose proof (Z.div_mod (v / 2 ^ 56) 256 ltac:(lia)) as E7.
  rewrite Z.div_div in E1, E2, E3, E4, E5, E6, E7 by lia.
  change (2 ^ 8 * 256) with (2 ^ 16) in E1.
  change (2 ^ 16 * 256) with (2 ^ 24) in E2.
  change (2 ^ 24 * 256) with (2 ^ 32) in E3.
  change (2 ^ 32 * 256) with (2 ^ 40) in E4.
  change (2 ^ 40 * 256) with (2 ^ 48) in E5.
  change (2 ^ 48 * 256) with (2 ^ 56) in E6.
  change (2 ^ 56 * 256) with (2 ^ 64) in E7.
  change (2 ^ 8) with 256 in *.
  assert (v / 2 ^ 64 = 0) as Z64 by (apply Z.div_small; lia).
  clear Hv.
  generalize dependent (v `mod` 256).
  generalize dependent ((v `div` 256) `mod` 256).
  generalize dependent ((v `div` 2 ^ 16) `mod` 256).
  generalize dependent ((v `div` 2 ^ 24) `mod` 256).
  generalize dependent ((v `div` 2 ^ 32) `mod` 256).
  generalize dependent ((v `div` 2 ^ 40) `mod` 256).
  generalize dependent ((v `div` 2 ^ 48) `mod` 256).
  generalize dependent ((v `div` 2 ^ 56) `mod` 256).
  generalize dependent (v `div` 256). generalize dependent (v `div` 2 ^ 16).
  generalize dependent (v `div` 2 ^ 24). generalize dependent (v `div` 2 ^ 32).
  generalize dependent (v `div` 2 ^ 40). generalize dependent (v `div` 2 ^ 48).
  generalize dependent (v `div` 2 ^ 56). generalize dependent (v `div` 2 ^ 64).
  intros. lia.
Qed.

Lemma byte_range v : 0 <= byte v < 256.
Proof. unfold byte. apply Z.mod_pos_bound. lia. Qed.

(** Eight base-256 digits compare bytewise like the numbers they spell. *)
Lemma lex8_compare (a7 a6 a5 a4 a3 a2 a1 a0 b7 b6 b5 b4 b3 b2 b1 b0 : Z) :
  0 <= a7 < 256 -> 0 <= a6 < 256 -> 0 <= a5 < 256 -> 0 <= a4 < 256 ->
  0 <= a3 < 256 -> 0 <= a2 < 256 -> 0 <= a1 < 256 -> 0 <= a0 < 256 ->
  0 <= b7 < 256 -> 0 <= b6 < 256 -> 0 <= b5 < 256 -> 0 <= b4 < 256 ->
  0 <= b3 < 256 -> 0 <= b2 < 256 -> 0 <= b1 < 256 -> 0 <= b0 < 256 ->
  bytes_compare [a7; a6; a5; a4; a3; a2; a1; a0] [b7; b6; b5; b4; b3; b2; b1; b0]
  = (a7 * 2 ^ 56 + a6 * 2 ^ 48 + a5 * 2 ^ 40 + a4 * 2 ^ 32
     + a3 * 2 ^ 24 + a2 * 2 ^ 16 + a1 * 2 ^ 8 + a0
     ?= b7 * 2 ^ 56 + b6 * 2 ^ 48 + b5 * 2 ^ 40 + b4 * 2 ^ 32
     + b3 * 2 ^ 24 + b2 * 2 ^ 16 + b1 * 2 ^ 8 + b0).
Proof.
  intros. cbn [bytes_compare].
  repeat match goal with
  | |- context [ match ?x ?= ?y with _ => _ end ] => destruct (Z.compare_spec x y)
  end;
  symmetry;
  first [ apply Z.compare_eq_iff | apply Z.compare_lt_iff | apply Z.compare_gt_iff ];
  lia.
Qed.

(** Big-endian keys compare like the numbers they encode. *)
Lemma PutUint64_compare a b :
  0 <= a < 2 ^ 64 -> 0 <= b < 2 ^ 64 ->
  bytes_compare (PutUint64 a) (PutUint64 b) = (a ?= b).
Proof.
  intros Ha Hb.
  rewrite (digits_256 a Ha) at 2.
  rewrite (digits_256 b Hb) at 2.
  unfold PutUint64.
  apply lex8_compare; apply byte_range.
Qed.

End Encoding.

(** C9 — [itob] is strictly order-preserving on the non-negative [int]
    range: for [0 <= a < b < 2^63] the key [itob a] is bytewise smaller than
    the key [itob b], which is the order a bbolt cursor walks. *)
Theorem itob_strictly_monotone (a b : Z) :
  0 <= a -> a < b -> b < 2 ^ 63 ->
  bytes_lt (itob a) (itob b).
Proof.
  intros H0 Hab Hb. unfold bytes_lt, itob.
  rewrite !uint64_small by lia.
  rewrite PutUint64_compare by lia.
  now apply Z.compare_lt_iff.
Qed.

Lemma itob_strictly_monotone_witness :
  bytes_lt (itob 255) (itob 256).
Proof. apply (itob_strictly_monotone 255 256); lia. Defined.

Section Naming.

Lemma join_inj (t1 t2 i1 i2 : string) :
  contains "_" t1 = false -> contains "_" t2 = false ->
  (t1 ++ "_" ++ i1 = t2 ++ "_" ++ i2)%string -> t1 = t2 /\ i1 = i2.
Proof.
  revert t2.
  induction t1 as [|c t1 IH]; intros [|d t2] H1 H2 E;
    cbn [contains String.append] in *.
  - now inversion E.
  - injection E as <- _. rewrite Ascii.eqb_refl in H2. discriminate.
  - injection E as -> _. rewrite Ascii.eqb_refl in H1. discriminate.
  - injection E as -> E.
    destruct (Ascii.eqb "_" d); [discriminate|].
    destruct (IH t2 H1 H2 E) as [-> ->]; auto.
Qed.

End Naming.

(** C6, as stated, fails: the pairs ("a_b", "c") and ("a", "b_c") are
    distinct and both functions send them to the keyspace "a_b_c". *)
Lemma aggregateKey_collision :
  ~ (forall t1 i1 t2 i2 : string,
       (t1, i1) <> (t2, i2) ->
       aggregateKey t1 i1 <> aggregateKey t2 i2 /\ bucketName t1 i1 <> bucketName t2 i2).
Proof.
  intros H.
  destruct (H "a_b" "c" "a" "b_c")%string as [Hk _]; [discriminate|].
  apply Hk. reflexivity.
Qed.

(** C6, amended — the naming function separates every two distinct pairs
    whose aggregate types hold no underscore: the first underscore of the
    name is then the separator. *)
Theorem aggregateKey_injective_plain_types (t1 i1 t2 i2 : string) :
  contains "_" t1 = false -> contains "_" t2 = false ->
  (t1, i1) <> (t2, i2) ->
  aggregateKey t1 i1 <> aggregateKey t2 i2 /\ bucketName t1 i1 <> bucketName t2 i2.
Proof.
  intros H1 H2 Hne.
  split; intros E; apply Hne; unfold aggregateKey, bucketName in E;
    destruct (join_inj _ _ _ _ H1 H2 E) as [-> ->]; reflexivity.
Qed.

Lemma aggregateKey_injective_plain_types_witness :
  aggregateKey "user" "u_1" <> aggregateKey "user" "u_2"
  /\ bucketName "user" "u_1" <> bucketName "user" "u_2".
Proof.
  apply (aggregateKey_injective_plain_types "user" "u_1" "user" "u_2");
    [reflexivity | reflexivity | discriminate].
Defined.

Section Validator.

Variables aggregateId aggregateType : string.

Lemma advanced_cons cv e l : advanced cv (e :: l) = advanced (Version e) l.
Proof.
  unfold advanced. cbn [map]. revert e cv.
  induction l as [|x l IH]; intros e cv; [reflexivity|].
  cbn [map]. change (List.last (Version e :: Version x :: map Version l) cv)
    with (List.last (Version x :: map Version l) cv).
  rewrite (IH x cv). symmetry. apply (IH x (Version e)).
Qed.

Lemma rejects_cons cv e l :
  rejects aggregateId aggregateType cv (e :: l)
  ↔ violates aggregateId aggregateType cv e
    ∨ (¬ violates aggregateId aggregateType cv e
       ∧ rejects aggregateId aggregateType (Version e) l).
Proof.
  split.
  - intros (acc & ev & rest & E & Hacc & Hv).
    destruct acc as [|a acc]; cbn in E; injection E as -> ->.
    + left. exact Hv.
    + destruct Hacc as [Hn Hacc]. right. split; [exact Hn|].
      exists acc, ev, rest. rewrite advanced_cons in Hv. auto.
  - intros [Hv | [Hn (acc & ev & rest & -> & Hacc & Hv)]].
    + exists [], e, l. cbn. auto.
    + exists (e :: acc), ev, rest. rewrite advanced_cons. cbn. auto.
Qed.

Lemma rejects_nil cv : ¬ rejects aggregateId aggregateType cv [].
Proof. intros (acc & ev & rest & E & _). destruct acc; discriminate. Qed.

Lemma validateEvents_range_spec cv events :
  (rejects aggregateId aggregateType cv events
   → ∃ err, validateEvents_range aggregateId aggregateType cv events
            = (false, Some err))
  ∧ (¬ rejects aggregateId aggregateType cv events
     → validateEvents_range aggregateId aggregateType cv events = (true, None)).
Proof.
  revert cv. induction events as [|e l IH]; intros cv.
  - split; [intros H; destruct (rejects_nil _ H) | reflexivity].
  - rewrite rejects_cons. cbn [validateEvents_range]. unfold violates.
    repeat case_decide; try (split; [eauto | intros Hn; exfalso; apply Hn; auto]; fail).
    destruct (IH (Version e)) as [IH1 IH2].
    split.
    + intros [Hv | [_ Hr]]; [|auto].
      exfalso. destruct Hv as [?|[?|[?|?]]]; congruence.
    + intros Hn. apply IH2. intros Hr. apply Hn. right. split; [|exact Hr].
      intros [?|[?|[?|?]]]; congruence.
Qed.

Lemma ValidateEvents_range_spec cv events :
  (rejects aggregateId aggregateType cv events
   → ∃ err, eventstore.ValidateEvents_range aggregateId aggregateType cv events
            = Fail err)
  ∧ (¬ rejects aggregateId aggregateType cv events
     → eventstore.ValidateEvents_range aggregateId aggregateType cv events = Ret tt).
Proof.
  revert cv. induction events as [|e l IH]; intros cv.
  - split; [intros H; destruct (rejects_nil _ H) | reflexivity].
  - rewrite rejects_cons. cbn [eventstore.ValidateEvents_range]. unfold violates.
    repeat case_decide; try (split; [eauto | intros Hn; exfalso; apply Hn; auto]; fail).
    destruct (IH (Version e)) as [IH1 IH2].
    split.
    + intros [Hv | [_ Hr]]; [|auto].
      exfalso. destruct Hv as [?|[?|[?|?]]]; congruence.
    + intros Hn. apply IH2. intros Hr. apply Hn. right. split; [|exact Hr].
      intros [?|[?|[?|?]]]; congruence.
Qed.

Lemma rejects_decidable cv events :
  rejects aggregateId aggregateType cv events
  ∨ ¬ rejects aggregateId aggregateType cv events.
Proof.
  revert cv. induction events as [|e l IH]; intros cv.
  - right. apply rejects_nil.
  - rewrite rejects_cons.
    destruct (decide (violates aggregateId aggregateType cv e)) as [Hv|Hv]; [auto|].
    destruct (IH (Version e)) as [Hr|Hr]; [auto|].
    right. intros [?|[_ ?]]; auto.
Qed.

End Validator.

(** C2 — on a non-empty batch the validator returns an error exactly when
    some event, scanned in order with [currentVersion] advanced to each
    accepted event's version, has a foreign aggregate id, a type other than
    the first event's, a version other than [currentVersion + 1] or an empty
    reason; otherwise it returns success. *)
Theorem validateEvents_iff_rejects (aggregateId : string) (currentVersion : Z)
    (events : list Event) :
  events ≠ [] →
  ((∃ err, validateEvents aggregateId currentVersion events = Ret (false, Some err))
   ↔ rejects aggregateId (batch_type events) currentVersion events)
  ∧ (¬ rejects aggregateId (batch_type events) currentVersion events
     → validateEvents aggregateId currentVersion events = Ret (true, None)).
Proof.
  intros Hne. destruct events as [|first rest]; [congruence|].
  unfold validateEvents. cbn [batch_type].
  destruct (validateEvents_range_spec aggregateId (AggregateType first)
              currentVersion (first :: rest)) as [H1 H2].
  split; [split|].
  - intros [err E].
    destruct (rejects_decidable aggregateId (AggregateType first)
                currentVersion (first :: rest)) as [Hr|Hr]; [exact Hr|].
    rewrite (H2 Hr) in E. discriminate.
  - intros Hr. destruct (H1 Hr) as [err ->]. eauto.
  - intros Hr. now rewrite (H2 Hr).
Qed.

Lemma validateEvents_iff_rejects_witness :
  let e1 := mkEvent "u1" 1 "Created" "user" "" [] in
  let e2 := mkEvent "u1" 3 "Renamed" "user" "" [] in
  ((∃ err, validateEvents "u1" 0 [e1; e2] = Ret (false, Some err))
   ↔ rejects "u1" (batch_type [e1; e2]) 0 [e1; e2])
  ∧ (¬ rejects "u1" (batch_type [e1; e2]) 0 [e1; e2]
     → validateEvents "u1" 0 [e1; e2] = Ret (true, None)).
Proof.
  intros e1 e2. apply (validateEvents_iff_rejects "u1" 0 [e1; e2]). discriminate.
Defined.

Lemma validateEvents_cases id cv first rest :
  validateEvents id cv (first :: rest) = Ret (true, None)
  ∨ ∃ err, validateEvents id cv (first :: rest) = Ret (false, Some err).
Proof.
  unfold validateEvents.
  destruct (rejects_decidable id (AggregateType first) cv (first :: rest)) as [Hr|Hr];
    apply validateEvents_range_spec in Hr.
  - right. destruct Hr as [err ->]. eauto.
  - left. now rewrite Hr.
Qed.

(** ** The engine *)

Section Engine.

Lemma bind_Ret {A B} (a : A) (k : A → outcome B) : Ret a ≫= k = k a.
Proof. reflexivity. Qed.

Lemma bind_Fail {A B} (e : error) (k : A → outcome B) : Fail e ≫= k = Fail e.
Proof. reflexivity. Qed.

Lemma aggregateKey_nonempty t i : aggregateKey t i ≠ "".
Proof. unfold aggregateKey. destruct t; discriminate. Qed.

Lemma bucketName_nonempty t i : bucketName t i ≠ "".
Proof. unfold bucketName. destruct t; discriminate. Qed.

Lemma opened_root_lookup db name :
  opened_root db name !! name
  = Some (mkBucket (entries_of db name) (sequence_of db name)).
Proof.
  unfold opened_root, entries_of, sequence_of.
  destruct (db !! name) as [[l q]|] eqn:E; [exact E | apply lookup_insert_eq].
Qed.

Lemma opened_root_lookup_ne db name other :
  other ≠ name → opened_root db name !! other = db !! other.
Proof.
  intros Hne. unfold opened_root.
  destruct (db !! name); [reflexivity | now apply lookup_insert_ne].
Qed.

(** Opening a bucket for writing: it is there, or it is created empty. *)
Lemma open_or_create (db : DB) (name : string) (f g : error → error) :
  name ≠ "" →
  (match Tx_Bucket name (Begin true db) with
   | None =>
       tx ← or_return (or_return (CreateBucketIfNotExists name (Begin true db)) g) f;
       Ret (Tx_Bucket name tx, tx)
   | Some _ => Ret (Tx_Bucket name (Begin true db), Begin true db)
   end) = Ret (Some name, mkTx true (opened_root db name)).
Proof.
  intros Hname. unfold Tx_Bucket, CreateBucketIfNotExists, opened_root.
  cbn [Begin root writable negb].
  destruct (db !! name) as [b|] eqn:E.
  - reflexivity.
  - case_decide; [congruence|]. cbn. now rewrite lookup_insert_eq.
Qed.

Lemma Bucket_Cursor_opened db name w :
  Bucket_Cursor (Some name) (mkTx w (opened_root db name)) = Ret (entries_of db name).
Proof. unfold Bucket_Cursor. cbn [root]. now rewrite opened_root_lookup. Qed.

End Engine.

(** ** Empty batches *)

(** C7 — [Save] of an empty batch returns nil and leaves the database as it
    was: no bucket is created, no entry written, no counter advanced. *)
Theorem Save_empty_batch `{EventSerializer} `{JSONCodec} (db : DB) :
  Store.Save db [] = (db, Ret tt) ∧ StoreJSON.Save db [] = (db, Ret tt).
Proof. split; reflexivity. Qed.

(** ** Rejected batches *)

Section Unfolded.

Context {serializer : EventSerializer} {codec : JSONCodec}.

(** [Save] of a non-empty batch, after the bucket has been opened. *)
Lemma Store_Save_unfold (db : DB) (first : Event) (rest : list Event) :
  let events := first :: rest in
  let id := AggregateRootID first in
  let name := aggregateKey (AggregateType first) id in
  let tx := mkTx true (opened_root db name) in
  Store.Save db events
  = match (cv ← Store.Save_currentVersion (entries_of db name);
           _ ← eventstore.ValidateEvents id cv events;
           _ ← match Tx_Bucket globalEventOrderBucketName tx with
               | None => Fail (errorString "global bucket not found")
               | Some _ => Ret tt
               end;
           Store.Save_range (Some name) (Tx_Bucket globalEventOrderBucketName tx)
             name events tx) with
    | Ret tx' => (Commit tx', Ret tt)
    | Fail err => (db, Fail err)
    | Panic => (db, Panic)
    end.
Proof.
  cbn zeta. unfold Store.Save, Store.Save_tx, Store.createBucket. cbn zeta.
  set (name := aggregateKey _ _).
  rewrite (open_or_create db name _ _ (aggregateKey_nonempty _ _)).
  change (Ret (Some name, mkTx true (opened_root db name)) ≫= ?k)
    with (k (Some name, mkTx true (opened_root db name))).
  cbn beta iota. rewrite Bucket_Cursor_opened.
  reflexivity.
Qed.

Lemma StoreJSON_Save_unfold (db : DB) (first : Event) (rest : list Event) :
  let events := first :: rest in
  let id := AggregateRootID first in
  let name := bucketName (AggregateType first) id in
  let tx := mkTx true (opened_root db name) in
  StoreJSON.Save db events
  = match (cv ← StoreJSON.Save_currentVersion (entries_of db name);
           '(ok, err) ← validateEvents id cv events;
           if negb ok then
             match err with
             | Some err => Fail err
             | None => Ret None
             end
           else
             _ ← match Tx_Bucket globalEventOrderBucketName tx with
                 | None => Fail (errorString "global bucket not found")
                 | Some _ => Ret tt
                 end;
             tx' ← StoreJSON.Save_range (Some name)
                     (Tx_Bucket globalEventOrderBucketName tx) name events tx;
             Ret (Some tx')) with
    | Ret (Some tx') => (Commit tx', Ret tt)
    | Ret None => (db, Ret tt)
    | Fail err => (db, Fail err)
    | Panic => (db, Panic)
    end.
Proof.
  cbn zeta. unfold StoreJSON.Save, StoreJSON.Save_tx, StoreJSON.createBucket.
  cbn zeta. set (name := bucketName _ _).
  rewrite (open_or_create db name _ _ (bucketName_nonempty _ _)).
  change (Ret (Some name, mkTx true (opened_root db name)) ≫= ?k)
    with (k (Some name, mkTx true (opened_root db name))).
  cbn beta iota. rewrite Bucket_Cursor_opened.
  reflexivity.
Qed.

End Unfolded.

(** C3 — a batch the validator rejects (foreign id or type, wrong version,
    empty reason) makes [Save] return the validator's error and leaves the
    database exactly as it was: no bucket created, no entry in the aggregate
    keyspace or the global log, no counter advanced.  [cv] is the version
    [Save] reads from the last entry of the aggregate keyspace. *)
Theorem Save_rejected_batch_unchanged `{EventSerializer} `{JSONCodec}
    (db : DB) (first : Event) (rest : list Event) :
  let events := first :: rest in
  let id := AggregateRootID first in
  let type := AggregateType first in
  (∀ cv,
     Store.Save_currentVersion (entries_of db (aggregateKey type id)) = Ret cv →
     rejects id type cv events →
     ∃ err, eventstore.ValidateEvents id cv events = Fail err
            ∧ Store.Save db events = (db, Fail err))
  ∧ (∀ cv,
       StoreJSON.Save_currentVersion (entries_of db (bucketName type id)) = Ret cv →
       rejects id type cv events →
       ∃ err, validateEvents id cv events = Ret (false, Some err)
              ∧ StoreJSON.Save db events = (db, Fail err)).
Proof.
  cbn zeta. split; intros cv Hcv Hr.
  - destruct (ValidateEvents_range_spec (AggregateRootID first)
                (AggregateType first) cv (first :: rest)) as [Hfail _].
    destruct (Hfail Hr) as [err Herr]. exists err. split; [exact Herr|].
    rewrite Store_Save_unfold. cbn zeta. rewrite Hcv, bind_Ret.
    unfold eventstore.ValidateEvents in Herr |- *. now rewrite Herr.
  - destruct (validateEvents_range_spec (AggregateRootID first)
                (AggregateType first) cv (first :: rest)) as [Hfail _].
    destruct (Hfail Hr) as [err Herr]. exists err.
    assert (validateEvents (AggregateRootID first) cv (first :: rest)
            = Ret (false, Some err)) as Hv
      by (unfold validateEvents; now rewrite Herr).
    split; [exact Hv|].
    rewrite StoreJSON_Save_unfold. cbn zeta. rewrite Hcv, bind_Ret.
    now rewrite Hv.
Qed.

Lemma Save_rejected_batch_unchanged_witness :
  let e := mkEvent "u1" 2 "Renamed" "user" "" [] in
  (∃ err, eventstore.ValidateEvents "u1" 0 [e] = Fail err
          ∧ Store.Save (serializer := LineCodec.serializer) Store.MustOpenBBolt [e]
            = (Store.MustOpenBBolt, Fail err))
  ∧ (∃ err, validateEvents "u1" 0 [e] = Ret (false, Some err)
            ∧ StoreJSON.Save (codec := LineCodec.json) StoreJSON.MustOpenBBolt [e]
              = (StoreJSON.MustOpenBBolt, Fail err)).
Proof.
  intros e.
  assert (rejects "u1" "user" 0 [e]) as Hr.
  { exists [], e, []. split; [reflexivity|]. split; [exact I|].
    right. right. left. vm_compute. discriminate. }
  destruct (Save_rejected_batch_unchanged (H := LineCodec.serializer)
              (H0 := LineCodec.json) Store.MustOpenBBolt e []) as [H0 H1].
  split; [apply (H0 0) | apply (H1 0)]; solve [reflexivity | exact Hr].
Defined.

(** ** Reading an aggregate that was never written *)

(** C5 — for an aggregate that has no keyspace, [Get] does not return the
    empty sequence: [tx.Bucket] returns nil and [Get] calls [Cursor] on it,
    which panics.  (In [Save] the nil bucket is checked for.) *)
Theorem Get_absent_keyspace_panics `{EventSerializer} (db : DB)
    (id aggregateType : string) (afterVersion : Z) :
  db !! aggregateKey aggregateType id = None →
  Store.Get db id aggregateType afterVersion = Panic.
Proof.
  intros Habsent. unfold Store.Get, Tx_Bucket, Begin. cbn [root].
  now rewrite Habsent.
Qed.

Lemma Get_absent_keyspace_panics_witness :
  Store.Get (serializer := LineCodec.serializer) Store.MustOpenBBolt "u1" "user" 0
  = Panic.
Proof.
  apply (Get_absent_keyspace_panics (H := LineCodec.serializer)
           Store.MustOpenBBolt "u1" "user" 0).
  vm_compute. reflexivity.
Defined.

(** ** Snapshots *)

(** C10 — [Snapshot.Get] hands back the state and the error of the store's
    [Get] and nothing else: the value the store loaded is assigned to the
    callee's own [a] and dropped with its frame, so the result is the same
    whatever argument the caller passed and whatever value was loaded. *)
Theorem Snapshot_Get_drops_value {S V : Type} (s : Snapshot.Snapshot (S := S) (V := V))
    (id : string) (a : V) (st : S) :
  Snapshot.Get s id a st
  = ((Snapshot.store_Get (snapshotStore := Snapshot.store s) id st).1,
     (Snapshot.store_Get (snapshotStore := Snapshot.store s) id st).2.2)
  ∧ (Snapshot.Get_assign s id a st).2
    = Snapshot.mkFrame
        (Snapshot.store_Get (snapshotStore := Snapshot.store s) id st).2.1
        (Snapshot.store_Get (snapshotStore := Snapshot.store s) id st).2.2
  ∧ ∀ a' : V, Snapshot.Get s id a' st = Snapshot.Get s id a st.
Proof.
  unfold Snapshot.Get, Snapshot.Get_assign.
  destruct (Snapshot.store_Get id st) as [st' [v e]]. cbn. auto.
Qed.

(** ** Writing a batch *)

Section Issue.

Lemma NextSequence_Ret name tx s tx' :
  NextSequence (Some name) tx = Ret (s, tx') →
  ∃ b, root tx !! name = Some b
       ∧ writable tx = true
       ∧ s = uint64 (sequence b + 1)
       ∧ tx' = mkTx true (<[name := mkBucket (entries b) s]> (root tx)).
Proof.
  unfold NextSequence. destruct (root tx !! name) as [b|]; [|discriminate].
  destruct (writable tx) eqn:W; cbn; [|discriminate].
  intros [= <- <-]. eauto.
Qed.

Lemma Put_Ret name key value tx tx' :
  Put (Some name) key value tx = Ret tx' →
  ∃ b, root tx !! name = Some b
       ∧ tx' = mkTx (writable tx)
                 (<[name := mkBucket (put key value (entries b)) (sequence b)]> (root tx)).
Proof.
  unfold Put. destruct (root tx !! name) as [b|]; [|discriminate].
  destruct (negb (writable tx)); [discriminate|].
  case_decide; [discriminate|].
  destruct (MaxKeySize <? _); [discriminate|].
  destruct (MaxValueSize <? _); [discriminate|].
  intros [= <-]. eauto.
Qed.

Lemma or_return_Ret {A} (m : outcome A) f a : or_return m f = Ret a → m = Ret a.
Proof. destruct m; cbn; congruence. Qed.

Lemma bind_Ret_inv {A B} (m : outcome A) (k : A → outcome B) b :
  m ≫= k = Ret b → ∃ a, m = Ret a ∧ k a = Ret b.
Proof. destruct m; cbn; [eauto | discriminate | discriminate]. Qed.

(** [NextSequence] then [Put] on one bucket. *)
Lemma issue_step name tx s tx1 value tx2 :
  NextSequence (Some name) tx = Ret (s, tx1) →
  Put (Some name) (itob (int s)) value tx1 = Ret tx2 →
  ∃ b, root tx !! name = Some b
       ∧ tx2 = mkTx true (<[name := issue b value]> (root tx)).
Proof.
  intros Hn Hp.
  apply NextSequence_Ret in Hn as (b & Hb & _ & -> & ->).
  apply Put_Ret in Hp as (b' & Hb' & ->). cbn [root writable] in *.
  rewrite lookup_insert_eq in Hb'. injection Hb' as <-.
  exists b. split; [exact Hb|]. cbn [entries sequence].
  now rewrite insert_insert_eq.
Qed.

End Issue.

Section Written.

Context {serializer : EventSerializer} {codec : JSONCodec}.

Lemma written_nil tx name : written tx tx name [] [].
Proof. split; auto. Qed.

Lemma written_cons tx name b g v gv tx' values globals :
  name ≠ globalEventOrderBucketName →
  root tx !! name = Some b →
  root tx !! globalEventOrderBucketName = Some g →
  written (mkTx true (<[globalEventOrderBucketName := issue g gv]>
                        (<[name := issue b v]> (root tx))))
          tx' name values globals →
  written tx tx' name (v :: values) (gv :: globals).
Proof.
  intros Hne Hb Hg [Ha Hgl Ho Hl]. cbn [root] in *. split.
  - intros b0 Hb0. rewrite Hb in Hb0. injection Hb0 as <-.
    apply Ha. rewrite lookup_insert_ne by congruence. apply lookup_insert_eq.
  - intros g0 Hg0. rewrite Hg in Hg0. injection Hg0 as <-.
    apply Hgl. apply lookup_insert_eq.
  - intros other H1 H2. rewrite Ho by assumption.
    rewrite !lookup_insert_ne by congruence. reflexivity.
  - cbn. now rewrite Hl.
Qed.

Lemma Store_Save_range_written name tx tx' events :
  name ≠ globalEventOrderBucketName →
  is_Some (root tx !! name) →
  is_Some (root tx !! globalEventOrderBucketName) →
  Store.Save_range (Some name) (Some globalEventOrderBucketName) name events tx
  = Ret tx' →
  ∃ values,
    Forall2 (fun e v => SerializeEvent e = Ret v) events values
    ∧ written tx tx' name values values.
Proof.
  intros Hne. revert tx.
  induction events as [|e events IH]; intros tx [b Hb] [g Hg] Hs.
  - cbn in Hs. injection Hs as <-. exists []. split; [constructor | apply written_nil].
  - cbn [Store.Save_range] in Hs.
    apply bind_Ret_inv in Hs as (tx5 & He & Hs).
    unfold Store.Save_event in He.
    apply bind_Ret_inv in He as ([s tx1] & H1 & He). apply or_return_Ret in H1.
    apply bind_Ret_inv in He as (v & Hv & He). apply or_return_Ret in Hv.
    apply bind_Ret_inv in He as (tx2 & H2 & He). apply or_return_Ret in H2.
    apply bind_Ret_inv in He as ([gs tx3] & H3 & He). apply or_return_Ret in H3.
    apply bind_Ret_inv in He as (tx4 & H4 & He). apply or_return_Ret in H4.
    injection He as <-.
    destruct (issue_step _ _ _ _ _ _ H1 H2) as (b' & Hb' & ->).
    rewrite Hb in Hb'. injection Hb' as <-.
    destruct (issue_step _ _ _ _ _ _ H3 H4) as (g' & Hg' & ->).
    cbn [root] in Hg'. rewrite lookup_insert_ne in Hg' by congruence.
    rewrite Hg in Hg'. injection Hg' as <-.
    cbn [root] in Hs.
    apply IH in Hs as (values & HF & Hw); cbn [root];
      [| rewrite lookup_insert_ne by congruence; rewrite lookup_insert_eq; eauto
       | rewrite lookup_insert_eq; eauto ].
    exists (v :: values). split; [constructor; assumption|].
    eapply written_cons; eauto.
Qed.

Lemma StoreJSON_Save_range_written name tx tx' events :
  name ≠ globalEventOrderBucketName →
  is_Some (root tx !! name) →
  is_Some (root tx !! globalEventOrderBucketName) →
  StoreJSON.Save_range (Some name) (Some globalEventOrderBucketName) name events tx
  = Ret tx' →
  ∃ values globals,
    length values = length events
    ∧ written tx tx' name values globals.
Proof.
  intros Hne. revert tx.
  induction events as [|e events IH]; intros tx [b Hb] [g Hg] Hs.
  - cbn in Hs. injection Hs as <-. exists [], []. split; [reflexivity | apply written_nil].
  - cbn [StoreJSON.Save_range] in Hs.
    apply bind_Ret_inv in Hs as (tx5 & He & Hs).
    unfold StoreJSON.Save_event in He.
    apply bind_Ret_inv in He as (obj & Hv & He). apply or_return_Ret in Hv.
    apply bind_Ret_inv in He as ([s tx1] & H1 & He). apply or_return_Ret in H1.
    apply bind_Ret_inv in He as (v & Hc & He).
    apply bind_Ret_inv in He as (tx2 & H2 & He). apply or_return_Ret in H2.
    apply bind_Ret_inv in He as ([gs tx3] & H3 & He). apply or_return_Ret in H3.
    cbn zeta in He.
    apply bind_Ret_inv in He as (tx4 & H4 & He). apply or_return_Ret in H4.
    injection He as <-.
    destruct (issue_step _ _ _ _ _ _ H1 H2) as (b' & Hb' & ->).
    rewrite Hb in Hb'. injection Hb' as <-.
    destruct (issue_step _ _ _ _ _ _ H3 H4) as (g' & Hg' & ->).
    cbn [root] in Hg'. rewrite lookup_insert_ne in Hg' by congruence.
    rewrite Hg in Hg'. injection Hg' as <-.
    cbn [root] in Hs.
    apply IH in Hs as (values & globals & HL & Hw); cbn [root];
      [| rewrite lookup_insert_ne by congruence; rewrite lookup_insert_eq; eauto
       | rewrite lookup_insert_eq; eauto ].
    eexists (v :: values), (_ :: globals). split; [cbn; now rewrite HL|].
    eapply written_cons; eauto.
Qed.

End Written.

(** ** Sequenced buckets *)

Section Sequenced.

Lemma sequence_run_S first n :
  sequence_run first (S n) = first :: sequence_run (first + 1) n.
Proof.
  unfold sequence_run. cbn [seq map]. f_equal; [lia|].
  rewrite <- seq_shift, map_map. apply map_ext. intros i. lia.
Qed.

Lemma sequence_run_length first n : length (sequence_run first n) = n.
Proof. unfold sequence_run. now rewrite length_map, length_seq. Qed.

Lemma put_last key value l :
  Forall (fun kv => bytes_compare key kv.1 = Gt) l →
  put key value l = l ++ [(key, value)].
Proof.
  induction 1 as [|[k v] l Hk _ IH]; [reflexivity|].
  cbn in Hk |- *. now rewrite Hk, IH.
Qed.

Lemma key_of_sequence s : 0 <= s < 2 ^ 64 → itob (int s) = PutUint64 s.
Proof. intros Hs. now rewrite itob_int, uint64_small. Qed.

Lemma issue_sequenced b v :
  bucket_sequenced b → sequence b + 1 < 2 ^ 64 →
  issue b v = mkBucket (entries b ++ [(itob (int (sequence b + 1)), v)])
                       (sequence b + 1)
  ∧ bucket_sequenced (issue b v).
Proof.
  intros [Hr Hk] Hlt. unfold issue. cbn zeta.
  rewrite uint64_small by lia.
  assert (put (itob (int (sequence b + 1))) v (entries b)
          = entries b ++ [(itob (int (sequence b + 1)), v)]) as ->.
  { apply put_last. eapply Forall_impl; [exact Hk|].
    intros [k x] (s & Hs & E). cbn [fst] in E |- *. subst k.
    rewrite key_of_sequence by lia. rewrite PutUint64_compare by lia.
    apply Z.compare_gt_iff. lia. }
  split; [reflexivity|]. split; cbn [sequence entries]; [lia|].
  apply Forall_app. split.
  - eapply Forall_impl; [exact Hk|].
    intros kv (s & Hs & E). exists s. split; [lia|exact E].
  - constructor; [|constructor]. exists (sequence b + 1). split; [lia|].
    cbn [fst]. apply key_of_sequence. lia.
Qed.

Lemma issue_all_sequenced values : ∀ b,
  bucket_sequenced b → sequence b + Z.of_nat (length values) < 2 ^ 64 →
  issue_all b values
  = mkBucket
      (entries b
       ++ zip (map (fun s => itob (int s))
                   (sequence_run (sequence b + 1) (length values))) values)
      (sequence b + Z.of_nat (length values))
  ∧ bucket_sequenced (issue_all b values).
Proof.
  induction values as [|v values IH]; intros b Hb Hlt.
  - cbn. rewrite app_nil_r, Z.add_0_r. destruct b. auto.
  - cbn [length] in Hlt |- *. rewrite Nat2Z.inj_succ in Hlt |- *.
    destruct (issue_sequenced b v Hb ltac:(lia)) as [E Hb'].
    unfold issue_all. cbn [fold_left]. fold (issue_all (issue b v) values).
    destruct (IH (issue b v) Hb') as [E' Hb''].
    { rewrite E. cbn [sequence]. lia. }
    split; [|exact Hb''].
    rewrite E'. rewrite E. cbn [entries sequence].
    rewrite sequence_run_S. cbn [map zip zip_with].
    rewrite <- app_assoc. cbn [app]. f_equal. lia.
Qed.

End Sequenced.

(** ** Committed batches *)

Section Committed.

Context {serializer : EventSerializer} {codec : JSONCodec}.

Lemma Tx_Bucket_Some name tx :
  is_Some (root tx !! name) → Tx_Bucket name tx = Some name.
Proof. intros [b Hb]. unfold Tx_Bucket. now rewrite Hb. Qed.

Lemma global_check_Ret tx :
  match Tx_Bucket globalEventOrderBucketName tx with
  | Some _ => Ret ()
  | None => Fail (errorString "global bucket not found")
  end = Ret () →
  is_Some (root tx !! globalEventOrderBucketName).
Proof.
  unfold Tx_Bucket. destruct (root tx !! _); [eauto | discriminate].
Qed.

(** A committed [Save], taken apart. *)
Lemma Store_Save_Ret (db db' : DB) (first : Event) (rest : list Event) :
  let events := first :: rest in
  let id := AggregateRootID first in
  let name := aggregateKey (AggregateType first) id in
  Store.Save db events = (db', Ret tt) →
  ∃ cv tx',
    Store.Save_currentVersion (entries_of db name) = Ret cv
    ∧ eventstore.ValidateEvents id cv events = Ret tt
    ∧ is_Some (opened_root db name !! globalEventOrderBucketName)
    ∧ Store.Save_range (Some name) (Some globalEventOrderBucketName) name events
        (mkTx true (opened_root db name)) = Ret tx'
    ∧ db' = root tx'.
Proof.
  cbn zeta. rewrite Store_Save_unfold. cbn zeta. intros Hs.
  match type of Hs with match ?m with _ => _ end = _ => destruct m as [tx'| |] eqn:Em end;
    [|discriminate|discriminate].
  injection Hs as <-.
  apply bind_Ret_inv in Em as (cv & Hcv & Em).
  apply bind_Ret_inv in Em as ([] & Hv & Em).
  apply bind_Ret_inv in Em as ([] & Hg & Em).
  apply global_check_Ret in Hg.
  rewrite (Tx_Bucket_Some _ _ Hg) in Em.
  exists cv, tx'. auto.
Qed.

Lemma StoreJSON_Save_Ret (db db' : DB) (first : Event) (rest : list Event) :
  let events := first :: rest in
  let id := AggregateRootID first in
  let name := bucketName (AggregateType first) id in
  StoreJSON.Save db events = (db', Ret tt) →
  ∃ cv tx',
    StoreJSON.Save_currentVersion (entries_of db name) = Ret cv
    ∧ validateEvents id cv events = Ret (true, None)
    ∧ is_Some (opened_root db name !! globalEventOrderBucketName)
    ∧ StoreJSON.Save_range (Some name) (Some globalEventOrderBucketName) name events
        (mkTx true (opened_root db name)) = Ret tx'
    ∧ db' = root tx'.
Proof.
  cbn zeta. rewrite StoreJSON_Save_unfold. cbn zeta. intros Hs.
  match type of Hs with match ?m with _ => _ end = _ => destruct m as [[tx'|]| |] eqn:Em end;
    [| |discriminate|discriminate].
  2:{ exfalso. apply bind_Ret_inv in Em as (cv & Hcv & Em).
      apply bind_Ret_inv in Em as ([ok err] & Hv & Em).
      destruct (validateEvents_cases (AggregateRootID first) cv first rest)
        as [Hc|[e Hc]]; rewrite Hc in Hv; injection Hv as <- <-; cbn in Em.
      - apply bind_Ret_inv in Em as ([] & _ & Em).
        apply bind_Ret_inv in Em as (? & _ & Em). discriminate.
      - discriminate. }
  injection Hs as <-.
  apply bind_Ret_inv in Em as (cv & Hcv & Em).
  apply bind_Ret_inv in Em as ([ok err] & Hv & Em).
  destruct (validateEvents_cases (AggregateRootID first) cv first rest)
    as [Hc|[e Hc]]; rewrite Hc in Hv; injection Hv as <- <-; cbn [negb] in Em;
    [|discriminate].
  apply bind_Ret_inv in Em as ([] & Hg & Em).
  apply bind_Ret_inv in Em as (tx'' & Hr & Em). injection Em as ->.
  apply global_check_Ret in Hg.
  rewrite (Tx_Bucket_Some _ _ Hg) in Hr.
  exists cv, tx'. auto.
Qed.

Lemma written_appended db name tx' values globals n :
  name ≠ globalEventOrderBucketName →
  store_sequenced db →
  is_Some (opened_root db name !! globalEventOrderBucketName) →
  written (mkTx true (opened_root db name)) tx' name values globals →
  length values = n →
  sequence_of db name + Z.of_nat n < 2 ^ 64 →
  sequence_of db globalEventOrderBucketName + Z.of_nat n < 2 ^ 64 →
  batch_appended db (root tx') name n.
Proof.
  intros Hne Hseq [g Hg] [Ha Hgl _ Hl] Hn Hlt1 Hlt2. cbn [root] in *.
  rewrite opened_root_lookup_ne in Hg by congruence.
  specialize (Ha _ (opened_root_lookup db name)).
  specialize (Hgl g). rewrite opened_root_lookup_ne in Hgl by congruence.
  specialize (Hgl Hg).
  assert (bucket_sequenced (mkBucket (entries_of db name) (sequence_of db name))) as Hb.
  { unfold entries_of, sequence_of. destruct (db !! name) as [[l q]|] eqn:E.
    - apply (Hseq _ _ E).
    - split; [cbn; lia | constructor]. }
  destruct (issue_all_sequenced values _ Hb) as [Ea _];
    [cbn [sequence]; lia|].
  destruct (issue_all_sequenced globals g (Hseq _ _ Hg)) as [Eg _].
  { unfold sequence_of in Hlt2. rewrite Hg in Hlt2. lia. }
  unfold batch_appended, sequence_of, entries_of.
  rewrite Ha, Hgl, Hg, Ea, Eg. cbn [sequence entries].
  rewrite Hl, Hn. split; [|split]; [unfold sequence_of; destruct (db !! name); reflexivity | reflexivity |].
  exists globals. split; [congruence | reflexivity].
Qed.

End Committed.

Section Opened.

Lemma MustOpenBBolt_lookup name b :
  Store.MustOpenBBolt !! name = Some b →
  name = globalEventOrderBucketName ∧ b = mkBucket [] 0.
Proof.
  unfold Store.MustOpenBBolt, CreateBucketIfNotExists, Begin, Commit.
  cbn [writable root negb]. case_decide; [discriminate|].
  rewrite lookup_empty. cbn [root].
  destruct (decide (name = globalEventOrderBucketName)) as [->|Hne].
  - rewrite lookup_insert_eq. intros [= <-]. auto.
  - rewrite lookup_insert_ne by congruence. rewrite lookup_empty. discriminate.
Qed.

Lemma MustOpenBBolt_sequenced : store_sequenced Store.MustOpenBBolt.
Proof.
  intros name b Hb. apply MustOpenBBolt_lookup in Hb as [_ ->].
  split; [cbn; lia | constructor].
Qed.

End Opened.

(** C8, as stated, fails: the aggregate ("global", "event_order") is named
    like the global log, both handles of [Save] are then the same bucket, and
    a batch of one event moves its counter by two. *)
Lemma Save_global_name_advances_twice :
  let e := mkEvent "event_order" 1 "Created" "global" "" [] in
  let db := Store.MustOpenBBolt in
  let db' := (Store.Save (serializer := LineCodec.serializer) db [e]).1 in
  (Store.Save (serializer := LineCodec.serializer) db [e]).2 = Ret tt
  ∧ sequence_of db globalEventOrderBucketName = 0
  ∧ sequence_of db' globalEventOrderBucketName = 2
  ∧ ¬ batch_appended db db'
        (aggregateKey (AggregateType e) (AggregateRootID e)) (length [e]).
Proof.
  cbn zeta. split; [vm_compute; reflexivity|].
  split; [vm_compute; reflexivity|]. split; [vm_compute; reflexivity|].
  intros [_ [H _]]. vm_compute in H. discriminate.
Qed.

(** C8, amended — a committed [Save] of [n] events for an aggregate whose
    keyspace is not named like the global log, on a store whose buckets hold
    the keys of the sequence numbers they issued and whose two counters stay
    below [2^64], advances the aggregate counter and the global counter by
    exactly [n], and appends to the end of the global log [n] entries under
    the next [n] global sequence numbers, in ascending order. *)
Theorem Save_appends_batch `{EventSerializer} `{JSONCodec}
    (db db0 db1 : DB) (first : Event) (rest : list Event) :
  let events := first :: rest in
  let n := length events in
  let name := aggregateKey (AggregateType first) (AggregateRootID first) in
  name ≠ globalEventOrderBucketName →
  store_sequenced db →
  sequence_of db name + Z.of_nat n < 2 ^ 64 →
  sequence_of db globalEventOrderBucketName + Z.of_nat n < 2 ^ 64 →
  (Store.Save db events = (db0, Ret tt) → batch_appended db db0 name n)
  ∧ (StoreJSON.Save db events = (db1, Ret tt) → batch_appended db db1 name n).
Proof.
  cbn zeta. intros Hne Hseq Hlt1 Hlt2. split; intros Hs.
  - apply Store_Save_Ret in Hs as (cv & tx' & _ & _ & Hg & Hr & ->).
    apply Store_Save_range_written in Hr as (values & HF & Hw);
      [| exact Hne | cbn [root]; rewrite opened_root_lookup; eauto | exact Hg].
    eapply written_appended; eauto.
    symmetry. apply (Forall2_length _ _ _ HF).
  - apply StoreJSON_Save_Ret in Hs as (cv & tx' & _ & _ & Hg & Hr & ->).
    apply StoreJSON_Save_range_written in Hr as (values & globals & HL & Hw);
      [| exact Hne | cbn [root]; rewrite opened_root_lookup; eauto | exact Hg].
    eapply written_appended; eauto.
Qed.

Lemma Save_appends_batch_witness :
  let e1 := mkEvent "u1" 1 "Created" "user" "" [] in
  let e2 := mkEvent "u1" 2 "Renamed" "user" "" [] in
  let db := Store.MustOpenBBolt in
  batch_appended db (Store.Save (serializer := LineCodec.serializer) db [e1; e2]).1
    (aggregateKey "user" "u1") 2
  ∧ batch_appended db (StoreJSON.Save (codec := LineCodec.json) db [e1; e2]).1
      (aggregateKey "user" "u1") 2.
Proof.
  intros e1 e2 db.
  destruct (Save_appends_batch (H := LineCodec.serializer) (H0 := LineCodec.json) db
              (Store.Save (serializer := LineCodec.serializer) db [e1; e2]).1
              (StoreJSON.Save (codec := LineCodec.json) db [e1; e2]).1 e1 [e2])
    as [H0 H1].
  - vm_compute. discriminate.
  - exact MustOpenBBolt_sequenced.
  - vm_compute. reflexivity.
  - vm_compute. reflexivity.
  - split; [apply H0 | apply H1]; vm_compute; reflexivity.
Defined.

(** ** Reading back a first batch *)

Section ReadBack.

Context {serializer : EventSerializer}.

Lemma bytes_compare_refl a : bytes_compare a a = Eq.
Proof. induction a as [|x a IH]; [reflexivity|]. cbn. now rewrite Z.compare_refl. Qed.

(** Accepted versions count up from the baseline. *)
Lemma ValidateEvents_range_versions id type events : ∀ cv,
  eventstore.ValidateEvents_range id type cv events = Ret tt →
  - 2 ^ 63 <= cv → cv + Z.of_nat (length events) < 2 ^ 63 →
  map Version events = sequence_run (cv + 1) (length events).
Proof.
  induction events as [|e events IH]; intros cv Hv Hlo Hhi; [reflexivity|].
  cbn [eventstore.ValidateEvents_range] in Hv.
  repeat (case_decide; [discriminate|]).
  cbn [length] in Hhi |- *. rewrite Nat2Z.inj_succ in Hhi.
  assert (Version e = cv + 1) as Ev.
  { destruct (decide (Version e = int_add cv 1)) as [->|]; [|contradiction].
    unfold int_add. apply int_small. lia. }
  rewrite sequence_run_S. cbn [map]. rewrite Ev. f_equal.
  rewrite Ev in Hv. apply IH; [exact Hv | lia | lia].
Qed.

(** The loop of [Get] over entries that decode. *)
Lemma Get_range_decodes (c : Cursor) (events : list Event) : ∀ acc,
  Forall2 (fun e kv => DeserializeEvent kv.2 = Ret e) events c →
  Store.Get_range c acc = Ret (acc ++ events).
Proof.
  revert events. induction c as [|[k obj] c IH]; intros events acc HF.
  - inversion HF; subst. cbn. now rewrite app_nil_r.
  - inversion HF as [|e ? evs ? Hd HF']; subst. cbn [snd] in Hd.
    cbn [Store.Get_range]. rewrite Hd. cbn [or_return]. rewrite bind_Ret.
    rewrite (IH evs _ HF'). now rewrite <- app_assoc.
Qed.

Lemma Forall2_zip_decodes (events : list Event) (values keys : list bytes) :
  length keys = length values →
  (∀ e v, e ∈ events → SerializeEvent e = Ret v → DeserializeEvent v = Ret e) →
  Forall2 (fun e v => SerializeEvent e = Ret v) events values →
  Forall2 (fun e kv => DeserializeEvent kv.2 = Ret e) events (zip keys values).
Proof.
  intros Hl Hrt HF. revert keys Hl.
  induction HF as [|e v events values Hs HF IH]; intros keys Hl.
  - destruct keys; constructor.
  - destruct keys as [|k keys]; [discriminate|]. cbn [zip zip_with].
    constructor.
    + cbn [snd]. apply Hrt; [left | exact Hs].
    + apply IH; [|cbn in Hl; lia].
      intros e' v' He'. apply Hrt. now right.
Qed.

End ReadBack.

(** C1, as stated, fails: on a store that has just been opened no event
    has been saved for the aggregate ("global", "event_order"), and a batch
    of one event with version 1 and a reason is saved for it; its keyspace is
    the global log itself, the event is written to it twice, and
    [Get(id, type, 0)] returns the event twice. *)
Lemma Save_fresh_global_name_then_Get_twice :
  let e := mkEvent "event_order" 1 "Created" "global" "d1" [] in
  let db := Store.MustOpenBBolt in
  let db' := (Store.Save (serializer := LineCodec.serializer) db [e]).1 in
  entries_of db (aggregateKey (AggregateType e) (AggregateRootID e)) = []
  ∧ map Version [e] = sequence_run 1 (length [e])
  ∧ Reason e ≠ ""
  ∧ DeserializeEvent (EventSerializer := LineCodec.serializer) (LineCodec.encode e)
    = Ret e
  ∧ (Store.Save (serializer := LineCodec.serializer) db [e]).2 = Ret tt
  ∧ Store.Get (serializer := LineCodec.serializer) db' (AggregateRootID e)
      (AggregateType e) 0 = Ret [e; e]
  ∧ Store.Get (serializer := LineCodec.serializer) db' (AggregateRootID e)
      (AggregateType e) 0 ≠ Ret [e].
Proof.
  cbn zeta. repeat (split; [vm_compute; first [reflexivity | discriminate]|]).
  vm_compute. discriminate.
Qed.

(** C1, amended — on an opened store (the global log is there), after a
    successful [Save] of a non-empty batch [B] for an aggregate whose
    keyspace does not exist yet (so that it is not the global log),
    [Get(id, type, 0)] returns exactly the events of [B] in their order, and
    their versions are [1 .. len(B)].  The serializer is assumed to read
    back what it wrote for the events of [B]; [len(B)] is a Go slice
    length. *)
Theorem Save_fresh_then_Get `{EventSerializer} (db db' : DB)
    (first : Event) (rest : list Event) :
  let B := first :: rest in
  let id := AggregateRootID first in
  let type := AggregateType first in
  is_Some (db !! globalEventOrderBucketName) →
  db !! aggregateKey type id = None →
  Z.of_nat (length B) < 2 ^ 63 →
  (∀ e v, e ∈ B → SerializeEvent e = Ret v → DeserializeEvent v = Ret e) →
  Store.Save db B = (db', Ret tt) →
  Store.Get db' id type 0 = Ret B
  ∧ map Version B = sequence_run 1 (length B).
Proof.
  cbn zeta. intros Hglobal Hfresh Hlen Hrt Hs.
  set (name := aggregateKey (AggregateType first) (AggregateRootID first)) in *.
  assert (name ≠ globalEventOrderBucketName) as Hne.
  { intros E. rewrite E in Hfresh. destruct Hglobal as [g Hg]. congruence. }
  apply Store_Save_Ret in Hs as (cv & tx' & Hcv & Hv & Hg & Hr & ->).
  fold name in Hcv, Hg, Hr.
  assert (entries_of db name = []) as En by (unfold entries_of; now rewrite Hfresh).
  assert (sequence_of db name = 0) as Sn by (unfold sequence_of; now rewrite Hfresh).
  rewrite En in Hcv. injection Hcv as <-.
  apply Store_Save_range_written in Hr as (values & HF & Hw);
    [| exact Hne | cbn [root]; rewrite opened_root_lookup; eauto | exact Hg].
  pose proof (written_aggregate _ _ _ _ _ Hw _ (opened_root_lookup db name)) as Ha.
  rewrite En, Sn in Ha.
  pose proof (Forall2_length _ _ _ HF) as HL.
  destruct (issue_all_sequenced values (mkBucket [] 0)) as [Ei _].
  { split; [cbn; lia | constructor]. }
  { cbn [sequence]. rewrite <- HL. lia. }
  rewrite Ei in Ha. cbn [entries sequence app] in Ha.
  split.
  - unfold Store.Get. fold name. unfold Tx_Bucket, Begin, Bucket_Cursor.
    cbn [root]. rewrite Ha. cbn [root]. rewrite Ha. cbn [entries]. rewrite bind_Ret.
    replace (int_add (int 0) 1) with (int 1) by reflexivity.
    rewrite <- HL. cbn [length]. rewrite sequence_run_S. cbn [map].
    destruct values as [|v values]; [inversion HF|].
    cbn [zip zip_with Seek]. rewrite bytes_compare_refl.
    change (?x :: ?l) with ([] ++ x :: l) at 2.
    apply Get_range_decodes.
    change ((itob (int (0 + 1)), v)
            :: zip_with pair (map (fun s => itob (int s))
                                (sequence_run (0 + 1 + 1) (length rest))) values)
      with (zip (itob (int (0 + 1))
                 :: map (fun s => itob (int s))
                      (sequence_run (0 + 1 + 1) (length rest))) (v :: values)).
    apply Forall2_zip_decodes; [|exact Hrt|exact HF].
    cbn [length]. rewrite length_map, sequence_run_length.
    cbn [length] in HL. lia.
  - unfold eventstore.ValidateEvents in Hv.
    apply ValidateEvents_range_versions in Hv; [exact Hv | lia | lia].
Qed.

Lemma Save_fresh_then_Get_witness :
  let e1 := mkEvent "u1" 1 "Created" "user" "d1" [] in
  let e2 := mkEvent "u1" 2 "Renamed" "user" "d2" [] in
  let db := Store.MustOpenBBolt in
  let db' := (Store.Save (serializer := LineCodec.serializer) db [e1; e2]).1 in
  Store.Get (serializer := LineCodec.serializer) db' "u1" "user" 0 = Ret [e1; e2]
  ∧ map Version [e1; e2] = sequence_run 1 2.
Proof.
  intros e1 e2 db db'.
  apply (Save_fresh_then_Get (H := LineCodec.serializer) db db' e1 [e2]).
  - vm_compute. eauto.
  - vm_compute. reflexivity.
  - vm_compute. reflexivity.
  - intros e v He Hs. injection Hs as <-.
    apply list_elem_of_In in He. destruct He as [<-|[<-|[]]]; vm_compute; reflexivity.
  - vm_compute. reflexivity.
Defined.

(** ** Paging through the global log *)

Section Paging.

Context {serializer : EventSerializer}.

Lemma Seek_split (seek : bytes) (c : Cursor) :
  ∃ skipped, c = skipped ++ Seek seek c
             ∧ Forall (fun kv => bytes_lt kv.1 seek) skipped.
Proof.
  induction c as [|[k v] c (skipped & E & HF)].
  - exists []. split; [reflexivity | constructor].
  - cbn [Seek]. destruct (bytes_compare k seek) eqn:Ek.
    + exists []. split; [reflexivity | constructor].
    + exists ((k, v) :: skipped). split; [cbn; now rewrite <- E|].
      constructor; [exact Ek | exact HF].
    + exists []. split; [reflexivity | constructor].
Qed.

Lemma keys_above (s0 u : Z) (v0 : bytes) (c : Cursor) :
  0 <= s0 < 2 ^ 64 → u <= s0 →
  Forall (key_lt (PutUint64 s0, v0)) c →
  Forall (fun kv => ∃ s, 0 <= s < 2 ^ 64 ∧ kv.1 = PutUint64 s) c →
  Forall (fun kv => ∃ s, 0 <= s < 2 ^ 64 ∧ kv.1 = PutUint64 s ∧ u <= s) c.
Proof.
  intros H0 Hu Hlt Hk. induction c as [|[k v] c IH]; [constructor|].
  apply Forall_cons in Hk as [(s & Hr & Ek) Hk]. cbn [fst] in Ek. subst k.
  apply Forall_cons in Hlt as [Hlt1 Hlt].
  constructor; [|now apply IH].
  exists s. split; [lia|]. split; [reflexivity|].
  unfold key_lt, bytes_lt in Hlt1. cbn [fst] in Hlt1.
  rewrite PutUint64_compare in Hlt1 by lia.
  rewrite Z.compare_lt_iff in Hlt1. lia.
Qed.

(** In an ordered bucket every entry from the sought position on has a
    sequence number not below the sought one. *)
Lemma Seek_not_below (u : Z) (c : Cursor) :
  0 <= u < 2 ^ 64 →
  StronglySorted key_lt c →
  Forall (fun kv => ∃ s, 0 <= s < 2 ^ 64 ∧ kv.1 = PutUint64 s) c →
  Forall (fun kv => ∃ s, 0 <= s < 2 ^ 64 ∧ kv.1 = PutUint64 s ∧ u <= s)
         (Seek (PutUint64 u) c).
Proof.
  intros Hu Hs Hk. induction c as [|[k v] c IH]; [constructor|].
  apply StronglySorted_inv in Hs as [Hs Hlt].
  apply Forall_cons in Hk as [(s & Hr & Ek) Hk]. cbn [fst] in Ek. subst k.
  cbn [Seek]. rewrite PutUint64_compare by lia.
  destruct (s ?= u) eqn:Ec; [| now apply IH |].
  - rewrite Z.compare_eq_iff in Ec.
    constructor; [exists s; split; [lia|]; split; [reflexivity|lia]|].
    apply (keys_above s u v); [lia | lia | exact Hlt | exact Hk].
  - rewrite Z.compare_gt_iff in Ec.
    constructor; [exists s; split; [lia|]; split; [reflexivity|lia]|].
    apply (keys_above s u v); [lia | lia | exact Hlt | exact Hk].
Qed.

(** The loop of [GlobalGet]. *)
Lemma GlobalGet_range_spec (count : Z) (c : Cursor) : ∀ acc counter,
  count < 2 ^ 63 →
  counter = Z.of_nat (length acc) →
  counter = 0 ∨ counter < count →
  match Store.GlobalGet_range count c acc counter with
  | Ret (Some events) =>
      ∃ new page rest,
        events = acc ++ new ∧ c = page ++ rest
        ∧ Forall2 (fun e kv => DeserializeEvent kv.2 = Ret e) new page
        ∧ (1 <= count → Z.of_nat (length events) <= count)
  | Ret None => True
  | Fail _ => False
  | Panic => ∃ kv, kv ∈ c ∧ DeserializeEvent kv.2 = Panic
  end.
Proof.
  induction c as [|[k obj] c IH]; intros acc counter Hc Hlen Hinv.
  - cbn. exists [], [], []. rewrite app_nil_r. repeat split; try constructor. lia.
  - cbn [Store.GlobalGet_range].
    destruct (DeserializeEvent obj) as [event|e|] eqn:Ed; [| exact I |].
    2:{ exists (k, obj). split; [left | exact Ed]. }
    cbn zeta.
    assert (int_add counter 1 = counter + 1) as ->
      by (unfold int_add; apply int_small; lia).
    destruct (counter + 1 >=? count) eqn:Eb.
    + exists [event], [(k, obj)], c.
      split; [reflexivity|]. split; [reflexivity|].
      split; [constructor; [exact Ed | constructor]|].
      intros H1. rewrite length_app. cbn [length]. lia.
    + rewrite Z.geb_leb, Z.leb_gt in Eb.
      specialize (IH (acc ++ [event]) (counter + 1) Hc).
      destruct (Store.GlobalGet_range count c (acc ++ [event]) (counter + 1))
        as [[events|]| |]; auto.
      * destruct IH as (new & page & rest & -> & -> & HF & Hb);
          [rewrite length_app; cbn [length]; lia | lia |].
        exists (event :: new), ((k, obj) :: page), rest.
        rewrite <- app_assoc.
        split; [reflexivity|]. split; [reflexivity|].
        split; [constructor; [exact Ed | exact HF]|].
        rewrite <- app_assoc in Hb. exact Hb.
      * apply IH; [rewrite length_app; cbn [length]; lia | lia].
      * destruct IH as (kv & Hin & Hp);
          [rewrite length_app; cbn [length]; lia | lia |].
        exists kv. split; [now right | exact Hp].
Qed.

End Paging.

Section Page.

Context {serializer : EventSerializer}.

Lemma uint64_not_below v : - 2 ^ 63 <= v < 2 ^ 63 → v <= uint64 v.
Proof.
  intros Hv. unfold uint64. destruct (Z.neg_nonneg_cases v) as [Hn|Hp].
  - pose proof (Z.mod_pos_bound v (2 ^ 64)). lia.
  - rewrite Z.mod_small; lia.
Qed.

Lemma GlobalGet_page_of (db : DB) (g : Bucket) (start count : Z) :
  db !! globalEventOrderBucketName = Some g →
  bucket_ordered g →
  - 2 ^ 63 <= start < 2 ^ 63 →
  count < 2 ^ 63 →
  match Store.GlobalGet db start count with
  | Ret r =>
      (1 <= count → Z.of_nat (length (events_of r)) <= count)
      ∧ page_of g start (events_of r)
  | Fail _ => False
  | Panic => ∃ kv, kv ∈ entries g ∧ DeserializeEvent kv.2 = Panic
  end.
Proof.
  intros Hg [Hsorted Hkeys] Hstart Hcount.
  unfold Store.GlobalGet, Tx_Bucket, Begin, Bucket_Cursor. cbn [root].
  rewrite Hg. cbn [root]. rewrite Hg. rewrite bind_Ret.
  destruct (Seek_split (itob start) (entries g)) as (skipped & Esplit & Hskipped).
  pose proof (Seek_not_below (uint64 start) (entries g) (uint64_range start)
                Hsorted Hkeys) as Hpage.
  fold (itob start) in Hpage.
  assert (Forall (fun kv => ∃ s, 0 <= s < 2 ^ 64 ∧ kv.1 = itob (int s) ∧ start <= s)
                 (Seek (itob start) (entries g))) as Hpage'.
  { eapply Forall_impl; [exact Hpage|]. intros kv (s & Hs & Ek & Hle).
    exists s. split; [exact Hs|]. split.
    - rewrite Ek. symmetry. now apply key_of_sequence.
    - pose proof (uint64_not_below start Hstart). lia. }
  pose proof (GlobalGet_range_spec count (Seek (itob start) (entries g)) [] 0
                Hcount eq_refl (or_introl eq_refl)) as Hloop.
  destruct (Store.GlobalGet_range count (Seek (itob start) (entries g)) [] 0)
    as [[events|]| |].
  - destruct Hloop as (new & page & rest & -> & Epage & HF & Hb).
    cbn [events_of default app] in *. split; [exact Hb|].
    exists skipped, page, rest. rewrite <- Epage.
    split; [exact Esplit|]. split; [exact Hskipped|]. split; [exact HF|].
    rewrite Epage in Hpage'. now apply Forall_app in Hpage' as [? _].
  - cbn [events_of default length]. split; [lia|].
    exists skipped, [], (Seek (itob start) (entries g)). cbn [app].
    split; [exact Esplit|]. split; [exact Hskipped|]. split; constructor.
  - exact Hloop.
  - destruct Hloop as (kv & Hin & Hp). exists kv. split; [|exact Hp].
    rewrite Esplit. apply elem_of_app. now right.
Qed.

End Page.

(** C4, as stated, fails at [count = 0]: the loop of [GlobalGet] appends
    before it compares the counter, so a log with an entry at or after
    [start] yields one event. *)
Lemma GlobalGet_count_zero_returns_one :
  let e1 := mkEvent "u1" 1 "Created" "user" "d1" [] in
  let db := (Store.Save (serializer := LineCodec.serializer) Store.MustOpenBBolt [e1]).1 in
  Store.GlobalGet (serializer := LineCodec.serializer) db 1 0 = Ret (Some [e1])
  ∧ ¬ (Z.of_nat (length [e1]) <= 0).
Proof. cbn zeta. split; [vm_compute; reflexivity | cbn; lia]. Qed.

(** C4, amended — on a store whose global log holds 8-byte keys in
    ascending order, for every [start] and [count], [GlobalGet] does not
    fail, it panics only when the serializer does, and otherwise: if [count]
    is at least one it returns at most [count] events, and the events it
    returns are the decoded values of consecutive entries of the global log,
    each stored under a global sequence number not below [start]. *)
Theorem GlobalGet_bounded_page `{EventSerializer} (db : DB) (g : Bucket)
    (start count : Z) :
  db !! globalEventOrderBucketName = Some g →
  bucket_ordered g →
  - 2 ^ 63 <= start < 2 ^ 63 →
  - 2 ^ 63 <= count < 2 ^ 63 →
  match Store.GlobalGet db start count with
  | Ret r =>
      (1 <= count → Z.of_nat (length (events_of r)) <= count)
      ∧ page_of g start (events_of r)
  | Fail _ => False
  | Panic => ∃ kv, kv ∈ entries g ∧ DeserializeEvent kv.2 = Panic
  end.
Proof.
  intros Hg Ho Hstart Hcount.
  apply GlobalGet_page_of; [exact Hg | exact Ho | exact Hstart | lia].
Qed.

Lemma GlobalGet_bounded_page_witness :
  let e1 := mkEvent "u1" 1 "Created" "user" "d1" [] in
  let e2 := mkEvent "u1" 2 "Renamed" "user" "d2" [] in
  let db := (Store.Save (serializer := LineCodec.serializer)
               Store.MustOpenBBolt [e1; e2]).1 in
  let g := mkBucket [(itob 1, LineCodec.encode e1); (itob 2, LineCodec.encode e2)] 2 in
  match Store.GlobalGet (serializer := LineCodec.serializer) db 2 1 with
  | Ret r =>
      (1 <= 1 → Z.of_nat (length (events_of r)) <= 1)
      ∧ page_of (H := LineCodec.serializer) g 2 (events_of r)
  | Fail _ => False
  | Panic => ∃ kv, kv ∈ entries g
                   ∧ DeserializeEvent (EventSerializer := LineCodec.serializer) kv.2
                     = Panic
  end.
Proof.
  intros e1 e2 db g.
  apply (GlobalGet_bounded_page (H := LineCodec.serializer) db g 2 1).
  - vm_compute. reflexivity.
  - split.
    + cbn [entries]. repeat constructor.
    + cbn [entries]. repeat constructor.
      * exists 1. split; [lia | reflexivity].
      * exists 2. split; [lia | reflexivity].
  - lia.
  - lia.
Defined.

(** ** The stores that are reached

    Every store built by [MustOpenBBolt] and [Save] keeps its global log and
    keeps every bucket ordered, whatever the batches were. *)

Section Ordered.

Context {serializer : EventSerializer}.

Lemma put_Forall (P : bytes * bytes → Prop) key value l :
  P (key, value) → Forall P l → Forall P (put key value l).
Proof.
  intros Hk HF. induction HF as [|[k v] l Hkv HF IH]; [repeat constructor; exact Hk|].
  cbn [put]. destruct (bytes_compare key k); repeat constructor; auto.
Qed.

Lemma put_ordered u value l :
  0 <= u < 2 ^ 64 →
  StronglySorted key_lt l →
  Forall (fun kv => ∃ s, 0 <= s < 2 ^ 64 ∧ kv.1 = PutUint64 s) l →
  StronglySorted key_lt (put (PutUint64 u) value l).
Proof.
  intros Hu Hs Hk. induction l as [|[k v] l IH]; [repeat constructor|].
  apply StronglySorted_inv in Hs as [Hs Hlt].
  apply Forall_cons in Hk as [(s & Hr & Ek) Hk]. cbn [fst] in Ek. subst k.
  cbn [put]. rewrite PutUint64_compare by lia.
  destruct (u ?= s) eqn:Ec.
  - rewrite Z.compare_eq_iff in Ec. subst s. constructor; [exact Hs|].
    eapply Forall_impl; [exact Hlt|]. intros kv H. exact H.
  - rewrite Z.compare_lt_iff in Ec. constructor; [constructor; assumption|].
    assert (key_lt (PutUint64 u, value) (PutUint64 s, v)) as H0.
    { unfold key_lt, bytes_lt. cbn [fst]. rewrite PutUint64_compare by lia.
      now apply Z.compare_lt_iff. }
    constructor; [exact H0|].
    pose proof (keys_above s (u + 1) v l Hr ltac:(lia) Hlt Hk) as Hab.
    eapply Forall_impl; [exact Hab|]. intros kv (s' & Hr' & Ek' & Hle).
    unfold key_lt, bytes_lt. cbn [fst]. rewrite Ek'.
    rewrite PutUint64_compare by lia. apply Z.compare_lt_iff. lia.
  - rewrite Z.compare_gt_iff in Ec. constructor; [now apply IH|].
    apply put_Forall; [|exact Hlt].
    unfold key_lt, bytes_lt. cbn [fst]. rewrite PutUint64_compare by lia.
    apply Z.compare_lt_iff. lia.
Qed.

Lemma issue_ordered b value : bucket_ordered b → bucket_ordered (issue b value).
Proof.
  intros [Hs Hk]. unfold issue. cbn zeta. rewrite itob_int.
  pose proof (uint64_range (uint64 (sequence b + 1))) as Hu.
  split; cbn [entries].
  - now apply put_ordered.
  - apply put_Forall; [|exact Hk]. eauto.
Qed.

Lemma store_ordered_insert db name b :
  store_ordered db → bucket_ordered b → store_ordered (<[name := b]> db).
Proof.
  intros [Hg Ho] Hb. split.
  - destruct (decide (name = globalEventOrderBucketName)) as [->|Hne].
    + rewrite lookup_insert_eq. eauto.
    + now rewrite lookup_insert_ne.
  - intros name' b'. destruct (decide (name = name')) as [->|Hne].
    + rewrite lookup_insert_eq. now intros [= <-].
    + rewrite lookup_insert_ne by exact Hne. apply Ho.
Qed.

Lemma opened_root_ordered db name :
  store_ordered db → store_ordered (opened_root db name).
Proof.
  intros Ho. unfold opened_root. destruct (db !! name); [exact Ho|].
  apply store_ordered_insert; [exact Ho|]. split; constructor.
Qed.

Lemma Store_Save_range_ordered ev g name events : ∀ tx tx',
  store_ordered (root tx) →
  Store.Save_range (Some ev) (Some g) name events tx = Ret tx' →
  store_ordered (root tx').
Proof.
  induction events as [|e events IH]; intros tx tx' Ho Hs.
  - cbn in Hs. now injection Hs as <-.
  - cbn [Store.Save_range] in Hs.
    apply bind_Ret_inv in Hs as (tx5 & He & Hs).
    unfold Store.Save_event in He.
    apply bind_Ret_inv in He as ([s tx1] & H1 & He). apply or_return_Ret in H1.
    apply bind_Ret_inv in He as (v & Hv & He). apply or_return_Ret in Hv.
    apply bind_Ret_inv in He as (tx2 & H2 & He). apply or_return_Ret in H2.
    apply bind_Ret_inv in He as ([gs tx3] & H3 & He). apply or_return_Ret in H3.
    apply bind_Ret_inv in He as (tx4 & H4 & He). apply or_return_Ret in H4.
    injection He as <-.
    destruct (issue_step _ _ _ _ _ _ H1 H2) as (b & Hb & ->).
    destruct (issue_step _ _ _ _ _ _ H3 H4) as (g' & Hg' & ->).
    cbn [root] in *.
    apply (IH _ _) in Hs; [exact Hs|]. cbn [root].
    assert (store_ordered (<[ev := issue b v]> (root tx))) as Ho1.
    { apply store_ordered_insert; [exact Ho|].
      apply issue_ordered. destruct Ho as [_ Ho]. apply (Ho _ _ Hb). }
    apply store_ordered_insert; [exact Ho1|].
    apply issue_ordered. destruct Ho1 as [_ Ho1]. apply (Ho1 _ _ Hg').
Qed.

Lemma MustOpenBBolt_ordered : store_ordered Store.MustOpenBBolt.
Proof.
  split.
  - vm_compute. eauto.
  - intros name b Hb. apply MustOpenBBolt_lookup in Hb as [_ ->].
    split; constructor.
Qed.

(** [Save] leaves the database as it was unless it commits. *)
Lemma Store_Save_rollback db events db' r :
  Store.Save db events = (db', r) → r ≠ Ret tt → db' = db.
Proof.
  unfold Store.Save. destruct events as [|first rest]; [congruence|].
  cbn zeta. destruct (Store.Save_tx _ _ _); intros [= <- <-]; congruence.
Qed.

Lemma Store_Save_ordered db events :
  store_ordered db → store_ordered (Store.Save db events).1.
Proof.
  intros Ho. destruct (Store.Save db events) as [db' r] eqn:Es. cbn [fst].
  destruct r as [[]| |];
    [| now rewrite (Store_Save_rollback _ _ _ _ Es)
     | now rewrite (Store_Save_rollback _ _ _ _ Es)].
  destruct events as [|first rest]; [now injection Es as <-|].
  apply Store_Save_Ret in Es as (cv & tx' & _ & _ & _ & Hr & ->).
  apply Store_Save_range_ordered in Hr; [exact Hr|].
  cbn [root]. now apply opened_root_ordered.
Qed.

(** X1 — every store reached from a new file by calls of [Save], whatever
    the batches were and whether the calls committed, failed or panicked,
    has its global order bucket, and every bucket of it holds 8-byte keys in
    strictly ascending order. *)
Lemma reachable_ordered db : reachable db → store_ordered db.
Proof.
  induction 1 as [|db events _ IH];
    [exact MustOpenBBolt_ordered | now apply Store_Save_ordered].
Qed.

End Ordered.

Lemma reachable_ordered_witness :
  let e1 := mkEvent "event_order" 1 "Created" "global" "d1" [] in
  store_ordered (Store.Save (serializer := LineCodec.serializer) Store.MustOpenBBolt [e1]).1.
Proof.
  intros e1.
  apply (reachable_ordered (serializer := LineCodec.serializer)).
  apply reachable_Save. apply reachable_open.
Defined.

(** ** Sequenced stores stay sequenced *)

Section StaySequenced.

Context {serializer : EventSerializer} {codec : JSONCodec}.

Lemma written_sequenced db name tx' values globals :
  name ≠ globalEventOrderBucketName →
  store_sequenced db →
  is_Some (opened_root db name !! globalEventOrderBucketName) →
  written (mkTx true (opened_root db name)) tx' name values globals →
  sequence_of db name + Z.of_nat (length values) < 2 ^ 64 →
  sequence_of db globalEventOrderBucketName + Z.of_nat (length values) < 2 ^ 64 →
  store_sequenced (root tx').
Proof.
  intros Hne Hseq [g Hg] [Ha Hgl Ho Hl] Hlt1 Hlt2. cbn [root] in *.
  rewrite opened_root_lookup_ne in Hg by congruence.
  specialize (Ha _ (opened_root_lookup db name)).
  specialize (Hgl g). rewrite opened_root_lookup_ne in Hgl by congruence.
  specialize (Hgl Hg).
  assert (bucket_sequenced (mkBucket (entries_of db name) (sequence_of db name))) as Hb.
  { unfold entries_of, sequence_of. destruct (db !! name) as [[l q]|] eqn:E.
    - apply (Hseq _ _ E).
    - split; [cbn; lia | constructor]. }
  destruct (issue_all_sequenced values _ Hb) as [_ Sa]; [cbn [sequence]; lia|].
  destruct (issue_all_sequenced globals g (Hseq _ _ Hg)) as [_ Sg].
  { unfold sequence_of in Hlt2. rewrite Hg in Hlt2. lia. }
  intros other b Hb'.
  destruct (decide (other = name)) as [->|H1]; [congruence|].
  destruct (decide (other = globalEventOrderBucketName)) as [->|H2]; [congruence|].
  rewrite Ho in Hb' by assumption.
  rewrite opened_root_lookup_ne in Hb' by assumption. apply (Hseq _ _ Hb').
Qed.

(** X2 — a committed [Save] keeps the store sequenced: when every bucket
    holds only keys of sequence numbers its counter has issued, the aggregate
    is not named like the global log and the two counters stay below
    [2^64], every bucket of the store the call leaves does so again (both
    revisions). *)
Lemma Save_stays_sequenced (db db0 db1 : DB) (first : Event) (rest : list Event) :
  let events := first :: rest in
  let n := length events in
  let name := aggregateKey (AggregateType first) (AggregateRootID first) in
  name ≠ globalEventOrderBucketName →
  store_sequenced db →
  sequence_of db name + Z.of_nat n < 2 ^ 64 →
  sequence_of db globalEventOrderBucketName + Z.of_nat n < 2 ^ 64 →
  (Store.Save db events = (db0, Ret tt) → store_sequenced db0)
  ∧ (StoreJSON.Save db events = (db1, Ret tt) → store_sequenced db1).
Proof.
  cbn zeta. intros Hne Hseq Hlt1 Hlt2. split; intros Hs.
  - apply Store_Save_Ret in Hs as (cv & tx' & _ & _ & Hg & Hr & ->).
    apply Store_Save_range_written in Hr as (values & HF & Hw);
      [| exact Hne | cbn [root]; rewrite opened_root_lookup; eauto | exact Hg].
    pose proof (Forall2_length _ _ _ HF) as HL. cbn [length] in HL.
    eapply written_sequenced; eauto; rewrite <- HL; assumption.
  - apply StoreJSON_Save_Ret in Hs as (cv & tx' & _ & _ & Hg & Hr & ->).
    apply StoreJSON_Save_range_written in Hr as (values & globals & HL & Hw);
      [| exact Hne | cbn [root]; rewrite opened_root_lookup; eauto | exact Hg].
    cbn [length] in HL.
    eapply written_sequenced; eauto; rewrite HL; assumption.
Qed.

End StaySequenced.

Lemma Save_stays_sequenced_witness :
  let e1 := mkEvent "u1" 1 "Created" "user" "" [] in
  let e2 := mkEvent "u1" 2 "Renamed" "user" "" [] in
  let db := Store.MustOpenBBolt in
  store_sequenced (Store.Save (serializer := LineCodec.serializer) db [e1; e2]).1
  ∧ store_sequenced (StoreJSON.Save (codec := LineCodec.json) db [e1; e2]).1.
Proof.
  intros e1 e2 db.
  destruct (Save_stays_sequenced (serializer := LineCodec.serializer)
              (codec := LineCodec.json) db
              (Store.Save (serializer := LineCodec.serializer) db [e1; e2]).1
              (StoreJSON.Save (codec := LineCodec.json) db [e1; e2]).1 e1 [e2])
    as [H0 H1].
  - vm_compute. discriminate.
  - exact MustOpenBBolt_sequenced.
  - vm_compute. reflexivity.
  - vm_compute. reflexivity.
  - split; [apply H0 | apply H1]; vm_compute; reflexivity.
Defined.

(** ** Keys of negative and of distinct integers *)

Section KeyOrder.

Lemma int_range_uint64_inj a b :
  - 2 ^ 63 <= a < 2 ^ 63 → - 2 ^ 63 <= b < 2 ^ 63 →
  uint64 a = uint64 b → a = b.
Proof.
  intros Ha Hb E. unfold uint64 in E.
  destruct (Z.neg_nonneg_cases a) as [Na|Pa], (Z.neg_nonneg_cases b) as [Nb|Pb].
  - rewrite <- (Z.mod_add a 1), <- (Z.mod_add b 1) in E by lia.
    rewrite !Z.mod_small in E by lia. lia.
  - rewrite <- (Z.mod_add a 1) in E by lia.
    rewrite !Z.mod_small in E by lia. lia.
  - rewrite <- (Z.mod_add b 1) in E by lia.
    rewrite !Z.mod_small in E by lia. lia.
  - rewrite !Z.mod_small in E by lia. lia.
Qed.

Lemma uint64_negative a : - 2 ^ 63 <= a < 0 → uint64 a = a + 2 ^ 64.
Proof.
  intros Ha. unfold uint64. rewrite <- (Z.mod_add a 1) by lia.
  rewrite Z.mod_small; lia.
Qed.

End KeyOrder.

(** X3 — [itob] gives distinct keys to distinct [int] values: no two
    sequence numbers share a key. *)
Theorem itob_injective (a b : Z) :
  - 2 ^ 63 <= a < 2 ^ 63 → - 2 ^ 63 <= b < 2 ^ 63 →
  a ≠ b → itob a ≠ itob b.
Proof.
  intros Ha Hb Hne E. apply Hne. apply int_range_uint64_inj; [exact Ha | exact Hb |].
  pose proof (uint64_range a) as Ra. pose proof (uint64_range b) as Rb.
  pose proof (PutUint64_compare (uint64 a) (uint64 b) Ra Rb) as Hc.
  unfold itob in E. rewrite E, bytes_compare_refl in Hc.
  symmetry in Hc. now apply Z.compare_eq_iff in Hc.
Qed.

Lemma itob_injective_witness : itob (-1) ≠ itob 1.
Proof. apply (itob_injective (-1) 1); lia. Defined.

(** X4 — the key order follows the unsigned reading of the integer: the key
    of a negative [int] sorts after the key of every non-negative one. *)
Theorem itob_negative_sorts_last (a b : Z) :
  - 2 ^ 63 <= a < 0 → 0 <= b < 2 ^ 63 →
  bytes_lt (itob b) (itob a).
Proof.
  intros Ha Hb. unfold bytes_lt, itob.
  rewrite PutUint64_compare by apply uint64_range.
  rewrite (uint64_negative a Ha), uint64_small by lia.
  apply Z.compare_lt_iff. lia.
Qed.

Lemma itob_negative_sorts_last_witness : bytes_lt (itob 5) (itob (-1)).
Proof. apply (itob_negative_sorts_last (-1) 5); lia. Defined.

(** ** Names that share a component *)

Section Components.

Lemma append_same_length (t1 t2 s1 s2 : string) :
  String.length t1 = String.length t2 →
  (t1 ++ s1 = t2 ++ s2)%string → t1 = t2 ∧ s1 = s2.
Proof.
  revert t2. induction t1 as [|c t1 IH]; intros [|d t2] Hl E; cbn in Hl;
    try discriminate.
  - auto.
  - change (String c t1 ++ s1 = String d t2 ++ s2)%string
      with (String c (t1 ++ s1) = String d (t2 ++ s2))%string in E.
    injection E as -> E.
    destruct (IH t2 ltac:(lia) E) as [-> ->]. auto.
Qed.

Lemma string_length_append (s t : string) :
  String.length (s ++ t) = (String.length s + String.length t)%nat.
Proof.
  induction s as [|c s IH]; [reflexivity|].
  change (String c s ++ t)%string with (String c (s ++ t)%string).
  cbn [String.length Nat.add]. now rewrite IH.
Qed.

End Components.

Lemma aggregateKey_componentwise (t1 t2 i1 i2 : string) :
  t1 = t2 ∨ i1 = i2 →
  (t1 ++ "_" ++ i1 = t2 ++ "_" ++ i2)%string →
  t1 = t2 ∧ i1 = i2.
Proof.
  intros [->| ->] E.
  - split; [reflexivity|].
    apply (append_same_length t2 t2 _ _ eq_refl) in E as [_ E].
    now injection E.
  - split; [|reflexivity].
    assert (String.length t1 = String.length t2) as Hl.
    { apply (f_equal String.length) in E. rewrite !string_length_append in E. lia. }
    now apply (append_same_length t1 t2 _ _ Hl) in E as [E _].
Qed.

(** X5 — a collision of keyspace names needs both components to differ:
    two distinct pairs that share the aggregate type, or share the id, get
    distinct names (whatever underscores they hold). *)
Theorem aggregateKey_injective_componentwise (t1 i1 t2 i2 : string) :
  t1 = t2 ∨ i1 = i2 →
  (t1, i1) ≠ (t2, i2) →
  aggregateKey t1 i1 ≠ aggregateKey t2 i2 ∧ bucketName t1 i1 ≠ bucketName t2 i2.
Proof.
  intros Hc Hne.
  split; intros E; apply Hne; unfold aggregateKey, bucketName in E;
    destruct (aggregateKey_componentwise _ _ _ _ Hc E) as [-> ->]; reflexivity.
Qed.

Lemma aggregateKey_injective_componentwise_witness :
  aggregateKey "user_account" "a_1" ≠ aggregateKey "user_account" "a_2"
  ∧ bucketName "user_account" "a_1" ≠ bucketName "user_account" "a_2".
Proof.
  apply (aggregateKey_injective_componentwise "user_account" "a_1" "user_account" "a_2");
    [left; reflexivity | discriminate].
Defined.

(** ** Accepted batches *)

Lemma Ret_inj {A} (a b : A) : Ret a = Ret b → a = b.
Proof. now intros [=]. Qed.

Section Accepted.

Variables aggregateID aggregateType : string.

Lemma validateEvents_range_accepted events : ∀ cv,
  validateEvents_range aggregateID aggregateType cv events = (true, None) →
  - 2 ^ 63 <= cv → cv + Z.of_nat (length events) < 2 ^ 63 →
  Forall (fun e => AggregateRootID e = aggregateID
                   ∧ AggregateType e = aggregateType
                   ∧ Reason e ≠ "") events
  ∧ map Version events = sequence_run (cv + 1) (length events).
Proof.
  induction events as [|e events IH]; intros cv Hv Hlo Hhi.
  - split; [constructor | reflexivity].
  - cbn [validateEvents_range] in Hv.
    repeat (case_decide; [discriminate|]).
    cbn [length] in Hhi |- *. rewrite Nat2Z.inj_succ in Hhi.
    assert (Version e = cv + 1) as Ev.
    { destruct (decide (int_add cv 1 = Version e)) as [<-|]; [|contradiction].
      unfold int_add. apply int_small. lia. }
    rewrite Ev in Hv. destruct (IH (cv + 1) Hv) as [HF Hrun]; [lia | lia |].
    split.
    + constructor; [|exact HF].
      split; [|split]; [| | assumption];
        match goal with
        | |- ?x = ?y => destruct (decide (x = y)); [assumption | contradiction]
        end.
    + rewrite sequence_run_S. cbn [map]. now rewrite Ev, Hrun.
Qed.

Lemma validateEvents_range_app l1 l2 : ∀ cv,
  validateEvents_range aggregateID aggregateType cv (l1 ++ l2) = (true, None)
  ↔ validateEvents_range aggregateID aggregateType cv l1 = (true, None)
    ∧ validateEvents_range aggregateID aggregateType (advanced cv l1) l2 = (true, None).
Proof.
  induction l1 as [|e l1 IH]; intros cv.
  - cbn. unfold advanced. cbn. tauto.
  - rewrite advanced_cons. cbn [app validateEvents_range].
    repeat (case_decide; [split; [discriminate | intros [? _]; discriminate]|]).
    apply IH.
Qed.

End Accepted.

(** X6 — a batch the validator accepts is homogeneous and gapless: every
    event carries the aggregate id it was checked against, the aggregate type
    of the first event and a reason, and the versions are
    [currentVersion + 1, currentVersion + 2, ...] ([int] values that do not
    overflow). *)
Theorem validateEvents_accepted_batch (aggregateID : string) (currentVersion : Z)
    (events : list Event) :
  validateEvents aggregateID currentVersion events = Ret (true, None) →
  - 2 ^ 63 <= currentVersion →
  currentVersion + Z.of_nat (length events) < 2 ^ 63 →
  Forall (fun e => AggregateRootID e = aggregateID
                   ∧ AggregateType e = batch_type events
                   ∧ Reason e ≠ "") events
  ∧ map Version events = sequence_run (currentVersion + 1) (length events).
Proof.
  intros Hv Hlo Hhi. destruct events as [|first rest]; [discriminate|].
  unfold validateEvents in Hv. apply Ret_inj in Hv.
  now apply validateEvents_range_accepted.
Qed.

Lemma validateEvents_accepted_batch_witness :
  let e1 := mkEvent "u1" 4 "Renamed" "user" "" [] in
  let e2 := mkEvent "u1" 5 "Closed" "user" "" [] in
  Forall (fun e => AggregateRootID e = "u1"
                   ∧ AggregateType e = batch_type [e1; e2]
                   ∧ Reason e ≠ "") [e1; e2]
  ∧ map Version [e1; e2] = sequence_run (3 + 1) (length [e1; e2]).
Proof.
  intros e1 e2.
  apply (validateEvents_accepted_batch "u1" 3 [e1; e2]);
    [vm_compute; reflexivity | lia | cbn; lia].
Defined.

(** X7 — validation composes over concatenation: a batch [B1 ++ B2] of one
    aggregate type is accepted exactly when [B1] is accepted and [B2] is
    accepted against the version [B1] ends at. *)
Theorem validateEvents_app (aggregateID : string) (currentVersion : Z)
    (first : Event) (rest : list Event) (second : Event) (rest2 : list Event) :
  let B1 := first :: rest in
  let B2 := second :: rest2 in
  AggregateType second = AggregateType first →
  validateEvents aggregateID currentVersion (B1 ++ B2) = Ret (true, None)
  ↔ validateEvents aggregateID currentVersion B1 = Ret (true, None)
    ∧ validateEvents aggregateID (advanced currentVersion B1) B2 = Ret (true, None).
Proof.
  cbn zeta. intros Ht. unfold validateEvents. cbn [app]. rewrite Ht.
  change (first :: rest ++ second :: rest2) with ((first :: rest) ++ second :: rest2).
  split.
  - intros Hv. apply Ret_inj, validateEvents_range_app in Hv as [H1 H2].
    now rewrite H1, H2.
  - intros [H1 H2]. apply Ret_inj in H1, H2. f_equal.
    apply validateEvents_range_app. auto.
Qed.

Lemma validateEvents_app_witness :
  let e1 := mkEvent "u1" 1 "Created" "user" "" [] in
  let e2 := mkEvent "u1" 2 "Renamed" "user" "" [] in
  let e3 := mkEvent "u1" 3 "Closed" "user" "" [] in
  validateEvents "u1" 0 ([e1; e2] ++ [e3]) = Ret (true, None)
  ↔ validateEvents "u1" 0 [e1; e2] = Ret (true, None)
    ∧ validateEvents "u1" (advanced 0 [e1; e2]) [e3] = Ret (true, None).
Proof.
  intros e1 e2 e3. apply (validateEvents_app "u1" 0 e1 [e2] e3 []). reflexivity.
Defined.

Section FirstViolation.

Variables aggregateID aggregateType : string.

(** The loop passes over the events it accepts. *)
Lemma validateEvents_range_prefix (accepted l : list Event) : ∀ cv,
  accepts aggregateID aggregateType cv accepted →
  validateEvents_range aggregateID aggregateType cv (accepted ++ l)
  = validateEvents_range aggregateID aggregateType (advanced cv accepted) l.
Proof.
  induction accepted as [|e accepted IH]; intros cv Hacc; [reflexivity|].
  destruct Hacc as [Hn Hacc]. rewrite advanced_cons.
  cbn [app validateEvents_range]. unfold violates in Hn.
  destruct (decide (AggregateRootID e ≠ aggregateID)); [tauto|].
  destruct (decide (AggregateType e ≠ aggregateType)); [tauto|].
  destruct (decide (int_add cv 1 ≠ Version e)) as [Hv|_];
    [exfalso; apply Hn; right; right; left; congruence|].
  destruct (decide (Reason e = "")); [tauto|].
  now apply IH.
Qed.

End FirstViolation.

(** X8 — the error of [validateEvents] is that of the first event that
    fails, and of the first check it fails: after a prefix the validator
    accepts, an event with a foreign aggregate id gives "events holds events
    for more than one aggregate"; else one with another type than the first
    event's gives "events holds events for more than one aggregate type";
    else one whose version is not the current version plus one gives
    "concurrency error"; else one with an empty reason gives "event holds no
    reason" — whatever events follow it. *)
Theorem validateEvents_first_violation (aggregateID : string) (currentVersion : Z)
    (first : Event) (rest accepted : list Event) (event : Event) (tail : list Event) :
  let events := first :: rest in
  let type := AggregateType first in
  let cv := advanced currentVersion accepted in
  events = accepted ++ event :: tail →
  accepts aggregateID type currentVersion accepted →
  (AggregateRootID event ≠ aggregateID →
   validateEvents aggregateID currentVersion events
   = Ret (false, Some (errorString "events holds events for more than one aggregate")))
  ∧ (AggregateRootID event = aggregateID → AggregateType event ≠ type →
     validateEvents aggregateID currentVersion events
     = Ret (false,
            Some (errorString "events holds events for more than one aggregate type")))
  ∧ (AggregateRootID event = aggregateID → AggregateType event = type →
     Version event ≠ int_add cv 1 →
     validateEvents aggregateID currentVersion events
     = Ret (false, Some (errorString "concurrency error")))
  ∧ (AggregateRootID event = aggregateID → AggregateType event = type →
     Version event = int_add cv 1 → Reason event = "" →
     validateEvents aggregateID currentVersion events
     = Ret (false, Some (errorString "event holds no reason"))).
Proof.
  cbn zeta. intros Esplit Hacc. unfold validateEvents. rewrite Esplit.
  rewrite (validateEvents_range_prefix _ _ _ _ _ Hacc).
  cbn [validateEvents_range].
  split; [|split; [|split]].
  - intros Hid. destruct (decide (AggregateRootID event ≠ aggregateID)); tauto.
  - intros Hid Hty.
    destruct (decide (AggregateRootID event ≠ aggregateID)); [tauto|].
    destruct (decide (AggregateType event ≠ AggregateType first)); tauto.
  - intros Hid Hty Hv.
    destruct (decide (AggregateRootID event ≠ aggregateID)); [tauto|].
    destruct (decide (AggregateType event ≠ AggregateType first)); [tauto|].
    destruct (decide (int_add (advanced currentVersion accepted) 1 ≠ Version event))
      as [_|Hsame]; [reflexivity|].
    exfalso. apply Hsame. intros E. apply Hv. now symmetry.
  - intros Hid Hty Hv Hr.
    destruct (decide (AggregateRootID event ≠ aggregateID)); [tauto|].
    destruct (decide (AggregateType event ≠ AggregateType first)); [tauto|].
    destruct (decide (int_add (advanced currentVersion accepted) 1 ≠ Version event));
      [congruence|].
    destruct (decide (Reason event = "")); tauto.
Qed.

Lemma validateEvents_first_violation_witness :
  let e1 := mkEvent "u1" 1 "Created" "user" "" [] in
  let e2 := mkEvent "u1" 3 "" "user" "" [] in
  let e3 := mkEvent "u2" 4 "Renamed" "order" "" [] in
  (AggregateRootID e2 ≠ "u1" →
   validateEvents "u1" 0 [e1; e2; e3]
   = Ret (false, Some (errorString "events holds events for more than one aggregate")))
  ∧ (AggregateRootID e2 = "u1" → AggregateType e2 ≠ AggregateType e1 →
     validateEvents "u1" 0 [e1; e2; e3]
     = Ret (false,
            Some (errorString "events holds events for more than one aggregate type")))
  ∧ (AggregateRootID e2 = "u1" → AggregateType e2 = AggregateType e1 →
     Version e2 ≠ int_add (advanced 0 [e1]) 1 →
     validateEvents "u1" 0 [e1; e2; e3]
     = Ret (false, Some (errorString "concurrency error")))
  ∧ (AggregateRootID e2 = "u1" → AggregateType e2 = AggregateType e1 →
     Version e2 = int_add (advanced 0 [e1]) 1 → Reason e2 = "" →
     validateEvents "u1" 0 [e1; e2; e3]
     = Ret (false, Some (errorString "event holds no reason"))).
Proof.
  intros e1 e2 e3.
  apply (validateEvents_first_violation "u1" 0 e1 [e2; e3] [e1] e2 [e3]).
  - reflexivity.
  - split; [|exact I]. intros [Hv|[Hv|[Hv|Hv]]]; vm_compute in Hv;
      solve [congruence | discriminate].
Defined.

(** X9 — the earlier [Save] reports success only after it has committed:
    [validateEvents] returns [ok = false] only together with an error, so
    the return of [err] on a rejected batch is never a return of nil. *)
Theorem StoreJSON_Save_tx_never_nil `{JSONCodec} (events : list Event) (first : Event)
    (tx : Tx) :
  StoreJSON.Save_tx events first tx ≠ Ret None.
Proof.
  unfold StoreJSON.Save_tx. cbn zeta. intros E.
  apply bind_Ret_inv in E as ([evBucket tx1] & _ & E).
  apply bind_Ret_inv in E as (cursor & _ & E).
  apply bind_Ret_inv in E as (cv & _ & E).
  apply bind_Ret_inv in E as ([ok err] & Hv & E).
  destruct events as [|e0 events]; [discriminate|].
  destruct (validateEvents_cases (AggregateRootID first) cv e0 events) as [Hc|[e Hc]];
    rewrite Hc in Hv; injection Hv as <- <-; cbn [negb] in E; [|discriminate].
  apply bind_Ret_inv in E as ([] & _ & E).
  apply bind_Ret_inv in E as (tx' & _ & E). discriminate.
Qed.

(** ** The other streams *)

Section Frame.

Context {serializer : EventSerializer} {codec : JSONCodec}.

(** A batch is written to the two buckets whose handles the loop holds. *)
Lemma Store_Save_range_frame ev g name events : ∀ tx tx',
  Store.Save_range ev g name events tx = Ret tx' →
  ∀ other, ev ≠ Some other → g ≠ Some other → root tx' !! other = root tx !! other.
Proof.
  induction events as [|e events IH]; intros tx tx' Hs other Hev Hg.
  - cbn in Hs. now injection Hs as <-.
  - cbn [Store.Save_range] in Hs.
    apply bind_Ret_inv in Hs as (tx5 & He & Hs).
    rewrite (IH _ _ Hs other Hev Hg). clear Hs IH.
    unfold Store.Save_event in He.
    apply bind_Ret_inv in He as ([s tx1] & H1 & He). apply or_return_Ret in H1.
    apply bind_Ret_inv in He as (v & Hv & He). apply or_return_Ret in Hv.
    apply bind_Ret_inv in He as (tx2 & H2 & He). apply or_return_Ret in H2.
    apply bind_Ret_inv in He as ([gs tx3] & H3 & He). apply or_return_Ret in H3.
    apply bind_Ret_inv in He as (tx4 & H4 & He). apply or_return_Ret in H4.
    injection He as <-.
    destruct ev as [a|]; [|discriminate]. destruct g as [gn|]; [|discriminate].
    destruct (issue_step _ _ _ _ _ _ H1 H2) as (b & Hb & ->).
    destruct (issue_step _ _ _ _ _ _ H3 H4) as (b' & Hb' & ->).
    cbn [root]. rewrite !lookup_insert_ne by congruence. reflexivity.
Qed.

Lemma StoreJSON_Save_range_frame ev g name events : ∀ tx tx',
  StoreJSON.Save_range ev g name events tx = Ret tx' →
  ∀ other, ev ≠ Some other → g ≠ Some other → root tx' !! other = root tx !! other.
Proof.
  induction events as [|e events IH]; intros tx tx' Hs other Hev Hg.
  - cbn in Hs. now injection Hs as <-.
  - cbn [StoreJSON.Save_range] in Hs.
    apply bind_Ret_inv in Hs as (tx5 & He & Hs).
    rewrite (IH _ _ Hs other Hev Hg). clear Hs IH.
    unfold StoreJSON.Save_event in He.
    apply bind_Ret_inv in He as (obj & Hv & He). apply or_return_Ret in Hv.
    apply bind_Ret_inv in He as ([s tx1] & H1 & He). apply or_return_Ret in H1.
    apply bind_Ret_inv in He as (v & Hc & He).
    apply bind_Ret_inv in He as (tx2 & H2 & He). apply or_return_Ret in H2.
    apply bind_Ret_inv in He as ([gs tx3] & H3 & He). apply or_return_Ret in H3.
    cbn zeta in He.
    apply bind_Ret_inv in He as (tx4 & H4 & He). apply or_return_Ret in H4.
    injection He as <-.
    destruct ev as [a|]; [|discriminate]. destruct g as [gn|]; [|discriminate].
    destruct (issue_step _ _ _ _ _ _ H1 H2) as (b & Hb & ->).
    destruct (issue_step _ _ _ _ _ _ H3 H4) as (b' & Hb' & ->).
    cbn [root]. rewrite !lookup_insert_ne by congruence. reflexivity.
Qed.

Lemma Tx_Bucket_cases name tx :
  Tx_Bucket name tx = Some name ∨ Tx_Bucket name tx = None.
Proof. unfold Tx_Bucket. destruct (root tx !! name); auto. Qed.

(** [Get] reads the one bucket its key names. *)
Lemma Get_lookup db1 db2 id type afterVersion :
  db1 !! aggregateKey type id = db2 !! aggregateKey type id →
  Store.Get db1 id type afterVersion = Store.Get db2 id type afterVersion.
Proof.
  intros E. unfold Store.Get, Tx_Bucket, Bucket_Cursor, Begin. cbn [root].
  rewrite E. destruct (db2 !! aggregateKey type id) eqn:E2; [|reflexivity].
  cbn [root]. now rewrite E, E2.
Qed.

End Frame.

(** X12 — [Save] writes to the keyspace of its batch and to the global log,
    and to nothing else: whatever the call does (commit, error or panic),
    every other bucket is afterwards what it was, and [Get] on any other
    aggregate returns what it returned before. *)
Theorem Save_leaves_other_streams `{EventSerializer} `{JSONCodec}
    (db : DB) (first : Event) (rest : list Event) (other : string) :
  let events := first :: rest in
  let name := aggregateKey (AggregateType first) (AggregateRootID first) in
  other ≠ name → other ≠ globalEventOrderBucketName →
  (Store.Save db events).1 !! other = db !! other
  ∧ (StoreJSON.Save db events).1 !! other = db !! other
  ∧ ∀ id type afterVersion,
      aggregateKey type id = other →
      Store.Get (Store.Save db events).1 id type afterVersion
      = Store.Get db id type afterVersion.
Proof.
  cbn zeta. intros Hname Hglobal.
  assert ((Store.Save db (first :: rest)).1 !! other = db !! other) as Hstore.
  { rewrite Store_Save_unfold. cbn zeta.
    match goal with |- (match ?m with _ => _ end).1 !! _ = _ =>
      destruct m as [tx'| |] eqn:Em end; [|reflexivity|reflexivity].
    apply bind_Ret_inv in Em as (cv & _ & Em).
    apply bind_Ret_inv in Em as ([] & _ & Em).
    apply bind_Ret_inv in Em as ([] & _ & Em).
    cbn [fst]. unfold Commit.
    rewrite (Store_Save_range_frame _ _ _ _ _ _ Em other).
    - cbn [root]. now apply opened_root_lookup_ne.
    - congruence.
    - destruct (Tx_Bucket_cases globalEventOrderBucketName
                  (mkTx true (opened_root db
                     (aggregateKey (AggregateType first) (AggregateRootID first)))))
        as [-> | ->]; congruence. }
  split; [exact Hstore|]. split.
  - rewrite StoreJSON_Save_unfold. cbn zeta.
    match goal with |- (match ?m with _ => _ end).1 !! _ = _ =>
      destruct m as [[tx'|]| |] eqn:Em end; [|reflexivity|reflexivity|reflexivity].
    apply bind_Ret_inv in Em as (cv & _ & Em).
    apply bind_Ret_inv in Em as ([ok err] & _ & Em).
    destruct ok; cbn [negb] in Em; [|destruct err; discriminate].
    apply bind_Ret_inv in Em as ([] & _ & Em).
    apply bind_Ret_inv in Em as (tx'' & Em & Et). injection Et as ->.
    cbn [fst]. unfold Commit.
    rewrite (StoreJSON_Save_range_frame _ _ _ _ _ _ Em other).
    + cbn [root]. now apply opened_root_lookup_ne.
    + unfold bucketName. unfold aggregateKey in Hname. congruence.
    + destruct (Tx_Bucket_cases globalEventOrderBucketName
                  (mkTx true (opened_root db
                     (bucketName (AggregateType first) (AggregateRootID first)))))
        as [-> | ->]; congruence.
  - intros id type afterVersion <-. apply Get_lookup. exact Hstore.
Qed.

Lemma Save_leaves_other_streams_witness :
  let e1 := mkEvent "u1" 1 "Created" "user" "d1" [] in
  let e2 := mkEvent "u2" 1 "Created" "user" "d2" [] in
  let db := (Store.Save (serializer := LineCodec.serializer) Store.MustOpenBBolt [e1]).1 in
  (Store.Save (serializer := LineCodec.serializer) db [e2]).1 !! "user_u1"
  = db !! "user_u1"
  ∧ (StoreJSON.Save (codec := LineCodec.json) db [e2]).1 !! "user_u1" = db !! "user_u1"
  ∧ ∀ id type afterVersion,
      aggregateKey type id = "user_u1" →
      Store.Get (serializer := LineCodec.serializer)
        (Store.Save (serializer := LineCodec.serializer) db [e2]).1 id type afterVersion
      = Store.Get (serializer := LineCodec.serializer) db id type afterVersion.
Proof.
  intros e1 e2 db.
  apply (Save_leaves_other_streams (H := LineCodec.serializer) (H0 := LineCodec.json)
           db e2 [] "user_u1"); vm_compute; discriminate.
Defined.

(** ** Reading a stream *)

Section Reading.

Context {serializer : EventSerializer}.

(** The position of an [int] in the key space. *)
Lemma itob_after (afterVersion : Z) :
  - 2 ^ 63 <= afterVersion < 2 ^ 63 →
  itob (int_add (int afterVersion) 1) = PutUint64 (uint64 (afterVersion + 1)).
Proof.
  intros Hv. rewrite (int_small afterVersion Hv). unfold int_add. apply itob_int.
Qed.

(** [Seek] below every key finds the first entry. *)
Lemma Seek_all (u : Z) (c : Cursor) :
  0 <= u →
  Forall (fun kv => ∃ s, u <= s < 2 ^ 64 ∧ kv.1 = PutUint64 s) c →
  Seek (PutUint64 u) c = c.
Proof.
  intros Hu HF. destruct HF as [|[k v] c (s & Hs & Ek) _]; [reflexivity|].
  cbn [fst] in Ek. subst k. cbn [Seek]. rewrite PutUint64_compare by lia.
  destruct (Z.compare_spec s u); [reflexivity | lia | reflexivity].
Qed.

(** [Seek] above every key finds nothing. *)
Lemma Seek_none (u : Z) (c : Cursor) :
  u < 2 ^ 64 →
  Forall (fun kv => ∃ s, 0 <= s < u ∧ kv.1 = PutUint64 s) c →
  Seek (PutUint64 u) c = [].
Proof.
  intros Hu HF. induction HF as [|[k v] c (s & Hs & Ek) _ IH]; [reflexivity|].
  cbn [fst] in Ek. subst k. cbn [Seek]. rewrite PutUint64_compare by lia.
  destruct (Z.compare_spec s u); [lia | exact IH | lia].
Qed.


(** [Seek] in a run of consecutive keys. *)
Lemma Seek_run (u : Z) (values : list bytes) : ∀ first,
  0 <= first → first + Z.of_nat (length values) <= 2 ^ 64 → 0 <= u < 2 ^ 64 →
  Seek (PutUint64 u)
    (zip (map (fun s => itob (int s)) (sequence_run first (length values))) values)
  = drop (Z.to_nat (u - first))
      (zip (map (fun s => itob (int s)) (sequence_run first (length values))) values).
Proof.
  induction values as [|v values IH]; intros first Hf Hlen Hu.
  - cbn. now rewrite drop_nil.
  - cbn [length] in Hlen |- *. rewrite Nat2Z.inj_succ in Hlen.
    rewrite sequence_run_S. cbn [map zip zip_with Seek].
    rewrite key_of_sequence by lia. rewrite PutUint64_compare by lia.
    destruct (Z.compare_spec first u) as [->|Hlt|Hgt].
    + now rewrite Z.sub_diag.
    + replace (Z.to_nat (u - first)) with (S (Z.to_nat (u - (first + 1)))) by lia.
      cbn [drop]. apply IH; lia.
    + now replace (Z.to_nat (u - first)) with 0%nat by lia.
Qed.

Lemma Get_range_app (c1 c2 : Cursor) : ∀ acc,
  Store.Get_range (c1 ++ c2) acc = Store.Get_range c1 acc ≫= Store.Get_range c2.
Proof.
  induction c1 as [|[k obj] c1 IH]; intros acc; [reflexivity|].
  cbn [app Store.Get_range].
  destruct (DeserializeEvent obj) as [e| |]; cbn [or_return]; [|reflexivity|reflexivity].
  rewrite !bind_Ret. apply IH.
Qed.

(** [Get] on a bucket that is there. *)
Lemma Get_Some (db : DB) (b : Bucket) (id type : string) (afterVersion : Z) :
  db !! aggregateKey type id = Some b →
  Store.Get db id type afterVersion
  = Store.Get_range (Seek (itob (int_add (int afterVersion) 1)) (entries b)) [].
Proof.
  intros Hb. unfold Store.Get, Tx_Bucket, Bucket_Cursor, Begin. cbn [root].
  rewrite Hb. cbn [root]. now rewrite Hb.
Qed.

Lemma Get_None (db : DB) (id type : string) (afterVersion : Z) :
  db !! aggregateKey type id = None → Store.Get db id type afterVersion = Panic.
Proof.
  intros Hb. unfold Store.Get, Tx_Bucket, Bucket_Cursor, Begin. cbn [root].
  now rewrite Hb.
Qed.

Lemma sequenced_from_one (b : Bucket) :
  bucket_sequenced b →
  Forall (fun kv => ∃ s, 1 <= s < 2 ^ 64 ∧ kv.1 = PutUint64 s) (entries b).
Proof.
  intros [Hr Hk]. eapply Forall_impl; [exact Hk|].
  intros kv (s & Hs & Ek). exists s. split; [lia | exact Ek].
Qed.

(** The aggregate bucket after a committed batch. *)
Lemma Store_Save_stream (db db' : DB) (first : Event) (rest : list Event) :
  let events := first :: rest in
  let name := aggregateKey (AggregateType first) (AggregateRootID first) in
  name ≠ globalEventOrderBucketName →
  bucket_sequenced (mkBucket (entries_of db name) (sequence_of db name)) →
  sequence_of db name + Z.of_nat (length events) < 2 ^ 64 →
  Store.Save db events = (db', Ret tt) →
  ∃ values b',
    Forall2 (fun e v => SerializeEvent e = Ret v) events values
    ∧ db' !! name = Some b'
    ∧ bucket_sequenced b'
    ∧ sequence b' = sequence_of db name + Z.of_nat (length events)
    ∧ entries b'
      = entries_of db name
        ++ zip (map (fun s => itob (int s))
                  (sequence_run (sequence_of db name + 1) (length events))) values.
Proof.
  cbn zeta. intros Hne Hb Hlt Hs.
  set (name := aggregateKey (AggregateType first) (AggregateRootID first)) in *.
  apply Store_Save_Ret in Hs as (cv & tx' & _ & _ & Hg & Hr & ->). fold name in Hg, Hr.
  apply Store_Save_range_written in Hr as (values & HF & Hw);
    [| exact Hne | cbn [root]; rewrite opened_root_lookup; eauto | exact Hg].
  pose proof (written_aggregate _ _ _ _ _ Hw _ (opened_root_lookup db name)) as Ha.
  pose proof (Forall2_length _ _ _ HF) as HL.
  destruct (issue_all_sequenced values _ Hb) as [Ei Hb'];
    [cbn [sequence]; rewrite <- HL; exact Hlt|].
  exists values, (issue_all (mkBucket (entries_of db name) (sequence_of db name)) values).
  split; [exact HF|]. split; [exact Ha|]. split; [exact Hb'|].
  rewrite Ei. cbn [sequence entries]. rewrite <- HL. auto.
Qed.

(** The bucket of a name, as [Save] opens it. *)
Lemma opened_sequenced (db : DB) (name : string) :
  (∀ b, db !! name = Some b → bucket_sequenced b) →
  bucket_sequenced (mkBucket (entries_of db name) (sequence_of db name)).
Proof.
  intros Hseq. unfold entries_of, sequence_of.
  destruct (db !! name) as [[l q]|] eqn:E; [now apply Hseq|].
  split; [cbn; lia | constructor].
Qed.

Lemma store_sequenced_insert (db : DB) (name : string) (b : Bucket) :
  store_sequenced db → bucket_sequenced b → store_sequenced (<[name := b]> db).
Proof.
  intros Hseq Hb name' b'. destruct (decide (name = name')) as [->|Hne].
  - rewrite lookup_insert_eq. now intros [= <-].
  - rewrite lookup_insert_ne by exact Hne. apply Hseq.
Qed.

Lemma store_sequenced_empty : store_sequenced ∅.
Proof. intros name b Hb. rewrite lookup_empty in Hb. discriminate. Qed.

End Reading.

(** X13 — [Save] appends to the stream of its aggregate: on a store whose
    buckets hold the keys of the sequence numbers they issued, for an
    aggregate whose keyspace is not named like the global log, after a
    committed [Save] of a batch [B] the call [Get(id, type, 0)] returns what
    it returned before, followed by the events of [B].  The serializer is
    assumed to read back what it wrote for the events of [B]. *)
Theorem Save_then_Get_appends `{EventSerializer} (db db' : DB)
    (first : Event) (rest old : list Event) :
  let B := first :: rest in
  let id := AggregateRootID first in
  let type := AggregateType first in
  aggregateKey type id ≠ globalEventOrderBucketName →
  store_sequenced db →
  sequence_of db (aggregateKey type id) + Z.of_nat (length B) < 2 ^ 64 →
  (∀ e v, e ∈ B → SerializeEvent e = Ret v → DeserializeEvent v = Ret e) →
  Store.Get db id type 0 = Ret old →
  Store.Save db B = (db', Ret tt) →
  Store.Get db' id type 0 = Ret (old ++ B).
Proof.
  cbn zeta. intros Hne Hseq Hlt Hrt Hold Hs.
  set (name := aggregateKey (AggregateType first) (AggregateRootID first)) in *.
  destruct (db !! name) as [b|] eqn:Eb.
  2:{ rewrite Get_None in Hold by exact Eb. discriminate. }
  destruct (Store_Save_stream db db' first rest Hne
              (opened_sequenced db name (Hseq name)) Hlt Hs)
    as (values & b' & HF & Hb' & Sb' & _ & Eb').
  fold name in Hb', Eb'.
  assert (entries_of db name = entries b) as En by (unfold entries_of; now rewrite Eb).
  rewrite (Get_Some db b _ _ 0 Eb) in Hold. rewrite (Get_Some db' b' _ _ 0 Hb').
  rewrite itob_after in Hold |- * by lia.
  change (uint64 (0 + 1)) with 1 in Hold |- *.
  rewrite Seek_all in Hold by (lia || apply sequenced_from_one, (Hseq _ _ Eb)).
  rewrite Seek_all by (lia || now apply sequenced_from_one).
  rewrite Eb', En, Get_range_app, Hold, bind_Ret.
  apply Get_range_decodes. apply Forall2_zip_decodes; [|exact Hrt|exact HF].
  rewrite length_map, sequence_run_length. apply (Forall2_length _ _ _ HF).
Qed.

Lemma Save_then_Get_appends_witness :
  let e1 := mkEvent "u1" 1 "Created" "user" "d1" [] in
  let e2 := mkEvent "u1" 2 "Renamed" "user" "d2" [] in
  let db := <["user_u1" := mkBucket [(itob 1, LineCodec.encode e1)] 1]>
              (<[globalEventOrderBucketName
                 := mkBucket [(itob 1, LineCodec.encode e1)] 1]> ∅) in
  Store.Get (serializer := LineCodec.serializer)
    (Store.Save (serializer := LineCodec.serializer) db [e2]).1 "u1" "user" 0
  = Ret ([e1] ++ [e2]).
Proof.
  intros e1 e2 db.
  apply (Save_then_Get_appends (H := LineCodec.serializer) db
           (Store.Save (serializer := LineCodec.serializer) db [e2]).1 e2 [] [e1]).
  - vm_compute. discriminate.
  - repeat apply store_sequenced_insert; try apply store_sequenced_empty;
      (split; [cbn; lia | repeat constructor; exists 1; split; [cbn; lia | reflexivity]]).
  - vm_compute. reflexivity.
  - intros e v He Hs. injection Hs as <-.
    apply list_elem_of_In in He. destruct He as [<-|[]]. vm_compute. reflexivity.
  - vm_compute. reflexivity.
  - vm_compute. reflexivity.
Defined.



(** X15 — below -1 the position wraps around: for an [afterVersion] of -2 or
    less, [Get] seeks the key of a negative [int], which lies after every
    key a bucket of fewer than [2^63] events holds, and returns no event
    and no error, whatever the stream holds. *)
Theorem Get_before_minus_one_is_empty `{EventSerializer} (db : DB) (b : Bucket)
    (id aggregateType : string) (afterVersion : Z) :
  db !! aggregateKey aggregateType id = Some b →
  bucket_sequenced b →
  sequence b < 2 ^ 63 →
  - 2 ^ 63 <= afterVersion <= - 2 →
  Store.Get db id aggregateType afterVersion = Ret [].
Proof.
  intros Hb [Hr Hk] Hlt Hav.
  rewrite (Get_Some db b _ _ afterVersion Hb), itob_after by lia.
  rewrite Seek_none; [reflexivity | apply uint64_range |].
  eapply Forall_impl; [exact Hk|]. intros kv (s & Hs & Ek).
  exists s. split; [|exact Ek].
  rewrite uint64_negative by lia. lia.
Qed.

Lemma Get_before_minus_one_is_empty_witness :
  let e1 := mkEvent "u1" 1 "Created" "user" "d1" [] in
  let db := (Store.Save (serializer := LineCodec.serializer) Store.MustOpenBBolt [e1]).1 in
  Store.Get (serializer := LineCodec.serializer) db "u1" "user" (- 2) = Ret [].
Proof.
  intros e1 db.
  apply (Get_before_minus_one_is_empty (H := LineCodec.serializer) db
           (mkBucket [(itob 1, LineCodec.encode e1)] 1) "u1" "user" (- 2)).
  - vm_compute. reflexivity.
  - split; [cbn; lia | repeat constructor; exists 1; split; [cbn; lia | reflexivity]].
  - cbn. lia.
  - lia.
Defined.

(** ** Replaying the global log *)

Section Replay.

Context {serializer : EventSerializer}.

(** [GlobalGet] on a global bucket that is there. *)
Lemma GlobalGet_Some (db : DB) (g : Bucket) (start count : Z) :
  db !! globalEventOrderBucketName = Some g →
  Store.GlobalGet db start count
  = Store.GlobalGet_range count (Seek (itob start) (entries g)) [] 0.
Proof.
  intros Hg. unfold Store.GlobalGet, Tx_Bucket, Bucket_Cursor, Begin. cbn [root].
  rewrite Hg. cbn [root]. now rewrite Hg.
Qed.




End Replay.



(** X17 — [GlobalGet] on a database without the global order bucket panics:
    [tx.Bucket] returns nil and [Cursor] is called on it.  [MustOpenBBolt]
    creates the bucket, so a store it opened is not such a database. *)
Theorem GlobalGet_without_global_bucket_panics `{EventSerializer} (db : DB)
    (start count : Z) :
  db !! globalEventOrderBucketName = None →
  Store.GlobalGet db start count = Panic.
Proof.
  intros Habsent. unfold Store.GlobalGet, Tx_Bucket, Begin. cbn [root].
  now rewrite Habsent.
Qed.

Lemma GlobalGet_without_global_bucket_panics_witness :
  Store.GlobalGet (serializer := LineCodec.serializer) ∅ 1 10 = Panic.
Proof.
  apply (GlobalGet_without_global_bucket_panics (H := LineCodec.serializer) ∅ 1 10).
  apply lookup_empty.
Defined.

(** X18 — a [count] of one or less is a count of one: the loop of
    [GlobalGet] appends before it compares, so when the log holds an entry
    at or after [start] the call returns exactly the event of the first
    such entry, for [count = 1], [count = 0] and every negative [count]. *)
Theorem GlobalGet_count_at_most_one `{EventSerializer} (db : DB) (g : Bucket)
    (start count : Z) (k obj : bytes) (rest : Cursor) (event : Event) :
  db !! globalEventOrderBucketName = Some g →
  Seek (itob start) (entries g) = (k, obj) :: rest →
  DeserializeEvent obj = Ret event →
  count <= 1 →
  Store.GlobalGet db start count = Ret (Some [event]).
Proof.
  intros Hg Hseek Hd Hcount.
  rewrite (GlobalGet_Some db g _ _ Hg), Hseek.
  cbn [Store.GlobalGet_range]. rewrite Hd. cbn zeta.
  change (int_add 0 1) with 1.
  destruct (1 >=? count) eqn:Eb; [reflexivity|].
  rewrite Z.geb_leb, Z.leb_gt in Eb. lia.
Qed.

Lemma GlobalGet_count_at_most_one_witness :
  let e1 := mkEvent "u1" 1 "Created" "user" "d1" [] in
  let e2 := mkEvent "u1" 2 "Renamed" "user" "d2" [] in
  let db := (Store.Save (serializer := LineCodec.serializer)
               Store.MustOpenBBolt [e1; e2]).1 in
  Store.GlobalGet (serializer := LineCodec.serializer) db 1 (- 3) = Ret (Some [e1]).
Proof.
  intros e1 e2 db.
  apply (GlobalGet_count_at_most_one (H := LineCodec.serializer) db
           (mkBucket [(itob 1, LineCodec.encode e1); (itob 2, LineCodec.encode e2)] 2)
           1 (- 3) (itob 1) (LineCodec.encode e1) [(itob 2, LineCodec.encode e2)] e1).
  - vm_compute. reflexivity.
  - vm_compute. reflexivity.
  - vm_compute. reflexivity.
  - lia.
Defined.

(** X19 — [GlobalGet] swallows a decoding error: when an entry the loop
    reaches does not deserialize, the call returns the nil slice, dropping
    the events it had decoded before it, and no error is reported. *)
Theorem GlobalGet_undecodable_returns_nil `{EventSerializer} (db : DB) (g : Bucket)
    (start count : Z) (page : Cursor) (events : list Event)
    (k obj : bytes) (rest : Cursor) (err : error) :
  db !! globalEventOrderBucketName = Some g →
  Seek (itob start) (entries g) = page ++ (k, obj) :: rest →
  Forall2 (fun e kv => DeserializeEvent kv.2 = Ret e) events page →
  DeserializeEvent obj = Fail err →
  Z.of_nat (length page) < count < 2 ^ 63 ∨ page = [] →
  Store.GlobalGet db start count = Ret None.
Proof.
  intros Hg Hseek HF Hd Hreach.
  rewrite (GlobalGet_Some db g _ _ Hg), Hseek. clear Hseek Hg.
  assert (∀ acc counter, 0 <= counter →
            counter + Z.of_nat (length page) < count < 2 ^ 63 ∨ page = [] →
            Store.GlobalGet_range count (page ++ (k, obj) :: rest) acc counter
            = Ret None) as Hloop.
  { clear Hreach. revert events HF.
    induction page as [|[k' obj'] page IH]; intros events HF acc counter H0 Hreach.
    - cbn [app Store.GlobalGet_range]. now rewrite Hd.
    - destruct Hreach as [Hreach|]; [|discriminate].
      inversion HF as [|e ? evs ? Hd' HF']; subst. cbn [snd] in Hd'.
      cbn [app Store.GlobalGet_range length] in Hreach |- *. rewrite Hd'. cbn zeta.
      rewrite Nat2Z.inj_succ in Hreach.
      assert (int_add counter 1 = counter + 1) as ->
        by (unfold int_add; apply int_small; lia).
      destruct (counter + 1 >=? count) eqn:Eb.
      + rewrite Z.geb_leb, Z.leb_le in Eb. lia.
      + apply (IH evs HF'); [lia | left; lia]. }
  apply Hloop; [lia | destruct Hreach; auto].
Qed.

Lemma GlobalGet_undecodable_returns_nil_witness :
  let e1 := mkEvent "u1" 1 "Created" "user" "d1" [] in
  let db := <[globalEventOrderBucketName
              := mkBucket [(itob 1, LineCodec.encode e1); (itob 2, [1; 2; 3])] 2]>
              (∅ : DB) in
  Store.GlobalGet (serializer := LineCodec.serializer) db 1 10 = Ret None.
Proof.
  intros e1 db.
  apply (GlobalGet_undecodable_returns_nil (H := LineCodec.serializer) db
           (mkBucket [(itob 1, LineCodec.encode e1); (itob 2, [1; 2; 3])] 2)
           1 10 [(itob 1, LineCodec.encode e1)] [e1] (itob 2) [1; 2; 3] []
           (errorString "malformed event")).
  - vm_compute. reflexivity.
  - vm_compute. reflexivity.
  - repeat constructor.
  - vm_compute. reflexivity.
  - left. cbn. lia.
Defined.

(** X20 — [Get] returns the first decoding error and no events: when the
    entries from the sought position on decode up to an entry that does not,
    the call returns that entry's error, wrapped, and none of the events
    before it. *)
Theorem Get_undecodable_fails `{EventSerializer} (db : DB) (b : Bucket)
    (id aggregateType : string) (afterVersion : Z) (page : Cursor)
    (events : list Event) (k obj : bytes) (rest : Cursor) (err : error) :
  db !! aggregateKey aggregateType id = Some b →
  Seek (itob (int_add (int afterVersion) 1)) (entries b) = page ++ (k, obj) :: rest →
  Forall2 (fun e kv => DeserializeEvent kv.2 = Ret e) events page →
  DeserializeEvent obj = Fail err →
  Store.Get db id aggregateType afterVersion
  = Fail (errorfErr "Could not deserialize event, %v" err).
Proof.
  intros Hb Hseek HF Hd.
  rewrite (Get_Some db b _ _ _ Hb), Hseek, Get_range_app.
  rewrite (Get_range_decodes page events [] HF), bind_Ret.
  cbn [Store.Get_range]. now rewrite Hd.
Qed.

Lemma Get_undecodable_fails_witness :
  let e1 := mkEvent "u1" 1 "Created" "user" "d1" [] in
  let db := <["user_u1" := mkBucket [(itob 1, LineCodec.encode e1); (itob 2, [1; 2; 3])] 2]>
              (∅ : DB) in
  Store.Get (serializer := LineCodec.serializer) db "u1" "user" 0
  = Fail (errorfErr "Could not deserialize event, %v" (errorString "malformed event")).
Proof.
  intros e1 db.
  apply (Get_undecodable_fails (H := LineCodec.serializer) db
           (mkBucket [(itob 1, LineCodec.encode e1); (itob 2, [1; 2; 3])] 2)
           "u1" "user" 0 [(itob 1, LineCodec.encode e1)] [e1] (itob 2) [1; 2; 3] []
           (errorString "malformed event")).
  - vm_compute. reflexivity.
  - vm_compute. reflexivity.
  - repeat constructor.
  - vm_compute. reflexivity.
Defined.



(** ** Dense streams *)

Section Dense.

Context {serializer : EventSerializer} {codec : JSONCodec}.

Lemma map_fmap {A B} (f : A → B) (l : list A) : map f l = f <$> l.
Proof. induction l as [|x l IH]; [reflexivity|]. cbn. now rewrite IH. Qed.

Lemma sequence_run_app (first : Z) (n m : nat) :
  sequence_run first (n + m)
  = sequence_run first n ++ sequence_run (first + Z.of_nat n) m.
Proof.
  revert first. induction n as [|n IH]; intros first.
  - cbn [Nat.add]. unfold sequence_run at 2. cbn [seq map app].
    f_equal. lia.
  - cbn [Nat.add]. rewrite !sequence_run_S, IH. cbn [app]. do 3 f_equal. lia.
Qed.

Lemma sequence_run_elem (first s : Z) (n : nat) :
  s ∈ sequence_run first n → first <= s < first + Z.of_nat n.
Proof.
  unfold sequence_run. rewrite map_fmap. intros Hin.
  apply list_elem_of_fmap in Hin as (i & -> & Hi).
  apply elem_of_seq in Hi. lia.
Qed.

(** The keys of a dense bucket, paired with its values. *)
Lemma dense_entries (b : Bucket) :
  bucket_dense b →
  length (entries b) = Z.to_nat (sequence b)
  ∧ entries b
    = zip (map (fun s => itob (int s)) (sequence_run 1 (length (entries b).*2)))
          (entries b).*2.
Proof.
  intros [Hr Hk].
  assert (length (entries b) = Z.to_nat (sequence b)) as Hl.
  { apply (f_equal length) in Hk.
    now rewrite !length_map, sequence_run_length in Hk. }
  split; [exact Hl|].
  rewrite length_fmap, Hl, <- Hk, map_fmap. symmetry. apply zip_fst_snd.
Qed.

Lemma dense_sequenced (b : Bucket) : bucket_dense b → bucket_sequenced b.
Proof.
  intros [Hr Hk]. split; [exact Hr|].
  apply Forall_forall. intros kv Hin.
  assert (kv.1 ∈ map fst (entries b)) as Hk1.
  { rewrite map_fmap. now apply list_elem_of_fmap_2. }
  rewrite Hk, map_fmap in Hk1.
  apply list_elem_of_fmap in Hk1 as (s & E & Hs).
  apply sequence_run_elem in Hs.
  exists s. split; [lia|]. rewrite E. apply key_of_sequence. lia.
Qed.

Lemma issue_all_dense (values : list bytes) (b : Bucket) :
  bucket_dense b → sequence b + Z.of_nat (length values) < 2 ^ 64 →
  bucket_dense (issue_all b values).
Proof.
  intros Hd Hlt. pose proof Hd as [Hr Hk].
  destruct (issue_all_sequenced values b (dense_sequenced b Hd) Hlt) as [-> _].
  split; cbn [sequence entries]; [lia|].
  rewrite map_app, Hk.
  replace (Z.to_nat (sequence b + Z.of_nat (length values)))
    with (Z.to_nat (sequence b) + length values)%nat by lia.
  rewrite sequence_run_app, map_app. f_equal.
  rewrite Z2Nat.id by lia. rewrite Z.add_comm.
  rewrite (map_fmap fst). apply fst_zip.
  now rewrite length_map, sequence_run_length.
Qed.

Lemma written_dense db name tx' values globals :
  name ≠ globalEventOrderBucketName →
  store_dense db →
  is_Some (opened_root db name !! globalEventOrderBucketName) →
  written (mkTx true (opened_root db name)) tx' name values globals →
  sequence_of db name + Z.of_nat (length values) < 2 ^ 64 →
  sequence_of db globalEventOrderBucketName + Z.of_nat (length values) < 2 ^ 64 →
  store_dense (root tx').
Proof.
  intros Hne Hd [g Hg] [Ha Hgl Ho Hl] Hlt1 Hlt2. cbn [root] in *.
  rewrite opened_root_lookup_ne in Hg by congruence.
  specialize (Ha _ (opened_root_lookup db name)).
  specialize (Hgl g). rewrite opened_root_lookup_ne in Hgl by congruence.
  specialize (Hgl Hg).
  assert (bucket_dense (mkBucket (entries_of db name) (sequence_of db name))) as Hb.
  { unfold entries_of, sequence_of. destruct (db !! name) as [[l q]|] eqn:E.
    - apply (Hd _ _ E).
    - split; [cbn; lia | reflexivity]. }
  intros other b Hb'.
  destruct (decide (other = name)) as [->|H1].
  { rewrite Ha in Hb'. injection Hb' as <-. now apply issue_all_dense. }
  destruct (decide (other = globalEventOrderBucketName)) as [->|H2].
  { rewrite Hgl in Hb'. injection Hb' as <-. apply issue_all_dense; [apply (Hd _ _ Hg)|].
    unfold sequence_of in Hlt2. rewrite Hg in Hlt2. now rewrite Hl. }
  rewrite Ho in Hb' by assumption.
  rewrite opened_root_lookup_ne in Hb' by assumption. apply (Hd _ _ Hb').
Qed.

Lemma MustOpenBBolt_dense : store_dense Store.MustOpenBBolt.
Proof.
  intros name b Hb. apply MustOpenBBolt_lookup in Hb as [_ ->].
  split; [cbn; lia | reflexivity].
Qed.

(** The loop of [GlobalGet] over entries that decode: it stops at [count]. *)
Lemma GlobalGet_range_take (count : Z) (c : Cursor) : ∀ evs acc counter,
  Forall2 (fun e kv => DeserializeEvent kv.2 = Ret e) evs c →
  0 <= counter < count → count < 2 ^ 63 →
  Store.GlobalGet_range count c acc counter
  = Ret (Some (acc ++ take (Z.to_nat (count - counter)) evs)).
Proof.
  induction c as [|[k obj] c IH]; intros evs acc counter HF Hc Hcount.
  - inversion HF; subst. cbn. now rewrite take_nil, app_nil_r.
  - inversion HF as [|e ? evs' ? Hd HF']; subst. cbn [snd] in Hd.
    cbn [Store.GlobalGet_range]. rewrite Hd. cbn zeta.
    assert (int_add counter 1 = counter + 1) as ->
      by (unfold int_add; apply int_small; lia).
    replace (Z.to_nat (count - counter)) with (S (Z.to_nat (count - (counter + 1))))
      by lia.
    cbn [take].
    destruct (counter + 1 >=? count) eqn:Eb.
    + rewrite Z.geb_leb, Z.leb_le in Eb.
      replace (Z.to_nat (count - (counter + 1))) with 0%nat by lia.
      now rewrite take_0.
    + rewrite Z.geb_leb, Z.leb_gt in Eb.
      rewrite (IH evs' (acc ++ [e]) (counter + 1) HF'); [| lia | lia].
      now rewrite <- app_assoc.
Qed.

End Dense.

(** X22 — a committed [Save] keeps the streams dense: when every bucket
    holds exactly the keys of the sequence numbers [1 .. counter], the
    aggregate is not named like the global log and the two counters stay
    below [2^64], then so does every bucket of the store the call leaves
    (both revisions): no sequence number is skipped and none is used
    twice. *)
Theorem Save_stays_dense `{EventSerializer} `{JSONCodec}
    (db db0 db1 : DB) (first : Event) (rest : list Event) :
  let events := first :: rest in
  let n := length events in
  let name := aggregateKey (AggregateType first) (AggregateRootID first) in
  name ≠ globalEventOrderBucketName →
  store_dense db →
  sequence_of db name + Z.of_nat n < 2 ^ 64 →
  sequence_of db globalEventOrderBucketName + Z.of_nat n < 2 ^ 64 →
  (Store.Save db events = (db0, Ret tt) → store_dense db0)
  ∧ (StoreJSON.Save db events = (db1, Ret tt) → store_dense db1).
Proof.
  cbn zeta. intros Hne Hd Hlt1 Hlt2. split; intros Hs.
  - apply Store_Save_Ret in Hs as (cv & tx' & _ & _ & Hg & Hr & ->).
    apply Store_Save_range_written in Hr as (values & HF & Hw);
      [| exact Hne | cbn [root]; rewrite opened_root_lookup; eauto | exact Hg].
    pose proof (Forall2_length _ _ _ HF) as HL.
    apply (written_dense db _ tx' values values Hne Hd Hg Hw); rewrite <- HL; assumption.
  - apply StoreJSON_Save_Ret in Hs as (cv & tx' & _ & _ & Hg & Hr & ->).
    apply StoreJSON_Save_range_written in Hr as (values & globals & HL & Hw);
      [| exact Hne | cbn [root]; rewrite opened_root_lookup; eauto | exact Hg].
    apply (written_dense db _ tx' values globals Hne Hd Hg Hw); rewrite HL; assumption.
Qed.

Lemma Save_stays_dense_witness :
  let e1 := mkEvent "u1" 1 "Created" "user" "" [] in
  let e2 := mkEvent "u1" 2 "Renamed" "user" "" [] in
  let db := Store.MustOpenBBolt in
  store_dense (Store.Save (serializer := LineCodec.serializer) db [e1; e2]).1
  ∧ store_dense (StoreJSON.Save (codec := LineCodec.json) db [e1; e2]).1.
Proof.
  intros e1 e2 db.
  destruct (Save_stays_dense (H := LineCodec.serializer) (H0 := LineCodec.json) db
              (Store.Save (serializer := LineCodec.serializer) db [e1; e2]).1
              (StoreJSON.Save (codec := LineCodec.json) db [e1; e2]).1 e1 [e2])
    as [H0 H1].
  - vm_compute. discriminate.
  - exact MustOpenBBolt_dense.
  - vm_compute. reflexivity.
  - vm_compute. reflexivity.
  - split; [apply H0 | apply H1]; vm_compute; reflexivity.
Defined.

(** X23 — [Get] reads a stream from a position: on a dense bucket of
    fewer than [2^63] entries whose values deserialize to [events],
    [Get(id, type, afterVersion)] returns [events] without the first
    [afterVersion] of them, the events stored under the local sequence
    numbers above [afterVersion], for every [afterVersion] from -1 on. *)
Theorem Get_reads_after `{EventSerializer} (db : DB) (b : Bucket)
    (id aggregateType : string) (afterVersion : Z) (events : list Event) :
  db !! aggregateKey aggregateType id = Some b →
  bucket_dense b →
  sequence b < 2 ^ 63 →
  Forall2 (fun e kv => DeserializeEvent kv.2 = Ret e) events (entries b) →
  - 1 <= afterVersion < 2 ^ 63 →
  Store.Get db id aggregateType afterVersion
  = Ret (drop (Z.to_nat afterVersion) events).
Proof.
  intros Hb Hd Hlt HF Hav.
  destruct (dense_entries b Hd) as [Hl Ez]. destruct Hd as [Hr _].
  rewrite (Get_Some db b _ _ afterVersion Hb), itob_after by lia.
  rewrite uint64_small by lia.
  assert (Seek (PutUint64 (afterVersion + 1)) (entries b)
          = drop (Z.to_nat afterVersion) (entries b)) as ->.
  { rewrite Ez at 1. rewrite Seek_run; [| lia | rewrite length_fmap, Hl; lia | lia].
    rewrite <- Ez. f_equal. lia. }
  change (Ret (drop (Z.to_nat afterVersion) events))
    with (Ret (A := list Event) ([] ++ drop (Z.to_nat afterVersion) events)).
  apply Get_range_decodes. now apply Forall2_drop.
Qed.

Lemma Get_reads_after_witness :
  let e1 := mkEvent "u1" 1 "Created" "user" "d1" [] in
  let e2 := mkEvent "u1" 2 "Renamed" "user" "d2" [] in
  let e3 := mkEvent "u1" 3 "Closed" "user" "d3" [] in
  let db := (Store.Save (serializer := LineCodec.serializer)
               (Store.Save (serializer := LineCodec.serializer)
                  Store.MustOpenBBolt [e1; e2]).1 [e3]).1 in
  Store.Get (serializer := LineCodec.serializer) db "u1" "user" 2
  = Ret (drop (Z.to_nat 2) [e1; e2; e3]).
Proof.
  intros e1 e2 e3 db.
  apply (Get_reads_after (H := LineCodec.serializer) db
           (mkBucket [(itob 1, LineCodec.encode e1); (itob 2, LineCodec.encode e2);
                      (itob 3, LineCodec.encode e3)] 3) "u1" "user" 2 [e1; e2; e3]).
  - vm_compute. reflexivity.
  - split; [cbn; lia | reflexivity].
  - cbn. lia.
  - repeat constructor.
  - lia.
Defined.

(** X24 — [GlobalGet] returns the page it is asked for: on a dense global
    log of fewer than [2^63] entries whose values deserialize to [all], for
    every [start] from 0 on and every [count] of at least one,
    [GlobalGet(start, count)] returns [all] without its first [start - 1]
    events (without none at [start = 0], as at [start = 1]), cut after
    [count] events.  From [start = 1] on these are the events stored under
    the global sequence numbers [start .. start + count - 1] that exist; at
    [start = 0] they are those under [1 .. count]. *)
Theorem GlobalGet_returns_page `{EventSerializer} (db : DB) (g : Bucket)
    (start count : Z) (all : list Event) :
  db !! globalEventOrderBucketName = Some g →
  bucket_dense g →
  sequence g < 2 ^ 63 →
  Forall2 (fun e kv => DeserializeEvent kv.2 = Ret e) all (entries g) →
  0 <= start < 2 ^ 63 →
  1 <= count < 2 ^ 63 →
  Store.GlobalGet db start count
  = Ret (Some (take (Z.to_nat count) (drop (Z.to_nat (start - 1)) all))).
Proof.
  intros Hg Hd Hlt HF Hstart Hcount.
  destruct (dense_entries g Hd) as [Hl Ez]. destruct Hd as [Hr _].
  rewrite (GlobalGet_Some db g _ _ Hg).
  unfold itob. rewrite uint64_small by lia.
  assert (Seek (PutUint64 start) (entries g)
          = drop (Z.to_nat (start - 1)) (entries g)) as ->.
  { rewrite Ez at 1. rewrite Seek_run; [| lia | rewrite length_fmap, Hl; lia | lia].
    now rewrite <- Ez. }
  rewrite (GlobalGet_range_take count _ (drop (Z.to_nat (start - 1)) all) [] 0);
    [| now apply Forall2_drop | lia | lia].
  now rewrite Z.sub_0_r.
Qed.

Lemma GlobalGet_returns_page_witness :
  let e1 := mkEvent "u1" 1 "Created" "user" "d1" [] in
  let e2 := mkEvent "u2" 1 "Created" "user" "d2" [] in
  let e3 := mkEvent "u1" 2 "Renamed" "user" "d3" [] in
  let db := (Store.Save (serializer := LineCodec.serializer)
               (Store.Save (serializer := LineCodec.serializer)
                  (Store.Save (serializer := LineCodec.serializer)
                     Store.MustOpenBBolt [e1]).1 [e2]).1 [e3]).1 in
  Store.GlobalGet (serializer := LineCodec.serializer) db 2 1
  = Ret (Some (take (Z.to_nat 1) (drop (Z.to_nat (2 - 1)) [e1; e2; e3]))).
Proof.
  intros e1 e2 e3 db.
  apply (GlobalGet_returns_page (H := LineCodec.serializer) db
           (mkBucket [(itob 1, LineCodec.encode e1); (itob 2, LineCodec.encode e2);
                      (itob 3, LineCodec.encode e3)] 3) 2 1 [e1; e2; e3]).
  - vm_compute. reflexivity.
  - split; [cbn; lia | reflexivity].
  - cbn. lia.
  - repeat constructor.
  - lia.
  - lia.
Defined.

(** ** What the global log holds *)

(** X25 — in the later revision the global log holds a copy of every event:
    a committed [Save] of [n] events appends the serialized events to the
    aggregate bucket under the next [n] local sequence numbers and the same
    values, in the same order, to the global log under the next [n] global
    sequence numbers.  (Store whose buckets hold the keys of the sequence
    numbers they issued, aggregate not named like the global log, counters
    below [2^64].) *)
Theorem Store_Save_global_copies `{EventSerializer} (db db' : DB)
    (first : Event) (rest : list Event) :
  let events := first :: rest in
  let n := length events in
  let name := aggregateKey (AggregateType first) (AggregateRootID first) in
  let a := sequence_of db name in
  let g := sequence_of db globalEventOrderBucketName in
  name ≠ globalEventOrderBucketName →
  store_sequenced db →
  a + Z.of_nat n < 2 ^ 64 →
  g + Z.of_nat n < 2 ^ 64 →
  Store.Save db events = (db', Ret tt) →
  ∃ values,
    Forall2 (fun e v => SerializeEvent e = Ret v) events values
    ∧ entries_of db' name
      = entries_of db name
        ++ zip (map (fun s => itob (int s)) (sequence_run (a + 1) n)) values
    ∧ entries_of db' globalEventOrderBucketName
      = entries_of db globalEventOrderBucketName
        ++ zip (map (fun s => itob (int s)) (sequence_run (g + 1) n)) values.
Proof.
  cbn zeta. intros Hne Hseq Hlt1 Hlt2 Hs.
  set (name := aggregateKey (AggregateType first) (AggregateRootID first)) in *.
  apply Store_Save_Ret in Hs as (cv & tx' & _ & _ & Hg & Hr & ->). fold name in Hg, Hr.
  apply Store_Save_range_written in Hr as (values & HF & [Ha Hgl _ _]);
    [| exact Hne | cbn [root]; rewrite opened_root_lookup; eauto | exact Hg].
  cbn [root] in *.
  destruct Hg as [g Hg]. rewrite opened_root_lookup_ne in Hg by congruence.
  specialize (Ha _ (opened_root_lookup db name)).
  specialize (Hgl g). rewrite opened_root_lookup_ne in Hgl by congruence.
  specialize (Hgl Hg).
  pose proof (Forall2_length _ _ _ HF) as HL.
  pose proof (opened_sequenced db name (Hseq name)) as Hb.
  assert (sequence_of db globalEventOrderBucketName = sequence g) as Sg
    by (unfold sequence_of; now rewrite Hg).
  assert (entries_of db globalEventOrderBucketName = entries g) as Eg0
    by (unfold entries_of; now rewrite Hg).
  destruct (issue_all_sequenced values _ Hb) as [Ea _];
    [cbn [sequence]; rewrite <- HL; exact Hlt1|].
  destruct (issue_all_sequenced values g (Hseq _ _ Hg)) as [Eg _];
    [rewrite <- HL, <- Sg; exact Hlt2|].
  exists values. split; [exact HF|].
  assert (entries_of (root tx') name
          = entries (issue_all (mkBucket (entries_of db name) (sequence_of db name)) values))
    as -> by (unfold entries_of at 1; now rewrite Ha).
  assert (entries_of (root tx') globalEventOrderBucketName = entries (issue_all g values))
    as -> by (unfold entries_of at 1; now rewrite Hgl).
  rewrite Ea, Eg, Sg, Eg0. cbn [entries sequence]. rewrite <- HL. auto.
Qed.

Lemma Store_Save_global_copies_witness :
  let e1 := mkEvent "u1" 1 "Created" "user" "d1" [] in
  let e2 := mkEvent "u1" 2 "Renamed" "user" "d2" [] in
  let db := Store.MustOpenBBolt in
  let db' := (Store.Save (serializer := LineCodec.serializer) db [e1; e2]).1 in
  ∃ values,
    Forall2 (fun e v => SerializeEvent (EventSerializer := LineCodec.serializer) e = Ret v)
      [e1; e2] values
    ∧ entries_of db' "user_u1"
      = entries_of db "user_u1"
        ++ zip (map (fun s => itob (int s)) (sequence_run (0 + 1) 2)) values
    ∧ entries_of db' globalEventOrderBucketName
      = entries_of db globalEventOrderBucketName
        ++ zip (map (fun s => itob (int s)) (sequence_run (0 + 1) 2)) values.
Proof.
  intros e1 e2 db db'.
  apply (Store_Save_global_copies (H := LineCodec.serializer) db db' e1 [e2]).
  - vm_compute. discriminate.
  - exact MustOpenBBolt_sequenced.
  - vm_compute. reflexivity.
  - vm_compute. reflexivity.
  - vm_compute. reflexivity.
Defined.

(** ** The earlier revision: pointers, repeated batches, reading *)

Section Pointers.

Context {codec : JSONCodec}.

Lemma pointers_run (name : string) (n : nat) : ∀ q,
  0 <= q → q + Z.of_nat n < 2 ^ 64 →
  pointers name q n = map (globalSequenceValue name) (sequence_run (q + 1) n).
Proof.
  induction n as [|n IH]; intros q H0 Hlt; [reflexivity|].
  rewrite Nat2Z.inj_succ in Hlt.
  cbn [pointers]. cbn zeta. rewrite sequence_run_S. cbn [map].
  rewrite uint64_small by lia. f_equal. apply IH; lia.
Qed.

(** What the loop of the earlier [Save] writes: the compressed documents to
    the aggregate bucket, a pointer to each of them to the global log. *)
Lemma StoreJSON_Save_range_pointers name events : ∀ tx tx' b,
  name ≠ globalEventOrderBucketName →
  root tx !! name = Some b →
  is_Some (root tx !! globalEventOrderBucketName) →
  StoreJSON.Save_range (Some name) (Some globalEventOrderBucketName) name events tx
  = Ret tx' →
  ∃ values,
    Forall2 (fun e v => ∃ obj, json_Marshal e = Ret obj ∧ MustCompress obj = Ret v)
      events values
    ∧ written tx tx' name values (pointers name (sequence b) (length events)).
Proof.
  induction events as [|e events IH]; intros tx tx' b Hne Hb [g Hg] Hs.
  - cbn in Hs. injection Hs as <-. exists []. split; [constructor | apply written_nil].
  - cbn [StoreJSON.Save_range] in Hs.
    apply bind_Ret_inv in Hs as (tx5 & He & Hs).
    unfold StoreJSON.Save_event in He.
    apply bind_Ret_inv in He as (obj & Hv & He). apply or_return_Ret in Hv.
    apply bind_Ret_inv in He as ([s tx1] & H1 & He). apply or_return_Ret in H1.
    apply bind_Ret_inv in He as (v & Hc & He).
    apply bind_Ret_inv in He as (tx2 & H2 & He). apply or_return_Ret in H2.
    apply bind_Ret_inv in He as ([gs tx3] & H3 & He). apply or_return_Ret in H3.
    cbn zeta in He.
    apply bind_Ret_inv in He as (tx4 & H4 & He). apply or_return_Ret in H4.
    injection He as <-.
    destruct (NextSequence_Ret _ _ _ _ H1) as (b0 & Hb0 & _ & Es & _).
    rewrite Hb in Hb0. injection Hb0 as <-.
    destruct (issue_step _ _ _ _ _ _ H1 H2) as (b' & Hb' & ->).
    rewrite Hb in Hb'. injection Hb' as <-.
    destruct (issue_step _ _ _ _ _ _ H3 H4) as (g' & Hg' & ->).
    cbn [root] in Hg'. rewrite lookup_insert_ne in Hg' by congruence.
    rewrite Hg in Hg'. injection Hg' as <-.
    cbn [root] in Hs.
    apply (IH _ _ (issue b v)) in Hs as (values & HF & Hw); cbn [root];
      [| exact Hne
       | rewrite lookup_insert_ne by congruence; apply lookup_insert_eq
       | rewrite lookup_insert_eq; eauto ].
    exists (v :: values). split; [constructor; eauto|].
    cbn [length pointers]. cbn zeta. subst s.
    exact (written_cons _ _ _ _ _ _ _ _ _ Hne Hb Hg Hw).
Qed.

(** The last of the values a batch was stored as belongs to its last
    event. *)
Lemma Forall2_last_value {A B} (P : A → B → Prop) (l : list A) (k : list B) (y : B) :
  Forall2 P l k → last k = Some y → ∃ x, last l = Some x ∧ P x y.
Proof.
  intros HF Hy. rewrite last_lookup in Hy.
  destruct (Forall2_lookup_r _ _ _ _ _ HF Hy) as (x & Hx & HP).
  exists x. split; [|exact HP].
  rewrite last_lookup, (Forall2_length _ _ _ HF). exact Hx.
Qed.

Lemma last_zip_values {A B} (l : list A) (k : list B) :
  length l = length k → snd <$> last (zip l k) = last k.
Proof.
  intros Hl. rewrite <- fmap_last. f_equal. apply snd_zip. lia.
Qed.

Lemma last_sequence_run (first : Z) (n : nat) :
  last (sequence_run first (S n)) = Some (first + Z.of_nat n).
Proof.
  rewrite last_lookup, sequence_run_length. cbn [Init.Nat.pred].
  unfold sequence_run. rewrite list_lookup_fmap, lookup_seq_lt by lia.
  reflexivity.
Qed.

End Pointers.

(** X26 — in the earlier revision every global entry points at its event: a
    committed [Save] of [n] events appends the compressed documents to the
    aggregate bucket under the next [n] local sequence numbers, and appends
    to the global log, under the next [n] global sequence numbers, the
    values [bucketName:s] for exactly those local sequence numbers [s], in
    the same order.  (Store whose buckets hold the keys of the sequence
    numbers they issued, aggregate not named like the global log, counters
    below [2^64].) *)
Theorem StoreJSON_Save_global_pointers `{JSONCodec} (db db' : DB)
    (first : Event) (rest : list Event) :
  let events := first :: rest in
  let n := length events in
  let name := bucketName (AggregateType first) (AggregateRootID first) in
  let a := sequence_of db name in
  let g := sequence_of db globalEventOrderBucketName in
  name ≠ globalEventOrderBucketName →
  store_sequenced db →
  a + Z.of_nat n < 2 ^ 64 →
  g + Z.of_nat n < 2 ^ 64 →
  StoreJSON.Save db events = (db', Ret tt) →
  ∃ values,
    Forall2 (fun e v => ∃ obj, json_Marshal e = Ret obj ∧ MustCompress obj = Ret v)
      events values
    ∧ entries_of db' name
      = entries_of db name
        ++ zip (map (fun s => itob (int s)) (sequence_run (a + 1) n)) values
    ∧ entries_of db' globalEventOrderBucketName
      = entries_of db globalEventOrderBucketName
        ++ zip (map (fun s => itob (int s)) (sequence_run (g + 1) n))
               (map (globalSequenceValue name) (sequence_run (a + 1) n)).
Proof.
  cbn zeta. intros Hne Hseq Hlt1 Hlt2 Hs.
  set (name := bucketName (AggregateType first) (AggregateRootID first)) in *.
  apply StoreJSON_Save_Ret in Hs as (cv & tx' & _ & _ & Hg & Hr & ->). fold name in Hg, Hr.
  apply (StoreJSON_Save_range_pointers name (first :: rest)
           (mkTx true (opened_root db name)) tx' _ Hne (opened_root_lookup db name) Hg)
    in Hr as (values & HF & [Ha Hgl _ Hl]).
  cbn [root sequence] in *.
  destruct Hg as [g Hg]. rewrite opened_root_lookup_ne in Hg by congruence.
  specialize (Ha _ (opened_root_lookup db name)).
  specialize (Hgl g). rewrite opened_root_lookup_ne in Hgl by congruence.
  specialize (Hgl Hg).
  pose proof (Forall2_length _ _ _ HF) as HL.
  pose proof (opened_sequenced db name (Hseq name)) as Hb.
  destruct (issue_all_sequenced values _ Hb) as [Ea _];
    [cbn [sequence]; rewrite <- HL; exact Hlt1|].
  destruct (issue_all_sequenced
              (pointers name (sequence_of db name) (length (first :: rest))) g
              (Hseq _ _ Hg)) as [Eg _].
  { rewrite Hl, <- HL. unfold sequence_of in Hlt2. rewrite Hg in Hlt2. exact Hlt2. }
  exists values. split; [exact HF|].
  assert (sequence_of db globalEventOrderBucketName = sequence g) as Sg
    by (unfold sequence_of; now rewrite Hg).
  assert (entries_of db globalEventOrderBucketName = entries g) as Eg0
    by (unfold entries_of; now rewrite Hg).
  assert (0 <= sequence_of db name) as Hpos by (destruct Hb as [Hb _]; exact (proj1 Hb)).
  assert (entries_of (root tx') name
          = entries (issue_all (mkBucket (entries_of db name) (sequence_of db name)) values))
    as -> by (unfold entries_of at 1; now rewrite Ha).
  assert (entries_of (root tx') globalEventOrderBucketName
          = entries (issue_all g (pointers name (sequence_of db name)
                                    (length (first :: rest)))))
    as -> by (unfold entries_of at 1; now rewrite Hgl).
  rewrite Ea, Eg, Sg, Eg0. cbn [entries sequence].
  rewrite Hl, <- HL. split; [reflexivity|].
  now rewrite pointers_run.
Qed.

Lemma StoreJSON_Save_global_pointers_witness :
  let e1 := mkEvent "u1" 1 "Created" "user" "d1" [] in
  let e2 := mkEvent "u1" 2 "Renamed" "user" "d2" [] in
  let db := StoreJSON.MustOpenBBolt in
  let db' := (StoreJSON.Save (codec := LineCodec.json) db [e1; e2]).1 in
  ∃ values,
    Forall2 (fun e v => ∃ obj, json_Marshal (JSONCodec := LineCodec.json) e = Ret obj
                               ∧ MustCompress (JSONCodec := LineCodec.json) obj = Ret v)
      [e1; e2] values
    ∧ entries_of db' "user_u1"
      = entries_of db "user_u1"
        ++ zip (map (fun s => itob (int s)) (sequence_run (0 + 1) 2)) values
    ∧ entries_of db' globalEventOrderBucketName
      = entries_of db globalEventOrderBucketName
        ++ zip (map (fun s => itob (int s)) (sequence_run (0 + 1) 2))
               (map (globalSequenceValue "user_u1") (sequence_run (0 + 1) 2)).
Proof.
  intros e1 e2 db db'.
  apply (StoreJSON_Save_global_pointers (H := LineCodec.json) db db' e1 [e2]).
  - vm_compute. discriminate.
  - exact MustOpenBBolt_sequenced.
  - vm_compute. reflexivity.
  - vm_compute. reflexivity.
  - vm_compute. reflexivity.
Defined.

(** X27 — a stream cannot be written twice: in the earlier revision, once a
    batch [B] has been saved for an aggregate that had no keyspace, a further
    [Save] for that aggregate whose first event does not carry the version
    [len(B) + 1] (the batch [B] again, for one) returns the concurrency
    error and leaves the database as it is.  The codec is assumed to hand
    back the version of a document it wrote. *)
Theorem StoreJSON_Save_again_is_rejected `{JSONCodec} (db db' : DB)
    (first : Event) (rest : list Event) (second : Event) (rest2 : list Event) :
  let B := first :: rest in
  let id := AggregateRootID first in
  let type := AggregateType first in
  is_Some (db !! globalEventOrderBucketName) →
  db !! bucketName type id = None →
  Z.of_nat (length B) + 1 < 2 ^ 63 →
  (∀ e obj v, e ∈ B → json_Marshal e = Ret obj → MustCompress obj = Ret v →
     ∃ obj' e', MustDecompress v = Ret obj'
                ∧ json_Unmarshal obj' (mkEvent "" 0 "" "" "" []) = Ret e'
                ∧ Version e' = Version e) →
  AggregateRootID second = id →
  AggregateType second = type →
  Version second ≠ Z.of_nat (length B) + 1 →
  StoreJSON.Save db B = (db', Ret tt) →
  StoreJSON.Save db' (second :: rest2) = (db', Fail (errorString "concurrency error")).
Proof.
  cbn zeta. intros Hglobal Hfresh Hlen Hcodec Hid Htype Hversion Hs.
  set (name := bucketName (AggregateType first) (AggregateRootID first)) in *.
  assert (name ≠ globalEventOrderBucketName) as Hne.
  { intros E. rewrite E in Hfresh. destruct Hglobal as [g Hg]. congruence. }
  assert (entries_of db name = []) as En by (unfold entries_of; now rewrite Hfresh).
  assert (sequence_of db name = 0) as Sn by (unfold sequence_of; now rewrite Hfresh).
  apply StoreJSON_Save_Ret in Hs as (cv & tx' & Hcv & Hv & Hg & Hr & ->).
  fold name in Hcv, Hg, Hr.
  rewrite En in Hcv. apply Ret_inj in Hcv. subst cv.
  apply Ret_inj in Hv.
  apply validateEvents_range_accepted in Hv as [_ Hversions]; [| lia | lia].
  apply (StoreJSON_Save_range_pointers name (first :: rest)
           (mkTx true (opened_root db name)) tx' _ Hne (opened_root_lookup db name) Hg)
    in Hr as (values & HF & [Ha _ _ _]).
  cbn [root] in Ha. specialize (Ha _ (opened_root_lookup db name)).
  rewrite En, Sn in Ha.
  pose proof (Forall2_length _ _ _ HF) as HL.
  destruct (issue_all_sequenced values (mkBucket [] 0)) as [Ei _].
  { split; [cbn; lia | constructor]. }
  { cbn [sequence]. rewrite <- HL. lia. }
  rewrite Ei in Ha. cbn [entries sequence app] in Ha.
  (* the last stored document is the last event's *)
  set (keys := map (fun s => itob (int s)) (sequence_run (0 + 1) (length values))) in Ha.
  assert (length keys = length values) as Hk
    by (unfold keys; now rewrite length_map, sequence_run_length).
  pose proof (last_zip_values keys values Hk) as Hlast.
  destruct (last values) as [v|] eqn:Elast.
  2:{ rewrite last_None in Elast. subst values. discriminate HL. }
  destruct (Forall2_last_value _ _ _ _ HF Elast) as (e & He & obj & Hm & Hc).
  assert (e ∈ first :: rest) as Hin.
  { rewrite last_lookup in He. now apply list_elem_of_lookup_2 in He. }
  destruct (Hcodec e obj v Hin Hm Hc) as (obj' & e' & Hd & Hu & Ev).
  assert (Version e = Z.of_nat (length (first :: rest))) as Hn.
  { assert (last (map Version (first :: rest)) = Some (Version e)) as H1
      by (rewrite fmap_last, He; reflexivity).
    rewrite Hversions in H1. cbn [length] in H1 |- *.
    rewrite last_sequence_run in H1. injection H1 as <-. lia. }
  (* the second call *)
  rewrite StoreJSON_Save_unfold. cbn zeta. rewrite Hid, Htype. fold name.
  assert (entries_of (root tx') name = zip keys values) as ->
    by (unfold entries_of; now rewrite Ha).
  unfold StoreJSON.Save_currentVersion, Last.
  destruct (last (zip keys values)) as [[k v']|]; [|discriminate].
  cbn in Hlast. injection Hlast as ->.
  rewrite Hd, bind_Ret, Hu, !bind_Ret, Ev, Hn.
  unfold validateEvents. rewrite bind_Ret. cbn [validateEvents_range].
  rewrite Hid.
  destruct (decide (AggregateRootID first ≠ AggregateRootID first)); [contradiction|].
  destruct (decide (AggregateType second ≠ AggregateType second)); [contradiction|].
  assert (int_add (Z.of_nat (length (first :: rest))) 1
          = Z.of_nat (length (first :: rest)) + 1) as ->
    by (unfold int_add; apply int_small; lia).
  destruct (decide (Z.of_nat (length (first :: rest)) + 1 ≠ Version second))
    as [_|Hsame]; [reflexivity|].
  exfalso. apply Hsame. intros E. apply Hversion. now symmetry.
Qed.

Lemma StoreJSON_Save_again_is_rejected_witness :
  let e1 := mkEvent "u1" 1 "Created" "user" "d1" [] in
  let e2 := mkEvent "u1" 2 "Renamed" "user" "d2" [] in
  let db := StoreJSON.MustOpenBBolt in
  let db' := (StoreJSON.Save (codec := LineCodec.json) db [e1; e2]).1 in
  StoreJSON.Save (codec := LineCodec.json) db' [e1; e2]
  = (db', Fail (errorString "concurrency error")).
Proof.
  intros e1 e2 db db'.
  apply (StoreJSON_Save_again_is_rejected (H := LineCodec.json) db db' e1 [e2] e1 [e2]).
  - vm_compute. eauto.
  - vm_compute. reflexivity.
  - cbn. lia.
  - intros e obj v He Hm Hc. injection Hm as <-. injection Hc as <-.
    apply list_elem_of_In in He.
    destruct He as [<-|[<-|[]]]; eexists _, _; (split; [reflexivity|]);
      (split; [vm_compute; reflexivity | reflexivity]).
  - reflexivity.
  - reflexivity.
  - cbn. lia.
  - vm_compute. reflexivity.
Defined.

(** X28 — the earlier [Get] does not check for a missing keyspace either:
    for an aggregate without a keyspace it writes its line to standard
    output and then panics on the nil bucket; it returns neither events nor
    an error. *)
Theorem StoreJSON_Get_panics_without_keyspace `{JSONCodec} (db : DB)
    (id aggregateType : string) :
  db !! bucketName aggregateType id = None →
  StoreJSON.Get db id aggregateType
  = (String "G" (String "E" (String "T" (String "010" EmptyString))), Panic).
Proof.
  intros Habsent. unfold StoreJSON.Get, Tx_Bucket, Begin. cbn [root].
  now rewrite Habsent.
Qed.

Lemma StoreJSON_Get_panics_without_keyspace_witness :
  StoreJSON.Get (codec := LineCodec.json) StoreJSON.MustOpenBBolt "u1" "user"
  = (String "G" (String "E" (String "T" (String "010" EmptyString))), Panic).
Proof.
  apply (StoreJSON_Get_panics_without_keyspace (H := LineCodec.json)
           StoreJSON.MustOpenBBolt "u1" "user").
  vm_compute. reflexivity.
Defined.

(** ** Failures of [Save] *)

Section Failures.

Context {serializer : EventSerializer}.

Lemma NextSequence_writable (name : string) (tx : Tx) (b : Bucket) :
  writable tx = true → root tx !! name = Some b →
  NextSequence (Some name) tx
  = Ret (uint64 (sequence b + 1),
         mkTx true (<[name := mkBucket (entries b) (uint64 (sequence b + 1))]> (root tx))).
Proof. intros W Hb. unfold NextSequence. now rewrite Hb, W. Qed.

(** A key made by [itob] is accepted; [Put] fails on the value alone. *)
Lemma Put_itob (name : string) (tx : Tx) (b : Bucket) (v : Z) (value : bytes) :
  writable tx = true → root tx !! name = Some b →
  Put (Some name) (itob v) value tx
  = if MaxValueSize <? Z.of_nat (length value) then Fail ErrValueTooLarge
    else Ret (mkTx true
                (<[name := mkBucket (put (itob v) value (entries b)) (sequence b)]>
                   (root tx))).
Proof.
  intros W Hb. unfold Put. rewrite Hb, W. cbn [negb].
  destruct (decide (itob v = [])) as [E|_]; [discriminate E|].
  reflexivity.
Qed.

Lemma Store_Save_event_outcome (ev g name : string) (event : Event) (tx : Tx) :
  writable tx = true → is_Some (root tx !! ev) → is_Some (root tx !! g) →
  match Store.Save_event (Some ev) (Some g) name event tx with
  | Ret tx' => writable tx' = true ∧ is_Some (root tx' !! ev) ∧ is_Some (root tx' !! g)
  | Fail err =>
      (∃ e, SerializeEvent event = Fail e
            ∧ err = errorfErr "could not serialize event, %v" e)
      ∨ (∃ value, SerializeEvent event = Ret value
                  ∧ MaxValueSize < Z.of_nat (length value)
                  ∧ err = errorfEvent "could not save event %#v in bucket" event)
  | Panic => SerializeEvent event = Panic
  end.
Proof.
  intros W [b Hb] [gb Hg]. unfold Store.Save_event.
  rewrite (NextSequence_writable ev tx b W Hb). cbn [or_return]. rewrite bind_Ret.
  destruct (SerializeEvent event) as [value|e|] eqn:Es; cbn [or_return];
    [| left; eauto | reflexivity].
  rewrite bind_Ret.
  rewrite (Put_itob ev _ (mkBucket (entries b) (uint64 (sequence b + 1))));
    [| reflexivity | cbn [root]; apply lookup_insert_eq].
  destruct (MaxValueSize <? Z.of_nat (length value)) eqn:El; cbn [or_return].
  { rewrite bind_Fail. right. exists value. rewrite Z.ltb_lt in El. auto. }
  rewrite bind_Ret. cbn [root entries sequence].
  match goal with
  | |- context [NextSequence (Some g) ?t] =>
      assert (∃ gb', root t !! g = Some gb') as [gb' Hg']
  end.
  { cbn [root]. destruct (decide (ev = g)) as [->|Hne].
    - rewrite lookup_insert_eq. eauto.
    - rewrite !lookup_insert_ne by exact Hne. eauto. }
  match goal with
  | |- context [NextSequence (Some g) ?t] =>
      rewrite (NextSequence_writable g t gb' eq_refl Hg')
  end.
  cbn [or_return]. rewrite bind_Ret.
  rewrite (Put_itob g _ (mkBucket (entries gb') (uint64 (sequence gb' + 1))));
    [| reflexivity | cbn [root]; apply lookup_insert_eq].
  rewrite El. cbn [or_return]. rewrite bind_Ret.
  split; [reflexivity|]. cbn [root]. split.
  - destruct (decide (g = ev)) as [->|Hne].
    + rewrite lookup_insert_eq. eauto.
    + rewrite !(lookup_insert_ne _ g ev) by exact Hne. rewrite lookup_insert_eq. eauto.
  - rewrite lookup_insert_eq. eauto.
Qed.

Lemma Store_Save_range_outcome (ev g name : string) (events : list Event) : ∀ tx,
  writable tx = true → is_Some (root tx !! ev) → is_Some (root tx !! g) →
  match Store.Save_range (Some ev) (Some g) name events tx with
  | Ret tx' => True
  | Fail err =>
      (∃ event e, event ∈ events ∧ SerializeEvent event = Fail e
                  ∧ err = errorfErr "could not serialize event, %v" e)
      ∨ (∃ event value, event ∈ events ∧ SerializeEvent event = Ret value
                        ∧ MaxValueSize < Z.of_nat (length value)
                        ∧ err = errorfEvent "could not save event %#v in bucket" event)
  | Panic => ∃ event, event ∈ events ∧ SerializeEvent event = Panic
  end.
Proof.
  induction events as [|event events IH]; intros tx W Hev Hg; [exact I|].
  cbn [Store.Save_range].
  pose proof (Store_Save_event_outcome ev g name event tx W Hev Hg) as Hstep.
  destruct (Store.Save_event (Some ev) (Some g) name event tx) as [tx1|err|].
  - rewrite bind_Ret. destruct Hstep as (W1 & Hev1 & Hg1).
    specialize (IH tx1 W1 Hev1 Hg1).
    destruct (Store.Save_range (Some ev) (Some g) name events tx1) as [tx'|err|].
    + exact I.
    + destruct IH as [(e0 & e & Hin & Hs & ->)|(e0 & value & Hin & Hs & Hl & ->)].
      * left. exists e0, e. split; [now right | auto].
      * right. exists e0, value. split; [now right | auto].
    + destruct IH as (e0 & Hin & Hs). exists e0. split; [now right | exact Hs].
  - rewrite bind_Fail.
    destruct Hstep as [(e & Hs & ->)|(value & Hs & Hl & ->)].
    + left. exists event, e. split; [left | auto].
    + right. exists event, value. split; [left | auto].
  - exists event. split; [left | exact Hstep].
Qed.

Lemma ValidateEvents_range_returns id type events : ∀ cv,
  eventstore.ValidateEvents_range id type cv events ≠ Panic.
Proof.
  induction events as [|e events IH]; intros cv; [discriminate|].
  cbn [eventstore.ValidateEvents_range]. repeat (case_decide; [discriminate|]).
  apply IH.
Qed.

End Failures.

(** [Save] under an engine that answers nil: the error it returns is one
    of four, and it panics only when the serializer does. *)
Lemma Store_Save_failures `{EventSerializer} (db : DB)
    (first : Event) (rest : list Event) :
  let events := first :: rest in
  let id := AggregateRootID first in
  let name := aggregateKey (AggregateType first) id in
  is_Some (db !! globalEventOrderBucketName) →
  match Store.Save db events with
  | (db', Ret _) => True
  | (db', Fail err) =>
      db' = db
      ∧ ((∃ k obj e, Last (entries_of db name) = Some (k, obj)
                     ∧ DeserializeEvent obj = Fail e
                     ∧ err = errorfErr "could not serialize event, %v" e)
         ∨ (∃ cv, Store.Save_currentVersion (entries_of db name) = Ret cv
                  ∧ eventstore.ValidateEvents id cv events = Fail err)
         ∨ (∃ event e, event ∈ events ∧ SerializeEvent event = Fail e
                       ∧ err = errorfErr "could not serialize event, %v" e)
         ∨ (∃ event value, event ∈ events ∧ SerializeEvent event = Ret value
                           ∧ MaxValueSize < Z.of_nat (length value)
                           ∧ err = errorfEvent "could not save event %#v in bucket" event))
  | (db', Panic) =>
      db' = db
      ∧ ((∃ k obj, Last (entries_of db name) = Some (k, obj)
                   ∧ DeserializeEvent obj = Panic)
         ∨ (∃ event, event ∈ events ∧ SerializeEvent event = Panic))
  end.
Proof.
  cbn zeta. intros [g Hg]. rewrite Store_Save_unfold. cbn zeta.
  set (name := aggregateKey (AggregateType first) (AggregateRootID first)).
  unfold Store.Save_currentVersion.
  destruct (Last (entries_of db name)) as [[k obj]|] eqn:El.
  - destruct (DeserializeEvent obj) as [event|e|] eqn:Ed; cbn [or_return].
    2:{ rewrite !bind_Fail. split; [reflexivity|]. left. eauto 10. }
    2:{ cbn. split; [reflexivity|]. left. eauto. }
    rewrite !bind_Ret.
    destruct (eventstore.ValidateEvents (AggregateRootID first) (Version event)
                (first :: rest)) as [[]|err|] eqn:Ev.
    + rewrite bind_Ret.
      assert (is_Some (opened_root db name !! globalEventOrderBucketName)) as Hg'.
      { unfold opened_root. destruct (db !! name); [eauto|].
        destruct (decide (name = globalEventOrderBucketName)) as [->|Hne].
        - rewrite lookup_insert_eq. eauto.
        - rewrite lookup_insert_ne by exact Hne. eauto. }
      rewrite (Tx_Bucket_Some globalEventOrderBucketName
                 (mkTx true (opened_root db name)) Hg').
      rewrite bind_Ret.
      pose proof (Store_Save_range_outcome name globalEventOrderBucketName name
                    (first :: rest) (mkTx true (opened_root db name)) eq_refl) as Hr.
      cbn [root] in Hr. rewrite opened_root_lookup in Hr.
      specialize (Hr ltac:(eauto) Hg').
      destruct (Store.Save_range _ _ _ _ _) as [tx'|err|]; [exact I| |].
      * split; [reflexivity|]. right. right. exact Hr.
      * split; [reflexivity|]. right. exact Hr.
    + rewrite bind_Fail. split; [reflexivity|]. right. left.
      exists (Version event). auto.
    + exfalso. unfold eventstore.ValidateEvents in Ev.
      now apply ValidateEvents_range_returns in Ev.
  - rewrite !bind_Ret.
    destruct (eventstore.ValidateEvents (AggregateRootID first) 0
                (first :: rest)) as [[]|err|] eqn:Ev.
    + rewrite bind_Ret.
      assert (is_Some (opened_root db name !! globalEventOrderBucketName)) as Hg'.
      { unfold opened_root. destruct (db !! name); [eauto|].
        destruct (decide (name = globalEventOrderBucketName)) as [->|Hne].
        - rewrite lookup_insert_eq. eauto.
        - rewrite lookup_insert_ne by exact Hne. eauto. }
      rewrite (Tx_Bucket_Some globalEventOrderBucketName
                 (mkTx true (opened_root db name)) Hg').
      rewrite bind_Ret.
      pose proof (Store_Save_range_outcome name globalEventOrderBucketName name
                    (first :: rest) (mkTx true (opened_root db name)) eq_refl) as Hr.
      cbn [root] in Hr. rewrite opened_root_lookup in Hr.
      specialize (Hr ltac:(eauto) Hg').
      destruct (Store.Save_range _ _ _ _ _) as [tx'|err|]; [exact I| |].
      * split; [reflexivity|]. right. right. exact Hr.
      * split; [reflexivity|]. right. exact Hr.
    + rewrite bind_Fail. split; [reflexivity|]. right. left. exists 0. auto.
    + exfalso. unfold eventstore.ValidateEvents in Ev.
      now apply ValidateEvents_range_returns in Ev.
Qed.


Lemma Save_under_Save `{EventSerializer} (engine : Store.Engine) (db : DB)
    (first : Event) (rest : list Event) :
  Store.Save_under engine db (first :: rest)
  = match Store.Begin_err engine with
    | Some err => (db, Fail err)
    | None =>
        match Store.Save db (first :: rest) with
        | (db', Ret _) =>
            match Store.Commit_err engine with
            | Some err => (db, Fail err)
            | None => (db', Ret tt)
            end
        | (db', Fail err) => (db', Fail err)
        | (db', Panic) => (db', Panic)
        end
    end.
Proof.
  unfold Store.Save_under, Store.Save. cbn zeta.
  destruct (Store.Begin_err engine); [reflexivity|].
  destruct (Store.Save_tx (first :: rest) first (Begin true db)); reflexivity.
Qed.

(** X29 — the failures of [Save], all of them.  On a store that has the
    global order bucket, [Save] of a non-empty batch returns nil only when
    [db.Begin] and [tx.Commit] answered nil, and then the batch is
    committed.  When it returns an error the database is as it was, and the
    error is one of: the error of [db.Begin]; the error of [tx.Commit]; the
    error of deserializing the last stored event of the stream or of
    serializing an event of the batch (wrapped); the validator's error; the
    save error for an event whose serialized value the engine refuses as
    too large.  The errors for a bucket that cannot be created, a missing
    global bucket, a sequence that cannot be had and a global entry that
    cannot be written are never returned.  It panics only when the
    serializer does: no nil bucket is dereferenced. *)
Theorem Save_failures_enumerated `{EventSerializer} (engine : Store.Engine) (db : DB)
    (first : Event) (rest : list Event) :
  let events := first :: rest in
  let id := AggregateRootID first in
  let name := aggregateKey (AggregateType first) id in
  is_Some (db !! globalEventOrderBucketName) →
  match Store.Save_under engine db events with
  | (db', Ret _) =>
      Store.Begin_err engine = None ∧ Store.Commit_err engine = None
      ∧ Store.Save db events = (db', Ret tt)
  | (db', Fail err) =>
      db' = db
      ∧ (Store.Begin_err engine = Some err
         ∨ Store.Commit_err engine = Some err
         ∨ (∃ k obj e, Last (entries_of db name) = Some (k, obj)
                       ∧ DeserializeEvent obj = Fail e
                       ∧ err = errorfErr "could not serialize event, %v" e)
         ∨ (∃ cv, Store.Save_currentVersion (entries_of db name) = Ret cv
                  ∧ eventstore.ValidateEvents id cv events = Fail err)
         ∨ (∃ event e, event ∈ events ∧ SerializeEvent event = Fail e
                       ∧ err = errorfErr "could not serialize event, %v" e)
         ∨ (∃ event value, event ∈ events ∧ SerializeEvent event = Ret value
                           ∧ MaxValueSize < Z.of_nat (length value)
                           ∧ err = errorfEvent "could not save event %#v in bucket" event))
  | (db', Panic) =>
      db' = db
      ∧ ((∃ k obj, Last (entries_of db name) = Some (k, obj)
                   ∧ DeserializeEvent obj = Panic)
         ∨ (∃ event, event ∈ events ∧ SerializeEvent event = Panic))
  end.
Proof.
  cbn zeta. intros Hglobal. rewrite Save_under_Save.
  destruct (Store.Begin_err engine) as [err|] eqn:Eb; [auto|].
  pose proof (Store_Save_failures db first rest Hglobal) as Hs. cbn zeta in Hs.
  destruct (Store.Save db (first :: rest)) as [db' [[]|err|]].
  - destruct (Store.Commit_err engine) as [err|] eqn:Ec; auto.
  - destruct Hs as [-> Hs]. split; [reflexivity|]. right. right. exact Hs.
  - exact Hs.
Qed.

Lemma Save_failures_enumerated_witness :
  let e := mkEvent "u1" 1 "Created" "user" "d1" [] in
  let engine := Store.mkEngine None (Some (errorString "write failed")) in
  let db := Store.MustOpenBBolt in
  match Store.Save_under (serializer := LineCodec.serializer) engine db [e] with
  | (db', Ret _) =>
      Store.Begin_err engine = None ∧ Store.Commit_err engine = None
      ∧ Store.Save (serializer := LineCodec.serializer) db [e] = (db', Ret tt)
  | (db', Fail err) =>
      db' = db
      ∧ (Store.Begin_err engine = Some err
         ∨ Store.Commit_err engine = Some err
         ∨ (∃ k obj e0, Last (entries_of db "user_u1") = Some (k, obj)
                        ∧ DeserializeEvent (EventSerializer := LineCodec.serializer) obj
                          = Fail e0
                        ∧ err = errorfErr "could not serialize event, %v" e0)
         ∨ (∃ cv, Store.Save_currentVersion (serializer := LineCodec.serializer)
                    (entries_of db "user_u1") = Ret cv
                  ∧ eventstore.ValidateEvents "u1" cv [e] = Fail err)
         ∨ (∃ event e0, event ∈ [e]
                        ∧ SerializeEvent (EventSerializer := LineCodec.serializer) event
                          = Fail e0
                        ∧ err = errorfErr "could not serialize event, %v" e0)
         ∨ (∃ event value, event ∈ [e]
                           ∧ SerializeEvent (EventSerializer := LineCodec.serializer) event
                             = Ret value
                           ∧ MaxValueSize < Z.of_nat (length value)
                           ∧ err = errorfEvent "could not save event %#v in bucket" event))
  | (db', Panic) =>
      db' = db
      ∧ ((∃ k obj, Last (entries_of db "user_u1") = Some (k, obj)
                   ∧ DeserializeEvent (EventSerializer := LineCodec.serializer) obj = Panic)
         ∨ (∃ event, event ∈ [e]
                     ∧ SerializeEvent (EventSerializer := LineCodec.serializer) event
                       = Panic))
  end.
Proof.
  intros e engine db.
  apply (Save_failures_enumerated (H := LineCodec.serializer) engine db e []).
  vm_compute. eauto.
Defined.
